(** * TLS connection multiplexing engine of idfix-protocols

    A shallow embedding of [TLSServer] (TLSServer.h, TLSServer.cpp) and
    [TLSSocket] (TLSSocket.h, TLSSocket.cpp), and proofs about the
    lifecycle of the server and of its connections.

    The two classes mutate shared objects: the server keeps shared
    pointers to its sockets in [_socketMap], every socket keeps a raw
    pointer [_owner] back to the server, and the application receives a
    pointer to an established socket through [tlsNewConnection].  The
    embedding therefore keeps one store (the [World]) with the server
    object, a heap of socket objects addressed by [sockid], the state of
    the loop thread and the log of everything the engine did towards the
    event sinks and the TLS library.  Every method is a computation over
    that store.

    The operating system and the TLS library are external: the values
    their calls return are arguments of the methods that make the calls. *)

From Stdlib Require Import ZArith Lia List Bool.
From Stdlib.Strings Require Import Byte.
From stdpp Require Import base option list gmap sets sorting.

Local Open Scope Z_scope.

(** ** Data model *)

(** Address of a [TLSSocket] object (the target of a [TLSSocket_sharedPtr]). *)
Abbreviation sockid := nat.

(** Identity of an event handler object supplied by the application. *)
Abbreviation handler := nat.

(** An [SSL *]: the object it points to is allocated by [SSL_new] and
    released by [SSL_free]; the pointer itself is never reset by the code. *)
Inductive SSL_ptr := SSL_live | SSL_freed.

(** [class TLSSocket], TLSSocket.h 144-149.  [_owner] points to the one
    server or is [nullptr]; [_mutex] is not a field of the model. *)
Record TLSSocket := mkTLSSocket {
  sock_owner : bool;
  sock_socketDescriptor : Z;
  sock_tlsPeer : SSL_ptr;
  sock_sslAccepted : bool;
  sock_eventHandler : option handler
}.

(** [class TLSServer], TLSServer.h 138-151.  An [fd_set] is the set of the
    descriptors whose bit is set. *)
Record TLSServer := mkTLSServer {
  srv_eventHandler : option handler;
  srv_serverSocket : Z;
  srv_serverPort : Z;
  srv_serverIsRunning : bool;
  srv_serverIsShutdown : bool;
  srv_activeDescriptors : gset Z;
  srv_socketMap : gmap Z sockid
}.

(** The thread of the [Task] base class that executes [run] and then
    [stopTask]. *)
Inductive TaskState :=
| TaskIdle        (* startTask was never called *)
| TaskStarted     (* thread created, run() not yet entered *)
| TaskLooping     (* inside the while loop of run() *)
| TaskReturned    (* run() has returned, stopTask() not yet executed *)
| TaskStopped.    (* stopTask() done *)

(** What the engine does towards the outside, in order. *)
Inductive Event :=
| tlsNewConnection (s : sockid)                       (* TLSServerEventHandler *)
| socketBytesReceived (s : sockid) (bytes : list Byte.byte)  (* TLSSocketEventHandler *)
| socketDisconnected (s : sockid)                     (* TLSSocketEventHandler *)
| lib_SSL_accept (s : sockid) (result : Z)            (* handshake performed on the wire *)
| lib_SSL_shutdown (s : sockid)
| sys_close (fd : Z).

Record World := mkWorld {
  server : TLSServer;
  sockets : gmap sockid TLSSocket;
  task : TaskState;
  events : list Event
}.

#[global] Instance byte_eq_dec : EqDecision Byte.byte := Byte.byte_eq_dec.
#[global] Instance SSL_ptr_eq_dec : EqDecision SSL_ptr.
Proof. solve_decision. Defined.
#[global] Instance TaskState_eq_dec : EqDecision TaskState.
Proof. solve_decision. Defined.
#[global] Instance Event_eq_dec : EqDecision Event.
Proof. solve_decision. Defined.

(** ** Computations over the store *)

(** Ways in which a call leaves defined behaviour. *)
Inductive Fault :=
| UseAfterFree      (* an SSL object is used after SSL_free *)
| OutOfRange        (* std::map::at on a missing key *)
| NoSuchObject.     (* a socket address that was never allocated *)

Inductive Outcome (A : Type) :=
| Done (a : A) (w : World)
| Crash (f : Fault).
Arguments Done {A} a w.
Arguments Crash {A} f.

Definition M (A : Type) : Type := World -> Outcome A.

Definition ret {A} (a : A) : M A := fun w => Done a w.

Definition bind {A B} (c : M A) (k : A -> M B) : M B :=
  fun w => match c w with
           | Done a w' => k a w'
           | Crash f => Crash f
           end.

Definition crash {A} (f : Fault) : M A := fun _ => Crash f.

Notation "'do' x <- c ; k" := (bind c (fun x => k))
  (at level 10, x name, c at level 100, k at level 200).
Notation "c ;; k" := (bind c (fun _ => k))
  (at level 100, k at level 200, right associativity).

Definition getServer : M TLSServer := fun w => Done (server w) w.

Definition setServer (srv : TLSServer) : M unit :=
  fun w => Done tt (mkWorld srv (sockets w) (task w) (events w)).

Definition getSocket (s : sockid) : M TLSSocket :=
  fun w => match sockets w !! s with
           | Some sock => Done sock w
           | None => Crash NoSuchObject
           end.

Definition setSocket (s : sockid) (sock : TLSSocket) : M unit :=
  fun w => Done tt (mkWorld (server w) (<[s := sock]> (sockets w)) (task w) (events w)).

Definition setTask (t : TaskState) : M unit :=
  fun w => Done tt (mkWorld (server w) (sockets w) t (events w)).

Definition emit (e : Event) : M unit :=
  fun w => Done tt (mkWorld (server w) (sockets w) (task w)
                            (events w ++ [e])).

(** [std::make_shared<TLSSocket>(...)]: a new object at a fresh address. *)
Definition newSocket (sock : TLSSocket) : M sockid :=
  fun w => let s := fresh (dom (sockets w)) in
           Done s (mkWorld (server w) (<[s := sock]> (sockets w)) (task w) (events w)).

(** The test [p != nullptr] of a pointer. *)
Definition notNull {A} (p : option A) : bool :=
  match p with Some _ => true | None => false end.

Definition when (b : bool) (c : M unit) : M unit := if b then c else ret tt.

(** Field updates. *)
Definition set_owner (o : bool) (k : TLSSocket) : TLSSocket :=
  mkTLSSocket o (sock_socketDescriptor k) (sock_tlsPeer k) (sock_sslAccepted k)
              (sock_eventHandler k).
Definition set_socketDescriptor (d : Z) (k : TLSSocket) : TLSSocket :=
  mkTLSSocket (sock_owner k) d (sock_tlsPeer k) (sock_sslAccepted k)
              (sock_eventHandler k).
Definition set_tlsPeer (p : SSL_ptr) (k : TLSSocket) : TLSSocket :=
  mkTLSSocket (sock_owner k) (sock_socketDescriptor k) p (sock_sslAccepted k)
              (sock_eventHandler k).
Definition set_sslAccepted (b : bool) (k : TLSSocket) : TLSSocket :=
  mkTLSSocket (sock_owner k) (sock_socketDescriptor k) (sock_tlsPeer k) b
              (sock_eventHandler k).
Definition set_eventHandler (h : option handler) (k : TLSSocket) : TLSSocket :=
  mkTLSSocket (sock_owner k) (sock_socketDescriptor k) (sock_tlsPeer k)
              (sock_sslAccepted k) h.

Definition set_serverSocket (d : Z) (v : TLSServer) : TLSServer :=
  mkTLSServer (srv_eventHandler v) d (srv_serverPort v) (srv_serverIsRunning v)
              (srv_serverIsShutdown v) (srv_activeDescriptors v) (srv_socketMap v).
Definition set_serverPort (p : Z) (v : TLSServer) : TLSServer :=
  mkTLSServer (srv_eventHandler v) (srv_serverSocket v) p (srv_serverIsRunning v)
              (srv_serverIsShutdown v) (srv_activeDescriptors v) (srv_socketMap v).
Definition set_serverIsRunning (b : bool) (v : TLSServer) : TLSServer :=
  mkTLSServer (srv_eventHandler v) (srv_serverSocket v) (srv_serverPort v) b
              (srv_serverIsShutdown v) (srv_activeDescriptors v) (srv_socketMap v).
Definition set_serverIsShutdown (b : bool) (v : TLSServer) : TLSServer :=
  mkTLSServer (srv_eventHandler v) (srv_serverSocket v) (srv_serverPort v)
              (srv_serverIsRunning v) b (srv_activeDescriptors v) (srv_socketMap v).
Definition set_activeDescriptors (a : gset Z) (v : TLSServer) : TLSServer :=
  mkTLSServer (srv_eventHandler v) (srv_serverSocket v) (srv_serverPort v)
              (srv_serverIsRunning v) (srv_serverIsShutdown v) a (srv_socketMap v).
Definition set_socketMap (m : gmap Z sockid) (v : TLSServer) : TLSServer :=
  mkTLSServer (srv_eventHandler v) (srv_serverSocket v) (srv_serverPort v)
              (srv_serverIsRunning v) (srv_serverIsShutdown v)
              (srv_activeDescriptors v) m.

Definition modifyServer (f : TLSServer -> TLSServer) : M unit :=
  do srv <- getServer; setServer (f srv).

Definition modifySocket (s : sockid) (f : TLSSocket -> TLSSocket) : M unit :=
  do sock <- getSocket s; setSocket s (f sock).

(** The [fd_set] macros on [_activeDescriptors]. *)
Definition FD_SET (d : Z) : M unit :=
  modifyServer (fun v => set_activeDescriptors ({[d]} ∪ srv_activeDescriptors v) v).
Definition FD_CLR (d : Z) : M unit :=
  modifyServer (fun v => set_activeDescriptors (srv_activeDescriptors v ∖ {[d]}) v).
Definition FD_ZERO : M unit :=
  modifyServer (set_activeDescriptors ∅).

(** ** TLSSocket and TLSServer methods

    [TLSSocket::close] calls [TLSServer::removeSocket], which calls
    [TLSSocket::releaseOwner]; [TLSSocket::acceptSSL] calls
    [TLSServer::sendNewConnectionEvent].  The definitions come in the
    order of these calls. *)

(** Constructor, TLSSocket.cpp 499-503 with the member initialisers of
    TLSSocket.h 147-148. *)
Definition TLSSocket_new (socketDescriptor : Z) : TLSSocket :=
  mkTLSSocket true socketDescriptor SSL_live false None.

(** [TLSSocket::releaseOwner], TLSSocket.cpp 695-703. *)
Definition TLSSocket_releaseOwner (s : sockid) : M unit :=
  modifySocket s (set_owner false).

(** [TLSSocket::setEventHandler], TLSSocket.cpp 511-518. *)
Definition TLSSocket_setEventHandler (s : sockid) (eventHandler : option handler)
  : M unit :=
  modifySocket s (set_eventHandler eventHandler).

(** [TLSServer::removeSocket], TLSServer.cpp 362-379. *)
Definition TLSServer_removeSocket (s : sockid) : M unit :=
  do srv <- getServer;
  if negb (srv_serverIsRunning srv) then ret tt
  else
    do sock <- getSocket s;
    FD_CLR (sock_socketDescriptor sock) ;;
    modifyServer (fun v => set_socketMap
                    (delete (sock_socketDescriptor sock) (srv_socketMap v)) v) ;;
    TLSSocket_releaseOwner s.

(** [TLSServer::sendNewConnectionEvent], TLSServer.cpp 381-394.  The
    handler receives the shared pointer stored in the map; [std::map::at]
    throws when the key is missing. *)
Definition TLSServer_sendNewConnectionEvent (s : sockid) : M unit :=
  do srv <- getServer;
  if notNull (srv_eventHandler srv) && srv_serverIsRunning srv then
    do sock <- getSocket s;
    match srv_socketMap srv !! sock_socketDescriptor sock with
    | Some sharedPointer => emit (tlsNewConnection sharedPointer)
    | None => crash OutOfRange
    end
  else ret tt.

(** A call into the TLS library with the session of socket [s]: the
    session object must not have been released. *)
Definition with_tlsPeer {A} (s : sockid) (c : M A) : M A :=
  do sock <- getSocket s;
  match sock_tlsPeer sock with
  | SSL_live => c
  | SSL_freed => crash UseAfterFree
  end.

(** [TLSSocket::write], TLSSocket.cpp 520-527; [SSL_write_result] is what
    [SSL_write] returns when it is given a valid session. *)
Definition TLSSocket_write (s : sockid) (bytes : list Byte.byte)
    (SSL_write_result : Z) : M Z :=
  with_tlsPeer s (ret SSL_write_result).

(** [TLSSocket::close], TLSSocket.cpp 534-569. *)
Definition TLSSocket_close (s : sockid) : M unit :=
  do sock <- getSocket s;
  do disconnectedNow <-
    (if sock_socketDescriptor sock =? -1 then ret false
     else
       when (sock_owner sock) (TLSServer_removeSocket s) ;;
       when (sock_sslAccepted sock)
            (with_tlsPeer s (emit (lib_SSL_shutdown s))) ;;
       emit (sys_close (sock_socketDescriptor sock)) ;;
       modifySocket s (set_socketDescriptor (-1)) ;;
       with_tlsPeer s (modifySocket s (set_tlsPeer SSL_freed)) ;;
       ret true);
  do sock' <- getSocket s;
  when (notNull (sock_eventHandler sock') && disconnectedNow)
       (emit (socketDisconnected s)).

(** [TLSSocket::acceptSSL], TLSSocket.cpp 667-693; [SSL_accept_result] is
    what [SSL_accept] returns.  The test of the source is
    [! SSL_accept(_tlsPeer)]. *)
Definition TLSSocket_acceptSSL (s : sockid) (SSL_accept_result : Z) : M Z :=
  with_tlsPeer s (
    emit (lib_SSL_accept s SSL_accept_result) ;;
    if SSL_accept_result =? 0 then
      modifySocket s (set_eventHandler None) ;;
      ret (-2)
    else
      modifySocket s (set_sslAccepted true) ;;
      do sock <- getSocket s;
      when (sock_owner sock) (TLSServer_sendNewConnectionEvent s) ;;
      ret 1).

(** ** The receive buffer *)

(** Modelled from the spec: [ByteArray] is declared in auxiliary.h, which is
    not among the sources; the spec (section 1) calls it "a dynamically-sized
    byte buffer type used to stage received plaintext", and TLSSocket.cpp
    uses it through [data], [size], [capacity], [reserve], [resize] and
    [shrink_to_fit] with the meaning they have for [std::vector<char>].
    [ba_storage] is the allocated block (its length is the capacity), of
    which the first [ba_size] bytes are the elements. *)
Record ByteArray := mkByteArray {
  ba_storage : list Byte.byte;
  ba_size : nat
}.

Definition ba_capacity (b : ByteArray) : nat := length (ba_storage b).

(** The elements, as a consumer that relies on [size()] sees them. *)
Definition ba_contents (b : ByteArray) : list Byte.byte :=
  take (ba_size b) (ba_storage b).

Definition ByteArray_new (n : nat) : ByteArray :=
  mkByteArray (replicate n x00) n.

Definition ba_reserve (n : nat) (b : ByteArray) : ByteArray :=
  if (ba_capacity b <? n)%nat
  then mkByteArray (ba_contents b ++ replicate (n - ba_size b) x00) (ba_size b)
  else b.

Definition ba_resize (n : nat) (b : ByteArray) : ByteArray :=
  if (n <=? ba_size b)%nat then mkByteArray (ba_storage b) n
  else
    let b' := ba_reserve n b in
    mkByteArray (ba_contents b' ++ replicate (n - ba_size b') x00
                   ++ drop n (ba_storage b')) n.

Definition ba_shrink_to_fit (b : ByteArray) : ByteArray :=
  mkByteArray (ba_contents b) (ba_size b).

(** [bytes.data()[i] = c] *)
Definition ba_poke (i : nat) (c : Byte.byte) (b : ByteArray) : ByteArray :=
  mkByteArray (<[i := c]> (ba_storage b)) (ba_size b).

(** The library stores [data] at [bytes.data() + offset]. *)
Definition ba_store (offset : nat) (data : list Byte.byte) (b : ByteArray)
  : ByteArray :=
  mkByteArray (take offset (ba_storage b) ++ data
                 ++ drop (offset + length data) (ba_storage b)) (ba_size b).

(** TLSSocket.cpp 491 *)
Definition INITIAL_BUFFER_SIZE : nat := 256.

(** [TLSSocket::addNullTermination], TLSSocket.cpp 705-717. *)
Definition TLSSocket_addNullTermination (bytes : ByteArray) (bytesRead : nat)
  : ByteArray :=
  if (ba_size bytes + 1 <=? ba_capacity bytes)%nat
  then ba_poke bytesRead x00 bytes
  else bytes.

(** ** Reading *)

(** What the TLS library answers to one [SSL_read] followed by
    [SSL_pending]: either plaintext (of which the call copies at most the
    requested number of bytes) together with the number of bytes the
    library then still holds, or a failure, for which [SSL_read] returns
    [- e] (0 is the orderly close by the peer). *)
Inductive SSL_reply :=
| SSL_plaintext (data : list Byte.byte) (pending : nat)
| SSL_failure (e : N).

Definition SSL_read (num : nat) (reply : SSL_reply) : Z * list Byte.byte :=
  match reply with
  | SSL_plaintext data _ => (Z.of_nat (length (take num data)), take num data)
  | SSL_failure e => (- Z.of_N e, [])
  end.

Definition SSL_pending (reply : SSL_reply) : nat :=
  match reply with
  | SSL_plaintext _ pending => pending
  | SSL_failure _ => 0%nat
  end.

(** TLSSocket.cpp 595-611: the branch [result <= 0] of the read loop. *)
Definition socketReadyRead_failed (s : sockid) (bytes : ByteArray)
    (bytesRead : nat) (result : Z) : M Z :=
  do sock <- getSocket s;
  when (negb (bytesRead =? 0)%nat && notNull (sock_eventHandler sock))
       (let bytes := ba_resize bytesRead (ba_reserve (bytesRead + 1) bytes) in
        let bytes := TLSSocket_addNullTermination bytes bytesRead in
        emit (socketBytesReceived s (ba_contents bytes))) ;;
  ret result.

(** TLSSocket.cpp 626-645: the buffer when nothing more is pending. *)
Definition socketReadyRead_fit (bytes : ByteArray) (bytesRead : nat) : ByteArray :=
  let bytes := ba_resize bytesRead (ba_reserve (bytesRead + 1) bytes) in
  if (200 <? ba_capacity bytes - ba_size bytes)%nat
  then ba_resize bytesRead (ba_shrink_to_fit (ba_resize (bytesRead + 1) bytes))
  else bytes.

(** TLSSocket.cpp 589-664: the do-while loop and what follows it.  Every
    iteration consumes one reply of the library; when the replies are used
    up the peer has closed and [SSL_read] returns 0. *)
Fixpoint socketReadyRead_loop (s : sockid) (replies : list SSL_reply)
    (bytes : ByteArray) (bytesRead : nat) : M Z :=
  match replies with
  | [] => socketReadyRead_failed s bytes bytesRead 0
  | reply :: replies' =>
    let '(result, data) := SSL_read (ba_size bytes - bytesRead) reply in
    if result <=? 0 then socketReadyRead_failed s bytes bytesRead result
    else
      let bytes := ba_store bytesRead data bytes in
      let pendingBytes := SSL_pending reply in
      let bytesRead := (bytesRead + Z.to_nat result)%nat in
      if (0 <? pendingBytes)%nat then
        socketReadyRead_loop s replies'
          (ba_resize (bytesRead + pendingBytes)
             (ba_reserve (bytesRead + pendingBytes + 1) bytes))
          bytesRead
      else
        let bytes := socketReadyRead_fit bytes bytesRead in
        let bytes := TLSSocket_addNullTermination bytes bytesRead in
        do sock <- getSocket s;
        when (notNull (sock_eventHandler sock))
             (emit (socketBytesReceived s (ba_contents bytes))) ;;
        ret result
  end.

(** [TLSSocket::socketReadyRead], TLSSocket.cpp 571-665. *)
Definition TLSSocket_socketReadyRead (s : sockid) (SSL_accept_result : Z)
    (replies : list SSL_reply) : M Z :=
  do sock <- getSocket s;
  if negb (sock_sslAccepted sock) then TLSSocket_acceptSSL s SSL_accept_result
  else with_tlsPeer s
         (socketReadyRead_loop s replies (ByteArray_new INITIAL_BUFFER_SIZE) 0).

(** ** The server facade *)

(** Constructor, TLSServer.cpp 41-45 with the member initialisers of
    TLSServer.h 138-149.  [_activeDescriptors] has no initialiser: its
    content is whatever the memory held. *)
Definition TLSServer_new (eventHandler : option handler) (garbage : gset Z)
  : TLSServer :=
  mkTLSServer eventHandler (-1) 0 false true garbage ∅.

Definition initial (eventHandler : option handler) (garbage : gset Z) : World :=
  mkWorld (TLSServer_new eventHandler garbage) ∅ TaskIdle [].

(** Modelled from the spec: [Task::startTask] is declared in IDFixTask.h,
    which is not among the sources; by section 6 of the spec it starts "a
    named background thread running a given loop body". *)
Definition Task_startTask : M unit := setTask TaskStarted.

(** [TLSServer::listen], TLSServer.cpp 62-114; the three results are those
    of [socket], [bind] and [::listen]. *)
Definition TLSServer_listen (port : Z) (socket_result bind_result listen_result : Z)
  : M bool :=
  do srv <- getServer;
  if negb (srv_serverIsShutdown srv) then ret false
  else
    modifyServer (set_serverSocket socket_result) ;;
    if socket_result <? 0 then ret false
    else
      modifyServer (set_serverPort port) ;;
      if negb (bind_result =? 0) then
        emit (sys_close socket_result) ;;
        modifyServer (set_serverSocket (-1)) ;;
        ret false
      else if negb (listen_result =? 0) then
        emit (sys_close socket_result) ;;
        modifyServer (set_serverSocket (-1)) ;;
        ret false
      else
        modifyServer (set_serverIsRunning true) ;;
        modifyServer (set_serverIsShutdown false) ;;
        Task_startTask ;;
        ret true.

(** [TLSServer::shutdown], TLSServer.cpp 116-129. *)
Definition TLSServer_shutdown : M unit :=
  do srv <- getServer;
  when (srv_serverIsRunning srv && negb (srv_serverIsShutdown srv))
       (modifyServer (set_serverIsRunning false) ;;
        emit (sys_close (srv_serverSocket srv))).

(** ** The multiplexer loop

    [TLSServer::run] blocks in [select] and is interleaved with the calls of
    other threads, so it is embedded by the pieces that it executes between
    two points where it takes the server lock.  The local bound
    [maxDescriptor] only limits the range of the scan and is not part of
    the store. *)

(** TLSServer.cpp 169-177: the set-up, and the first test of the loop
    condition (a false condition leads to the end of [run], line 323). *)
Definition run_enter : M unit :=
  do srv <- getServer;
  FD_ZERO ;;
  FD_SET (srv_serverSocket srv) ;;
  setTask (if srv_serverIsRunning srv then TaskLooping else TaskReturned).

(** TLSServer.cpp 185-216: [select] has returned [select_result]. *)
Definition run_select (select_result : Z) : M unit :=
  do srv <- getServer;
  if select_result <? 0 then
    when (srv_serverIsRunning srv)
         (modifyServer (set_serverIsRunning false) ;;
          emit (sys_close (srv_serverSocket srv))) ;;
    setTask TaskReturned
  else
    when (negb (srv_serverIsRunning srv)) (setTask TaskReturned).

(** TLSServer.cpp 219-272: the listening socket is readable; [accept]
    returned [newClientSocket] and [SSL_new] succeeded or not.
    [std::map::insert] leaves an existing entry alone, and then the new
    socket object loses its last reference at the end of the block, where
    its destructor (TLSSocket.cpp 505-509) closes it. *)
Definition run_accept (newClientSocket : Z) (SSL_new_ok : bool) : M unit :=
  if newClientSocket <? 0 then ret tt
  else if negb SSL_new_ok then emit (sys_close newClientSocket)
  else
    do newTLSSocket <- newSocket (TLSSocket_new newClientSocket);
    do srv <- getServer;
    match srv_socketMap srv !! newClientSocket with
    | None =>
        modifyServer (fun v => set_socketMap
                        (<[newClientSocket := newTLSSocket]> (srv_socketMap v)) v) ;;
        FD_SET newClientSocket
    | Some _ =>
        FD_SET newClientSocket ;;
        TLSSocket_close newTLSSocket
    end.

(** TLSServer.cpp 277-314: the body of the scan for [currentDescriptor],
    which [select] reported readable. *)
Definition run_dispatch (currentDescriptor : Z) (SSL_accept_result : Z)
    (replies : list SSL_reply) : M unit :=
  do srv <- getServer;
  if negb (bool_decide (currentDescriptor ∈ srv_activeDescriptors srv)) then ret tt
  else
    match srv_socketMap srv !! currentDescriptor with
    | None => crash OutOfRange
    | Some currentSocket =>
        do result <- TLSSocket_socketReadyRead currentSocket SSL_accept_result replies;
        when (result <=? 0) (TLSSocket_close currentSocket)
    end.

(** TLSServer.cpp 319-323: the loop condition at the end of an iteration. *)
Definition run_continue : M unit :=
  do srv <- getServer;
  when (negb (srv_serverIsRunning srv)) (setTask TaskReturned).

(** The body of the loop of [TLSServer::stopTask], TLSServer.cpp 337-351. *)
Definition stopTask_socket (tlsSocket : sockid) : M unit :=
  do sock <- getSocket tlsSocket;
  FD_CLR (sock_socketDescriptor sock) ;;
  TLSSocket_releaseOwner tlsSocket ;;
  TLSSocket_close tlsSocket.

Fixpoint forEach {A} (l : list A) (body : A -> M unit) : M unit :=
  match l with
  | [] => ret tt
  | x :: l' => body x ;; forEach l' body
  end.

(** The entries of a [std::map<int, _>] in the order of its iterator. *)
Definition key_le (x y : Z * sockid) : Prop := x.1 ≤ y.1.
#[global] Instance key_le_dec : RelDecision key_le.
Proof. intros x y. unfold key_le. apply _. Defined.

Definition map_entries (m : gmap Z sockid) : list (Z * sockid) :=
  merge_sort key_le (map_to_list m).

(** [TLSServer::stopTask], TLSServer.cpp 326-360.  [Task::stopTask] of the
    base class ends the thread. *)
Definition TLSServer_stopTask : M unit :=
  do srv <- getServer;
  forEach (map_entries (srv_socketMap srv)) (fun x => stopTask_socket x.2) ;;
  modifyServer (set_socketMap ∅) ;;
  setTask TaskStopped.

(** ** Executions

    An execution interleaves the calls that the application makes on the
    server and on the sockets it was given with the steps of the loop
    thread.  Every call runs to its end before the next one starts; so
    does the body of the scan for one descriptor, although [run] releases
    the lock of the server between its test of the interest set, the
    lookup in the map and [socketReadyRead], and calls of other threads
    in between are not among the executions. *)

Inductive Action :=
| call_listen (port socket_result bind_result listen_result : Z)
| call_shutdown
| call_close (s : sockid)
| call_write (s : sockid) (bytes : list Byte.byte) (SSL_write_result : Z)
| call_setEventHandler (s : sockid) (eventHandler : option handler)
| loop_enter
| loop_select (select_result : Z)
| loop_accept (newClientSocket : Z) (SSL_new_ok : bool)
| loop_dispatch (currentDescriptor : Z) (SSL_accept_result : Z)
                (replies : list SSL_reply)
| loop_continue
| loop_stopTask.

Definition perform (a : Action) : M unit :=
  match a with
  | call_listen port r1 r2 r3 => TLSServer_listen port r1 r2 r3 ;; ret tt
  | call_shutdown => TLSServer_shutdown
  | call_close s => TLSSocket_close s
  | call_write s bytes r => TLSSocket_write s bytes r ;; ret tt
  | call_setEventHandler s h => TLSSocket_setEventHandler s h
  | loop_enter => run_enter
  | loop_select r => run_select r
  | loop_accept fd ok => run_accept fd ok
  | loop_dispatch d r replies => run_dispatch d r replies
  | loop_continue => run_continue
  | loop_stopTask => TLSServer_stopTask
  end.

(** The application can call only the sockets it has been handed by
    [tlsNewConnection]. *)
Definition announced (s : sockid) (w : World) : bool :=
  bool_decide (tlsNewConnection s ∈ events w).

(** A descriptor returned by [accept] is not one of the open connections. *)
Definition unused_descriptor (fd : Z) (w : World) : bool :=
  bool_decide (map_Forall (fun _ sock => sock_socketDescriptor sock ≠ fd) (sockets w)).

(** The executions dispatch a descriptor only while it is open: it is not
    negative, and the socket registered for it has not been closed.  This
    restricts the executions, [run] makes no such test: it scans the set
    that [select] filled before the scan, so a dispatch of a descriptor
    whose socket has been closed in the meantime (it stays registered
    when it is closed after [shutdown]) is not among them. *)
Definition open_descriptor (d : Z) (w : World) : bool :=
  (0 <=? d) &&
  match srv_socketMap (server w) !! d with
  | Some s => match sockets w !! s with
              | Some sock => sock_socketDescriptor sock =? d
              | None => true
              end
  | None => true
  end.

Definition enabled (a : Action) (w : World) : bool :=
  match a with
  | call_listen _ _ _ _ | call_shutdown => true
  | call_close s | call_write s _ _ | call_setEventHandler s _ => announced s w
  | loop_enter => bool_decide (task w = TaskStarted)
  | loop_select _ | loop_continue => bool_decide (task w = TaskLooping)
  | loop_accept fd _ => bool_decide (task w = TaskLooping) && unused_descriptor fd w
  | loop_dispatch d _ _ =>
      bool_decide (task w = TaskLooping)
      && negb (d =? srv_serverSocket (server w)) && open_descriptor d w
  | loop_stopTask => bool_decide (task w = TaskReturned)
  end.

Definition step (a : Action) (w : World) : option World :=
  if enabled a w then
    match perform a w with
    | Done _ w' => Some w'
    | Crash _ => None
    end
  else None.

Fixpoint steps (l : list Action) (w : World) : option World :=
  match l with
  | [] => Some w
  | a :: l' => match step a w with
               | Some w' => steps l' w'
               | None => None
               end
  end.

Inductive reachable : World -> Prop :=
| reachable_initial eventHandler garbage :
    reachable (initial eventHandler garbage)
| reachable_step w a w' :
    reachable w -> step a w = Some w' -> reachable w'.

(** ** Properties of stores and of executions *)

(** The socket at address [s] has been closed: its descriptor is the
    sentinel. *)
Definition closed (s : sockid) (w : World) : Prop :=
  exists sock, sockets w !! s = Some sock /\ sock_socketDescriptor sock = -1.

(** The socket at address [s] has completed its handshake
    ([_sslAccepted]). *)
Definition established (s : sockid) (w : World) : Prop :=
  exists sock, sockets w !! s = Some sock /\ sock_sslAccepted sock = true.

Definition is_tlsNewConnection (e : Event) : bool :=
  match e with tlsNewConnection _ => true | _ => false end.

(** The server has been started by [listen] and has then been told to
    stop: [_serverIsRunning] and [_serverIsShutdown] are both false. *)
Definition stopping (w : World) : Prop :=
  srv_serverIsShutdown (server w) = false /\
  srv_serverIsRunning (server w) = false.

(** A server that was never started is not running. *)
Definition flags_consistent (w : World) : Prop :=
  srv_serverIsShutdown (server w) = true ->
  srv_serverIsRunning (server w) = false.

(** What no call ever undoes: the server does not return to its initial
    flags, a closed socket stays closed, an established one stays
    established, the log only grows, and a stopping server announces no
    connection. *)
Definition evolves (w w' : World) : Prop :=
  (srv_serverIsShutdown (server w) = false ->
   srv_serverIsShutdown (server w') = false) /\
  (flags_consistent w -> flags_consistent w') /\
  (stopping w -> stopping w') /\
  (forall s sock, sockets w !! s = Some sock ->
     exists sock', sockets w' !! s = Some sock' /\
       (sock_socketDescriptor sock = -1 -> sock_socketDescriptor sock' = -1) /\
       (sock_sslAccepted sock = true -> sock_sslAccepted sock' = true)) /\
  (exists es, events w' = events w ++ es /\
     (stopping w -> forallb (fun e => negb (is_tlsNewConnection e)) es = true)).

(** A computation all of whose results are related to the store it
    started from. *)
Definition keeps {A} (R : World -> World -> Prop) (c : M A) : Prop :=
  forall w a w', c w = Done a w' -> R w w'.

(** ** Sample executions *)

(** A server constructed with an event handler, and the store that a
    sequence of calls leads to from there. *)
Definition fresh_server : World := initial (Some 1%nat) ∅.

Definition after (l : list Action) : World :=
  default fresh_server (steps l fresh_server).

(** [listen] succeeds on descriptor 3, the loop starts, a client connects
    on descriptor 5. *)
Definition connect_client : list Action :=
  [call_listen 8443 3 0 0; loop_enter; loop_select 1; loop_accept 5 true].

(** The client's first bytes arrive and the handshake succeeds; the
    application attaches its handler to the socket it is given. *)
Definition establish_client : list Action :=
  connect_client ++
  [loop_dispatch 5 1 []; call_setEventHandler 0%nat (Some 7%nat)].

(** ** Properties of the receive buffer and of the replies *)

(** The elements lie inside the allocated block. *)
Definition ba_wf (b : ByteArray) : Prop := (ba_size b <= ba_capacity b)%nat.

(** The store [w] with [es] added to the log. *)
Definition logged (es : list Event) (w : World) : World :=
  mkWorld (server w) (sockets w) (task w) (events w ++ es).

(** Replies by which the library hands over plaintext it has buffered:
    each holds at least one byte and at most the [num] bytes that the call
    asks for, and reports that more is pending, which is what the next call
    asks for. *)
Fixpoint partial_reads (num : nat) (pre : list (list Byte.byte * nat)) : Prop :=
  match pre with
  | [] => True
  | (data, pending) :: pre' =>
      (0 < length data <= num)%nat /\ (0 < pending)%nat /\
      partial_reads pending pre'
  end.

Definition request_after (num : nat) (pre : list (list Byte.byte * nat)) : nat :=
  default num (last (map snd pre)).

Definition replies_of (pre : list (list Byte.byte * nat)) : list SSL_reply :=
  map (fun x => SSL_plaintext x.1 x.2) pre.

Definition received (pre : list (list Byte.byte * nat)) : list Byte.byte :=
  concat (map fst pre).

(** ** Notifications and handshakes in the log *)

(** [e] is a notification of an event sink about the socket [s]. *)
Definition about (s : sockid) (e : Event) : Prop :=
  e = tlsNewConnection s \/ (exists bytes, e = socketBytesReceived s bytes) \/
  e = socketDisconnected s.

(** Every [tlsNewConnection] in the log comes directly after a handshake of
    the same socket for which [SSL_accept] did not return 0. *)
Definition handshake_first (log : list Event) : Prop :=
  forall pre s post,
    log = pre ++ tlsNewConnection s :: post ->
    exists pre' r, pre = pre' ++ [lib_SSL_accept s r] /\ r <> 0.

(** A socket that has not completed its handshake has no event handler. *)
Definition pending_unhandled (w : World) : Prop :=
  forall s sock, sockets w !! s = Some sock ->
    sock_sslAccepted sock = false -> sock_eventHandler sock = None.

(** Notifications are about established sockets only. *)
Definition notified_established (w : World) : Prop :=
  forall s e, e ∈ events w -> about s e -> established s w.

(** A socket whose handshake failed is not established, and it is closed,
    except possibly the socket [x] that the loop is about to close. *)
Definition failed_closed (x : option sockid) (w : World) : Prop :=
  forall s, lib_SSL_accept s 0 ∈ events w ->
    exists sock, sockets w !! s = Some sock /\
                 sock_sslAccepted sock = false /\
                 (x <> Some s -> sock_socketDescriptor sock = -1).

Definition connection_invariant_but (x : option sockid) (w : World) : Prop :=
  pending_unhandled w /\ notified_established w /\ failed_closed x w /\
  handshake_first (events w).

Definition connection_invariant : World -> Prop :=
  connection_invariant_but None.

(** What a call logs when it neither performs a handshake nor announces a
    connection: library and system calls, and notifications to the handler
    of a socket that has one. *)
Definition calm_event (w : World) (e : Event) : Prop :=
  match e with
  | lib_SSL_shutdown _ | sys_close _ => True
  | socketBytesReceived s _ | socketDisconnected s =>
      exists sock, sockets w !! s = Some sock /\ sock_eventHandler sock <> None
  | tlsNewConnection _ | lib_SSL_accept _ _ => False
  end.

(** A call that leaves the handshake state and the handler of every socket
    alone, creates sockets only pending and without handler, and logs only
    [calm_event]s. *)
Definition calm (w w' : World) : Prop :=
  (forall s sock, sockets w !! s = Some sock ->
     exists sock', sockets w' !! s = Some sock' /\
       sock_sslAccepted sock' = sock_sslAccepted sock /\
       sock_eventHandler sock' = sock_eventHandler sock /\
       (sock_socketDescriptor sock = -1 -> sock_socketDescriptor sock' = -1)) /\
  (forall s sock', sockets w' !! s = Some sock' -> sockets w !! s = None ->
     sock_sslAccepted sock' = false /\ sock_eventHandler sock' = None) /\
  (exists es, events w' = events w ++ es /\ Forall (calm_event w') es).

(** The client of [establish_client] is closed by the application. *)
Definition close_client : list Action :=
  establish_client ++ [call_close 0%nat].

(** [shutdown] is called, the application closes the client's socket, and
    then the loop thread wakes up, leaves [run] and executes [stopTask]. *)
Definition shutdown_close_drain : list Action :=
  establish_client ++
  [call_shutdown; call_close 0%nat; loop_select (-1); loop_stopTask].

(** The descriptors other than the listening one are in the interest set
    exactly when the map has an entry for them. *)
Definition registry_consistent (w : World) : Prop :=
  forall d, d <> srv_serverSocket (server w) ->
    (d ∈ srv_activeDescriptors (server w) <->
     is_Some (srv_socketMap (server w) !! d)).

(** The bookkeeping of the server before [stopTask]: a server that was
    never started has no loop thread, the map is empty until the loop has
    set up the interest set, and from then on the two agree. *)
Definition registry_invariant (w : World) : Prop :=
  (srv_serverIsShutdown (server w) = true -> task w = TaskIdle) /\
  (task w = TaskIdle \/ task w = TaskStarted -> srv_socketMap (server w) = ∅) /\
  (task w = TaskLooping \/ task w = TaskReturned -> registry_consistent w).

(** A call that at most removes descriptors, and then from the interest
    set and from the map alike. *)
Definition deregisters (w w' : World) : Prop :=
  task w' = task w /\
  srv_serverSocket (server w') = srv_serverSocket (server w) /\
  srv_serverIsShutdown (server w') = srv_serverIsShutdown (server w) /\
  exists keep : Z -> Prop,
    forall d,
      (d ∈ srv_activeDescriptors (server w') <->
       d ∈ srv_activeDescriptors (server w) /\ keep d) /\
      (is_Some (srv_socketMap (server w') !! d) <->
       is_Some (srv_socketMap (server w) !! d) /\ keep d).

(** ** Properties of the drain and of one dispatch *)

(** The socket [s] is closed and its owner pointer is reset. *)
Definition released_closed (s : sockid) (w : World) : Prop :=
  exists sock, sockets w !! s = Some sock /\
    sock_socketDescriptor sock = -1 /\ sock_owner sock = false.

(** A call after which every closed socket is still closed and every
    released socket is still released. *)
Definition keeps_released (w w' : World) : Prop :=
  forall s sock, sockets w !! s = Some sock ->
    exists sock', sockets w' !! s = Some sock' /\
      (sock_socketDescriptor sock = -1 -> sock_socketDescriptor sock' = -1) /\
      (sock_owner sock = false -> sock_owner sock' = false).

(** The number of [socketDisconnected] notifications about [s] in a log. *)
Definition is_disconnect (s : sockid) (e : Event) : bool :=
  match e with
  | socketDisconnected s' => Nat.eqb s s'
  | _ => false
  end.

Definition disconnects (s : sockid) (log : list Event) : nat :=
  length (List.filter (is_disconnect s) log).

(** Closing [s] now would notify its handler: the socket is open and has
    a handler. *)
Definition will_notify (s : sockid) (w : World) : bool :=
  match sockets w !! s with
  | Some sock => negb (sock_socketDescriptor sock =? -1)
                 && notNull (sock_eventHandler sock)
  | None => false
  end.

(** The number of handshakes of the socket [s] in a log. *)
Definition is_handshake (s : sockid) (e : Event) : bool :=
  match e with
  | lib_SSL_accept s' _ => Nat.eqb s s'
  | _ => false
  end.

Definition handshakes (s : sockid) (log : list Event) : nat :=
  length (List.filter (is_handshake s) log).

(** * The DNS responder

    [SimpleDNSResponder] (SimpleDNSResponder.h, SimpleDNSResponder.cpp)
    answers every A query with one address.  The message is a byte buffer
    that [processMessage] parses and rewrites in place; it is embedded as a
    list of bytes (numbers below 256) with the accesses the code makes.  An
    access outside the buffer has no defined result ([None]).

    The bit-fields of [DNSMessageHeader] are declared in the order in which
    a little-endian target lays them out from the least significant bit,
    which is the only layout for which the struct matches the message
    format; on such a target a 16 bit field holds its two bytes with the
    first byte least significant, and [htons] and [ntohs] swap the two
    bytes. *)
Module DNS.

(** SimpleDNSResponder.h 67 *)
Definition DNS_MAX_MESSAGE_SIZE : Z := 512.

(** [sizeof(DNSMessageHeader)] and [sizeof(DNSResourceRecordTypeA)], both
    packed (SimpleDNSResponder.h 77-102). *)
Definition sizeof_DNSMessageHeader : Z := 12.
Definition sizeof_DNSResourceRecordTypeA : Z := 16.

(** SimpleDNSResponder.h 104-137 *)
Definition DNS_OPCODE_QUERY : Z := 0.
Definition DNS_QUERY : Z := 0.
Definition DNS_RESPONSE : Z := 1.
Definition DNS_CLASS_IN : Z := 1.
Definition DNS_CLASS_ANY : Z := 255.
Definition DNS_TYPE_A : Z := 1.
Definition DNS_TYPE_ALL : Z := 255.
Definition DNS_RESPONSE_FORMAT_ERROR : Z := 1.
Definition DNS_RESPONSE_NAME_ERROR : Z := 3.

Definition htons (x : Z) : Z := (x mod 256) * 256 + (x / 256) mod 256.
Definition ntohs (x : Z) : Z := htons x.

(** Memory accesses at a byte offset from [buffer]; a store of a value
    wider than a byte writes its bytes from the least significant one. *)
Definition load8 (buffer : list Z) (off : Z) : option Z :=
  if 0 <=? off then buffer !! Z.to_nat off else None.

Definition store8 (buffer : list Z) (off : Z) (v : Z) : option (list Z) :=
  if (0 <=? off) && (off <? Z.of_nat (length buffer))
  then Some (<[Z.to_nat off := v mod 256]> buffer)
  else None.

Definition load16 (buffer : list Z) (off : Z) : option Z :=
  b0 ← load8 buffer off;
  b1 ← load8 buffer (off + 1);
  Some (b0 + 256 * b1).

Definition store16 (buffer : list Z) (off : Z) (v : Z) : option (list Z) :=
  buffer ← store8 buffer off v;
  store8 buffer (off + 1) (v / 256).

Definition store32 (buffer : list Z) (off : Z) (v : Z) : option (list Z) :=
  buffer ← store16 buffer off v;
  store16 buffer (off + 2) (v / 65536).

(** The bit-fields in the third and fourth byte of the header
    (SimpleDNSResponder.h 80-87): [OPCode] is bits 3 to 6 and [QR] bit 7
    of the third byte, [RCode] is bits 0 to 3 and [RA] bit 7 of the
    fourth.  An assignment to a bit-field keeps the low bits of the
    value. *)
Definition get_OPCode (b2 : Z) : Z := (b2 / 8) mod 16.
Definition get_QR (b2 : Z) : Z := (b2 / 128) mod 2.
Definition set_QR (v b2 : Z) : Z := b2 mod 128 + 128 * (v mod 2).
Definition set_RCode (v b3 : Z) : Z := (b3 / 16) * 16 + v mod 16.
Definition set_RA (v b3 : Z) : Z := b3 mod 128 + 128 * (v mod 2).

(** Offsets of the header fields. *)
Definition off_flags2 : Z := 2.
Definition off_flags3 : Z := 3.
Definition off_QDCount : Z := 4.
Definition off_ANCount : Z := 6.
Definition off_NSCount : Z := 8.
Definition off_ARCount : Z := 10.

(** [SimpleDNSResponder::processError], SimpleDNSResponder.cpp (in
    src/TLSSocket.h) 434-456; the header is at the start of [buffer]. *)
Definition processError (buffer : list Z) (responseCode : Z) (messageSize : Z)
  : option (Z * list Z) :=
  b2 ← load8 buffer off_flags2;
  buffer ← store8 buffer off_flags2 (set_QR DNS_RESPONSE b2);
  b3 ← load8 buffer off_flags3;
  buffer ← store8 buffer off_flags3 (set_RCode responseCode b3);
  b3 ← load8 buffer off_flags3;
  buffer ← store8 buffer off_flags3 (set_RA 1 b3);
  buffer ← store16 buffer off_QDCount
             (if sizeof_DNSMessageHeader <? messageSize then htons 1 else 0);
  buffer ← store16 buffer off_ANCount 0;
  buffer ← store16 buffer off_NSCount 0;
  buffer ← store16 buffer off_ARCount 0;
  Some (messageSize, buffer).

(** The do-while loop over the labels of QNAME, lines 330-362. *)
Inductive NameResult :=
| NameEnd (currentBufferPointer : Z)   (* the loop ended behind the name *)
| NameFormatError                      (* a [return processError] in the loop *)
| NameFault                            (* a read outside the buffer *)
| NameFuel.

Fixpoint skipName (fuel : nat) (buffer : list Z)
    (currentBufferPointer messageEnd : Z) : NameResult :=
  match fuel with
  | O => NameFuel
  | S fuel' =>
    if messageEnd <=? currentBufferPointer then NameFormatError
    else
      match load8 buffer currentBufferPointer with
      | None => NameFault
      | Some labelLength =>
        if 63 <? labelLength then NameFormatError
        else
          let currentBufferPointer := currentBufferPointer + labelLength + 1 in
          if labelLength =? 0 then NameEnd currentBufferPointer
          else skipName fuel' buffer currentBufferPointer messageEnd
      end
  end.

(** Lines 416-431: the answer record and the header of the answer.  [RA]
    is one bit wide and is assigned [htons(1)]. *)
Definition writeAnswer (addr : Z) (buffer : list Z) (currentBufferPointer : Z)
  : option (list Z) :=
  buffer ← store16 buffer currentBufferPointer
             (htons (Z.lor 0xC000 sizeof_DNSMessageHeader));
  buffer ← store16 buffer (currentBufferPointer + 2) (htons DNS_TYPE_A);
  buffer ← store16 buffer (currentBufferPointer + 4) (htons DNS_CLASS_IN);
  buffer ← store32 buffer (currentBufferPointer + 6) 0;
  buffer ← store16 buffer (currentBufferPointer + 10) (htons 4);
  buffer ← store32 buffer (currentBufferPointer + 12) addr;
  buffer ← store16 buffer off_ANCount (htons 1);
  b3 ← load8 buffer off_flags3;
  buffer ← store8 buffer off_flags3 (set_RA (htons 1) b3);
  b2 ← load8 buffer off_flags2;
  store8 buffer off_flags2 (set_QR DNS_RESPONSE b2).

(** [SimpleDNSResponder::processMessage], lines 284-432; [addr] is
    [_ipAddress.addr] and [messageSize] a [uint16_t]. *)
Definition processMessage (addr : Z) (buffer : list Z) (messageSize : Z)
  : option (Z * list Z) :=
  if messageSize <? sizeof_DNSMessageHeader then Some (0, buffer)
  else
    b2 ← load8 buffer off_flags2;
    if negb (get_QR b2 =? DNS_QUERY) then Some (0, buffer)
    else if negb (get_OPCode b2 =? DNS_OPCODE_QUERY) then
      processError buffer DNS_RESPONSE_FORMAT_ERROR sizeof_DNSMessageHeader
    else
      ANCount ← load16 buffer off_ANCount;
      if negb (ntohs ANCount =? 0) then
        processError buffer DNS_RESPONSE_FORMAT_ERROR sizeof_DNSMessageHeader
      else
        NSCount ← load16 buffer off_NSCount;
        if negb (ntohs NSCount =? 0) then
          processError buffer DNS_RESPONSE_FORMAT_ERROR sizeof_DNSMessageHeader
        else
          QDCount ← load16 buffer off_QDCount;
          if negb (ntohs QDCount =? 1) then
            processError buffer DNS_RESPONSE_FORMAT_ERROR sizeof_DNSMessageHeader
          else
            match skipName (Z.to_nat messageSize) buffer
                    sizeof_DNSMessageHeader messageSize with
            | NameFault | NameFuel => None
            | NameFormatError =>
                processError buffer DNS_RESPONSE_FORMAT_ERROR
                  sizeof_DNSMessageHeader
            | NameEnd currentBufferPointer =>
              if messageSize <? currentBufferPointer + 4 then
                processError buffer DNS_RESPONSE_FORMAT_ERROR
                  sizeof_DNSMessageHeader
              else
                let questionLength :=
                  currentBufferPointer - sizeof_DNSMessageHeader + 4 in
                qType ← load16 buffer currentBufferPointer;
                qClass ← load16 buffer (currentBufferPointer + 2);
                let currentBufferPointer := currentBufferPointer + 4 in
                if negb (ntohs qType =? DNS_TYPE_A)
                   && negb (ntohs qType =? DNS_TYPE_ALL) then
                  processError buffer DNS_RESPONSE_NAME_ERROR
                    (sizeof_DNSMessageHeader + questionLength)
                else if negb (ntohs qClass =? DNS_CLASS_IN)
                        && negb (ntohs qClass =? DNS_CLASS_ANY) then
                  processError buffer DNS_RESPONSE_NAME_ERROR
                    (sizeof_DNSMessageHeader + questionLength)
                else
                  ARCount ← load16 buffer off_ARCount;
                  buffer ← (if negb (ARCount =? 0)
                            then store16 buffer off_ARCount 0
                            else Some buffer);
                  let responseMessageSize :=
                    sizeof_DNSMessageHeader + questionLength
                    + sizeof_DNSResourceRecordTypeA in
                  if DNS_MAX_MESSAGE_SIZE <? responseMessageSize then
                    processError buffer DNS_RESPONSE_FORMAT_ERROR
                      (sizeof_DNSMessageHeader + questionLength)
                  else
                    buffer ← writeAnswer addr buffer currentBufferPointer;
                    Some (responseMessageSize, buffer)
            end.

(** ** The socket of the responder

    [start] and [stop], lines 198-260.  The results of [socket] and [bind]
    are arguments; the calls that create and close a descriptor and that
    start and stop the task are logged in the order in which they are
    made. *)
Definition INADDR_NONE : Z := 0xffffffff.

Inductive SysCall :=
| os_socket (result : Z)
| os_close (fd : Z)
| Task_startTask
| Task_stopTask.

(** SimpleDNSResponder.h 71-75 *)
Record Responder := mkResponder {
  dns_serverPort : Z;
  dns_serverSocket : Z;
  dns_serverIsRunning : bool;
  dns_ipAddress : Z;
  dns_calls : list SysCall
}.

Definition new_Responder : Responder := mkResponder 0 0 false 0 [].

Definition start (ipAddress port : Z) (socket_result bind_result : Z)
    (r : Responder) : Z * Responder :=
  if dns_serverIsRunning r then (-1, r)
  else
    let calls := dns_calls r ++ [os_socket socket_result] in
    if socket_result <? 0 then
      (-2, mkResponder (dns_serverPort r) socket_result false
             (dns_ipAddress r) calls)
    else if negb (bind_result =? 0) then
      (-2, mkResponder port (-1) false INADDR_NONE
             (calls ++ [os_close socket_result]))
    else
      (0, mkResponder port socket_result true ipAddress
            (calls ++ [Task_startTask])).

Definition stop (r : Responder) : Responder :=
  if dns_serverIsRunning r then
    mkResponder (dns_serverPort r) (-1) false INADDR_NONE
      (dns_calls r ++ [os_close (dns_serverSocket r); Task_stopTask])
  else r.

(** What the application does with a responder. *)
Inductive Call :=
| call_start (ipAddress port socket_result bind_result : Z)
| call_stop.

Definition call (c : Call) (r : Responder) : Responder :=
  match c with
  | call_start ipAddress port socket_result bind_result =>
      snd (start ipAddress port socket_result bind_result r)
  | call_stop => stop r
  end.

Definition run_calls (l : list Call) : Responder :=
  fold_left (fun r c => call c r) l new_Responder.

(** ** Properties *)

(** Every cell of the buffer is a byte. *)
Definition bytes (buffer : list Z) : Prop :=
  Forall (fun b => 0 <= b < 256) buffer.

(** [buffer'] has the size of [buffer] and differs from it at most at
    the offsets in [P]. *)
Definition differs_only_in (P : Z -> Prop) (buffer buffer' : list Z) : Prop :=
  length buffer' = length buffer /\
  forall i : nat, ~ P (Z.of_nat i) -> buffer' !! i = buffer !! i.

(** A 16 bit number in network byte order. *)
Definition be16 (x : Z) : list Z := [(x / 256) mod 256; x mod 256].

(** The octets of an address held in an [ip4_addr]: the first octet is
    the least significant byte of [addr]. *)
Definition octets (addr : Z) : list Z :=
  [addr mod 256; (addr / 256) mod 256; (addr / 65536) mod 256;
   (addr / 16777216) mod 256].

(** A domain name as a sequence of labels, its encoding as QNAME, and a
    question entry. *)
Definition label_ok (l : list Z) : Prop := (0 < length l <= 63)%nat.

Definition encode_name (labels : list (list Z)) : list Z :=
  concat (map (fun l => Z.of_nat (length l) :: l) labels) ++ [0].

Definition question (labels : list (list Z)) (qtype qclass : Z) : list Z :=
  encode_name labels ++ be16 qtype ++ be16 qclass.

(** The resource record of an answer: a pointer to the name at offset 12,
    type A, class IN, a time to live of 0 and four octets of data. *)
Definition answer_A (addr : Z) : list Z :=
  [0xC0; 0x0C] ++ be16 DNS_TYPE_A ++ be16 DNS_CLASS_IN ++ [0; 0; 0; 0]
  ++ be16 4 ++ octets addr.

(** The descriptors that a sequence of calls has created and not closed. *)
Fixpoint remove_one (fd : Z) (l : list Z) : list Z :=
  match l with
  | [] => []
  | x :: l' => if x =? fd then l' else x :: remove_one fd l'
  end.

Definition open_descriptors (l : list SysCall) : list Z :=
  fold_left (fun acc c =>
               match c with
               | os_socket result =>
                   if result <? 0 then acc else result :: acc
               | os_close fd => remove_one fd acc
               | _ => acc
               end) l [].

(** Whether the task is running after a sequence of calls. *)
Definition task_running (l : list SysCall) : bool :=
  fold_left (fun acc c =>
               match c with
               | Task_startTask => true
               | Task_stopTask => false
               | _ => acc
               end) l false.

(** ** Sample messages *)

(** 192.168.4.1 *)
Definition sample_address : Z := 192 + 256 * 168 + 65536 * 4 + 16777216 * 1.

Definition sample_labels : list (list Z) := [[119; 119; 119]; [100; 101]].

(** A query for the address of www.de with RD set, in the buffer of [run]. *)
Definition sample_query : list Z :=
  [0xAB; 0xCD; 1; 0; 0; 1; 0; 0; 0; 0; 0; 0]
  ++ question sample_labels DNS_TYPE_A DNS_CLASS_IN ++ replicate 488 0.

Definition sample_response : list Z :=
  [0xAB; 0xCD; 129; 0; 0; 1; 0; 1; 0; 0; 0; 0]
  ++ question sample_labels DNS_TYPE_A DNS_CLASS_IN
  ++ answer_A sample_address ++ replicate 472 0.

End DNS.

(** * Proofs *)

(** ** Unfolding computations *)

Lemma bind_Done {A B} (c : M A) (k : A -> M B) w b w' :
  bind c k w = Done b w' ->
  exists a w1, c w = Done a w1 /\ k a w1 = Done b w'.
Proof.
  unfold bind. destruct (c w) as [a w1|f]; [|discriminate].
  intros H. eauto.
Qed.

Lemma steps_app l1 l2 w :
  steps (l1 ++ l2) w = match steps l1 w with
                       | Some w' => steps l2 w'
                       | None => None
                       end.
Proof.
  revert w. induction l1 as [|a l1 IH]; intros w; simpl; [reflexivity|].
  destruct (step a w); [apply IH|reflexivity].
Qed.

Lemma steps_reachable l w w' :
  reachable w -> steps l w = Some w' -> reachable w'.
Proof.
  revert w. induction l as [|a l IH]; intros w Hw; simpl.
  - intros [= <-]. exact Hw.
  - destruct (step a w) as [w1|] eqn:E; [|discriminate].
    apply IH. eapply reachable_step; eauto.
Qed.

(** Symbolic execution of a method on an arbitrary store: unfold the
    computation and split on every test it makes. *)
Ltac unfold_M :=
  unfold run_enter, run_select, run_continue, stopTask_socket,
    TLSSocket_close, TLSSocket_acceptSSL, TLSSocket_write,
    TLSServer_listen, TLSServer_shutdown,
    TLSServer_removeSocket, TLSServer_sendNewConnectionEvent,
    TLSSocket_releaseOwner, TLSSocket_setEventHandler, Task_startTask,
    with_tlsPeer, FD_SET, FD_CLR, FD_ZERO,
    modifyServer, modifySocket, when, bind, ret, crash, getServer, setServer,
    getSocket, setSocket, setTask, emit, newSocket in *.

Ltac crunch :=
  repeat (simpl in *; simplify_map_eq;
          try match goal with
              | H : context [match ?x with _ => _ end] |- _ => destruct x eqn:?
              | |- context [match ?x with _ => _ end] => destruct x eqn:?
              end).

(** ** Closing a socket *)

Lemma close_closed s w sock :
  sockets w !! s = Some sock ->
  sock_socketDescriptor sock = -1 ->
  TLSSocket_close s w = Done tt w.
Proof.
  intros Hs Hd. unfold_M. rewrite Hs, Hd. simpl. rewrite Hs.
  rewrite andb_false_r. reflexivity.
Qed.

Lemma close_closes s w w1 :
  TLSSocket_close s w = Done tt w1 ->
  exists sock, sockets w1 !! s = Some sock /\ sock_socketDescriptor sock = -1.
Proof.
  intros H. unfold_M. crunch;
    (eexists; split; [reflexivity || eassumption|]; simpl; lia).
Qed.

(** ** What every call preserves *)

Lemma evolves_refl w : evolves w w.
Proof.
  split; [|split; [|split; [|split]]]; auto.
  - intros s sock H. exists sock. auto.
  - exists []. rewrite app_nil_r. auto.
Qed.

Lemma evolves_trans w1 w2 w3 : evolves w1 w2 -> evolves w2 w3 -> evolves w1 w3.
Proof.
  intros (A1 & I1 & B1 & C1 & es1 & D1 & E1) (A2 & I2 & B2 & C2 & es2 & D2 & E2).
  split; [|split; [|split; [|split]]].
  - auto.
  - auto.
  - auto.
  - intros s sock H. destruct (C1 _ _ H) as (sock1 & H1 & F1 & G1).
    destruct (C2 _ _ H1) as (sock2 & H2 & F2 & G2). exists sock2. auto.
  - exists (es1 ++ es2). split.
    + rewrite D2, D1, app_assoc. reflexivity.
    + intros H. rewrite forallb_app, (E1 H), (E2 (B1 H)). reflexivity.
Qed.

Lemma keeps_bind {A B} (c : M A) (k : A -> M B) :
  keeps evolves c -> (forall a, keeps evolves (k a)) -> keeps evolves (bind c k).
Proof.
  intros Hc Hk w b w' H. apply bind_Done in H as (a & w1 & H1 & H2).
  eapply evolves_trans; [eapply Hc|eapply Hk]; eauto.
Qed.

Lemma keeps_ret {A} (a : A) : keeps evolves (ret a).
Proof. intros w b w' [= <- <-]. apply evolves_refl. Qed.

Lemma keeps_when b c : keeps evolves c -> keeps evolves (when b c).
Proof. destruct b; [auto|intros _; apply keeps_ret]. Qed.

Lemma keeps_forEach {A} (l : list A) body :
  (forall x, keeps evolves (body x)) -> keeps evolves (forEach l body).
Proof.
  intros H. induction l as [|x l IH]; simpl.
  - apply keeps_ret.
  - apply keeps_bind; auto.
Qed.

Ltac bool_facts :=
  repeat match goal with
         | H : _ && _ = true |- _ => apply andb_prop in H as [? ?]
         | H : negb _ = true |- _ => apply negb_true_iff in H
         | H : negb _ = false |- _ => apply negb_false_iff in H
         end.

Ltac solve_log :=
  first
    [ exists []; split; [symmetry; apply app_nil_r | intros _; reflexivity]
    | rewrite <- ?app_assoc; eexists; split;
      [reflexivity | unfold stopping; simpl; intros [? ?]; simpl; congruence] ].

Ltac solve_sockets :=
  let s' := fresh "s'" in let k := fresh "k" in let H := fresh "H" in
  intros s' k H;
  try match goal with
      | |- context [<[?s := _]> _ !! s'] =>
          destruct (decide (s = s')) as [<-|?]; simplify_map_eq
      end;
  eexists; (split; [reflexivity || eassumption|]); simpl; split; intros; congruence || lia.

Ltac solve_evolves :=
  bool_facts;
  split; [|split; [|split; [|split]]];
  [ simpl; congruence
  | unfold flags_consistent; simpl; intros;
    repeat match goal with
           | H : ?a = true -> _, H' : ?a = true |- _ => specialize (H H')
           end; congruence
  | unfold stopping; simpl; intros [? ?]; split; congruence
  | simpl; solve_sockets
  | simpl; solve_log ].

Ltac evolves_by_cases :=
  let H := fresh "H" in
  intros ? ? ? H; unfold_M; crunch; solve_evolves.

Lemma close_evolves s : keeps evolves (TLSSocket_close s).
Proof. evolves_by_cases. Qed.

Lemma acceptSSL_evolves s r : keeps evolves (TLSSocket_acceptSSL s r).
Proof. evolves_by_cases. Qed.

Lemma write_evolves s bytes r : keeps evolves (TLSSocket_write s bytes r).
Proof. evolves_by_cases. Qed.

Lemma setEventHandler_evolves s h : keeps evolves (TLSSocket_setEventHandler s h).
Proof. evolves_by_cases. Qed.

Lemma listen_evolves p r1 r2 r3 : keeps evolves (TLSServer_listen p r1 r2 r3).
Proof. evolves_by_cases. Qed.

Lemma shutdown_evolves : keeps evolves TLSServer_shutdown.
Proof. evolves_by_cases. Qed.

Lemma run_enter_evolves : keeps evolves run_enter.
Proof. evolves_by_cases. Qed.

Lemma run_select_evolves r : keeps evolves (run_select r).
Proof. evolves_by_cases. Qed.

Lemma run_continue_evolves : keeps evolves run_continue.
Proof. evolves_by_cases. Qed.

Lemma stopTask_socket_evolves s : keeps evolves (stopTask_socket s).
Proof. evolves_by_cases. Qed.

Lemma socketReadyRead_failed_evolves s bytes n r :
  keeps evolves (socketReadyRead_failed s bytes n r).
Proof. unfold socketReadyRead_failed. evolves_by_cases. Qed.

Lemma socketReadyRead_loop_evolves s replies :
  forall bytes n, keeps evolves (socketReadyRead_loop s replies bytes n).
Proof.
  induction replies as [|reply replies IH]; intros bytes n; simpl.
  - apply socketReadyRead_failed_evolves.
  - destruct (SSL_read _ reply) as [result data].
    destruct (result <=? 0); [apply socketReadyRead_failed_evolves|].
    destruct (0 <? SSL_pending reply)%nat; [apply IH|].
    evolves_by_cases.
Qed.

Lemma socketReadyRead_evolves s r replies :
  keeps evolves (TLSSocket_socketReadyRead s r replies).
Proof.
  unfold TLSSocket_socketReadyRead.
  apply keeps_bind; [evolves_by_cases|]. intros sock.
  destruct (negb (sock_sslAccepted sock)); [apply acceptSSL_evolves|].
  unfold with_tlsPeer. apply keeps_bind; [evolves_by_cases|]. intros sock'.
  destruct (sock_tlsPeer sock'); [apply socketReadyRead_loop_evolves|].
  intros w a w' H. discriminate.
Qed.

Lemma run_dispatch_evolves d r replies : keeps evolves (run_dispatch d r replies).
Proof.
  unfold run_dispatch.
  apply keeps_bind; [evolves_by_cases|]. intros srv.
  destruct (negb _); [apply keeps_ret|].
  destruct (srv_socketMap srv !! d) as [s|]; [|intros w a w' H; discriminate].
  apply keeps_bind; [apply socketReadyRead_evolves|]. intros result.
  apply keeps_when, close_evolves.
Qed.

Lemma newSocket_evolves sock : keeps evolves (newSocket sock).
Proof.
  intros w a w' H. unfold newSocket in H. injection H as <- <-.
  split; [|split; [|split; [|split]]]; simpl; auto.
  - intros s k Hs. exists k. split; [|auto].
    rewrite lookup_insert_ne; [exact Hs|].
    intros <-. apply (is_fresh (dom (sockets w))).
    apply elem_of_dom. eauto.
  - exists []. rewrite app_nil_r. auto.
Qed.

Lemma run_accept_evolves fd ok : keeps evolves (run_accept fd ok).
Proof.
  unfold run_accept.
  destruct (fd <? 0); [apply keeps_ret|].
  destruct (negb ok); [evolves_by_cases|].
  apply keeps_bind; [apply newSocket_evolves|]. intros s.
  apply keeps_bind; [evolves_by_cases|]. intros srv.
  destruct (srv_socketMap srv !! fd).
  - apply keeps_bind; [evolves_by_cases|]. intros _. apply close_evolves.
  - evolves_by_cases.
Qed.

Lemma stopTask_evolves : keeps evolves TLSServer_stopTask.
Proof.
  unfold TLSServer_stopTask.
  apply keeps_bind; [evolves_by_cases|]. intros srv.
  apply keeps_bind; [apply keeps_forEach; intros x; apply stopTask_socket_evolves|].
  intros _. evolves_by_cases.
Qed.

Lemma perform_evolves a : keeps evolves (perform a).
Proof.
  destruct a; simpl.
  - apply keeps_bind; [apply listen_evolves|intros ?; apply keeps_ret].
  - apply shutdown_evolves.
  - apply close_evolves.
  - apply keeps_bind; [apply write_evolves|intros ?; apply keeps_ret].
  - apply setEventHandler_evolves.
  - apply run_enter_evolves.
  - apply run_select_evolves.
  - apply run_accept_evolves.
  - apply run_dispatch_evolves.
  - apply run_continue_evolves.
  - apply stopTask_evolves.
Qed.

Lemma step_evolves a w w' : step a w = Some w' -> evolves w w'.
Proof.
  unfold step. destruct (enabled a w); [|discriminate].
  destruct (perform a w) as [[] w1|] eqn:E; [|discriminate].
  intros [= <-]. eapply perform_evolves, E.
Qed.

Lemma steps_evolves l : forall w w', steps l w = Some w' -> evolves w w'.
Proof.
  induction l as [|a l IH]; intros w w'; simpl.
  - intros [= <-]. apply evolves_refl.
  - destruct (step a w) as [w1|] eqn:E; [|discriminate].
    intros H. eapply evolves_trans; [eapply step_evolves, E|apply IH, H].
Qed.

(** ** Closing twice (C7) *)

(** C7. [close] is idempotent: once a call of [close] on a socket has
    returned, every later call of [close] on it, whatever the server, the
    loop and the application did in between, returns with the store exactly
    as it found it.  So it erases nothing from the server's map, logs no
    [socketDisconnected] and leaves the socket as it was. *)
Theorem close_idempotent s w w1 l w2 :
  TLSSocket_close s w = Done tt w1 ->
  steps l w1 = Some w2 ->
  TLSSocket_close s w2 = Done tt w2.
Proof.
  intros H1 H2.
  destruct (close_closes _ _ _ H1) as (sock & Hs & Hd).
  destruct (steps_evolves _ _ _ H2) as (_ & _ & _ & Hk & _).
  destruct (Hk _ _ Hs) as (sock' & Hs' & Hd' & _).
  eapply close_closed; eauto.
Qed.

Lemma close_idempotent_witness :
  TLSSocket_close 0%nat (after (establish_client ++ [call_close 0%nat; call_shutdown]))
  = Done tt (after (establish_client ++ [call_close 0%nat; call_shutdown])).
Proof.
  apply (close_idempotent 0%nat (after establish_client)
           (after (establish_client ++ [call_close 0%nat])) [call_shutdown]).
  - vm_compute. reflexivity.
  - vm_compute. reflexivity.
Defined.

(** ** Restarting (C10) *)

(** C10. Once [listen] has returned true, [_serverIsShutdown] is false, no
    later call sets it again (not [shutdown], not the end of the loop, not
    [stopTask]), and therefore every later [listen] returns false and
    changes nothing: the server cannot be started a second time. *)
Theorem listen_never_succeeds_again
    w port r1 r2 r3 w1 l w2 port' r1' r2' r3' :
  TLSServer_listen port r1 r2 r3 w = Done true w1 ->
  steps l w1 = Some w2 ->
  srv_serverIsShutdown (server w2) = false /\
  TLSServer_listen port' r1' r2' r3' w2 = Done false w2.
Proof.
  intros H1 H2.
  assert (srv_serverIsShutdown (server w1) = false) as F1.
  { clear H2. unfold_M. crunch; reflexivity. }
  destruct (steps_evolves _ _ _ H2) as (F & _).
  specialize (F F1). split; [exact F|].
  unfold_M. rewrite F. reflexivity.
Qed.

Lemma listen_never_succeeds_again_witness :
  let w2 := after [call_listen 8443 3 0 0; loop_enter; call_shutdown;
                   loop_select (-1); loop_stopTask] in
  task w2 = TaskStopped /\
  srv_serverIsShutdown (server w2) = false /\
  TLSServer_listen 8443 4 0 0 w2 = Done false w2.
Proof.
  split; [vm_compute; reflexivity|].
  apply (listen_never_succeeds_again fresh_server 8443 3 0 0
           (after [call_listen 8443 3 0 0])
           [loop_enter; call_shutdown; loop_select (-1); loop_stopTask]).
  - vm_compute. reflexivity.
  - vm_compute. reflexivity.
Defined.

(** ** Events after shutdown (C6) *)

Lemma shutdown_stops w w1 :
  srv_serverIsShutdown (server w) = false ->
  TLSServer_shutdown w = Done tt w1 ->
  stopping w1.
Proof.
  intros F H. unfold stopping. unfold_M. rewrite F in H.
  destruct (srv_serverIsRunning (server w)) eqn:R; simpl in H;
    injection H as <-; simpl; auto.
Qed.

(** C6, as the code has it.  [shutdown] acts only on a server that [listen]
    has started ([_serverIsShutdown] false).  On such a server, whatever
    happens after the call of [shutdown], including a handshake that
    completes afterwards, nothing that is logged from then on is a
    [tlsNewConnection]. *)
Theorem no_new_connection_after_shutdown w w1 l w2 :
  srv_serverIsShutdown (server w) = false ->
  TLSServer_shutdown w = Done tt w1 ->
  steps l w1 = Some w2 ->
  exists es, events w2 = events w1 ++ es /\
             forall s, tlsNewConnection s ∉ es.
Proof.
  intros F H1 H2.
  pose proof (shutdown_stops _ _ F H1) as St.
  destruct (steps_evolves _ _ _ H2) as (_ & _ & _ & _ & es & E & Q).
  exists es. split; [exact E|].
  intros s Hin. specialize (Q St).
  rewrite forallb_forall in Q.
  apply list_elem_of_In in Hin. specialize (Q _ Hin). discriminate.
Qed.

(** The handshake of the client on descriptor 5 is still to come when
    [shutdown] is called; it then succeeds, and no event follows. *)
Lemma no_new_connection_after_shutdown_witness :
  exists es,
    events (after (connect_client ++ [call_shutdown; loop_dispatch 5 1 []]))
    = events (after (connect_client ++ [call_shutdown])) ++ es /\
    forall s, tlsNewConnection s ∉ es.
Proof.
  apply (no_new_connection_after_shutdown (after connect_client)
           (after (connect_client ++ [call_shutdown])) [loop_dispatch 5 1 []]).
  - vm_compute. reflexivity.
  - vm_compute. reflexivity.
  - vm_compute. reflexivity.
Defined.

(** C6 as stated fails: [shutdown] on a server that was never started does
    nothing, and the server announces the connections it accepts after a
    later [listen]. *)
Lemma shutdown_before_listen_counterexample :
  TLSServer_shutdown fresh_server = Done tt fresh_server /\
  option_map events
    (steps (call_shutdown :: connect_client ++ [loop_dispatch 5 1 []]) fresh_server)
  = Some [lib_SSL_accept 0%nat 1; tlsNewConnection 0%nat].
Proof. split; vm_compute; reflexivity. Qed.

(** ** The guard of listen (C8) *)

Lemma reachable_flags_consistent w : reachable w -> flags_consistent w.
Proof.
  induction 1 as [h g|w a w' _ IH Hs].
  - intros _. reflexivity.
  - apply step_evolves in Hs. destruct Hs as (_ & F & _). auto.
Qed.

(** C8. On a server that is running or that has been started before
    ([_serverIsShutdown] false), [listen] returns false and changes nothing,
    so a second [listen] leaves the first listener as it is.  On a server
    that was never started, a failure of [socket], [bind] or [::listen]
    makes [listen] return false with the server still not running, not
    started and without a loop thread, and a later [listen] whose system
    calls succeed returns true. *)
Theorem listen_guard w port r1 r2 r3 :
  reachable w ->
  ((srv_serverIsRunning (server w) = true \/
    srv_serverIsShutdown (server w) = false) ->
   TLSServer_listen port r1 r2 r3 w = Done false w) /\
  (srv_serverIsShutdown (server w) = true ->
   (r1 < 0 \/ r2 <> 0 \/ r3 <> 0) ->
   exists w1,
     TLSServer_listen port r1 r2 r3 w = Done false w1 /\
     srv_serverIsRunning (server w1) = false /\
     srv_serverIsShutdown (server w1) = true /\
     task w1 = task w /\
     forall port' fd, 0 <= fd ->
       exists w2, TLSServer_listen port' fd 0 0 w1 = Done true w2 /\
                  srv_serverIsRunning (server w2) = true /\
                  srv_serverSocket (server w2) = fd /\
                  task w2 = TaskStarted).
Proof.
  intros Hr. pose proof (reachable_flags_consistent _ Hr) as Fc.
  unfold flags_consistent in Fc. split.
  - intros H.
    assert (srv_serverIsShutdown (server w) = false) as F.
    { destruct H as [H|H]; [|exact H].
      destruct (srv_serverIsShutdown (server w)); [|reflexivity].
      rewrite Fc in H by reflexivity. discriminate. }
    unfold_M. rewrite F. reflexivity.
  - intros F Hfail. specialize (Fc F).
    unfold_M. rewrite F. simpl.
    destruct (r1 <? 0) eqn:E1; simpl.
    { eexists. split; [reflexivity|]. simpl. repeat split; auto.
      intros port' fd Hfd. rewrite F. simpl.
      destruct (fd <? 0) eqn:E; [lia|]. simpl.
      eexists. split; [reflexivity|]. simpl. auto. }
    destruct (r2 =? 0) eqn:E2; simpl.
    2:{ eexists. split; [reflexivity|]. simpl. repeat split; auto.
        intros port' fd Hfd. rewrite F. simpl.
        destruct (fd <? 0) eqn:E; [lia|]. simpl.
        eexists. split; [reflexivity|]. simpl. auto. }
    destruct (r3 =? 0) eqn:E3; simpl.
    { exfalso. lia. }
    eexists. split; [reflexivity|]. simpl. repeat split; auto.
    intros port' fd Hfd. rewrite F. simpl.
    destruct (fd <? 0) eqn:E; [lia|]. simpl.
    eexists. split; [reflexivity|]. simpl. auto.
Qed.

(** A second [listen] while the first listener runs, and a failed [bind]
    on a new server followed by a successful retry. *)
Lemma listen_guard_witness :
  TLSServer_listen 8443 4 0 0 (after connect_client) = Done false (after connect_client) /\
  exists w1,
    TLSServer_listen 8443 3 (-1) 0 fresh_server = Done false w1 /\
    srv_serverIsRunning (server w1) = false /\
    exists w2, TLSServer_listen 8443 3 0 0 w1 = Done true w2.
Proof.
  split.
  - apply (listen_guard (after connect_client) 8443 4 0 0).
    + apply (steps_reachable connect_client fresh_server).
      * apply reachable_initial.
      * vm_compute. reflexivity.
    + left. vm_compute. reflexivity.
  - destruct (listen_guard fresh_server 8443 3 (-1) 0
                (reachable_initial _ _)) as [_ H].
    destruct H as (w1 & H1 & H2 & _ & _ & H3).
    + reflexivity.
    + right. left. lia.
    + exists w1. split; [exact H1|]. split; [exact H2|].
      destruct (H3 8443 3) as (w2 & H4 & _); [lia|].
      exists w2. exact H4.
Defined.

(** ** The receive buffer *)

Section buffer.
Local Open Scope nat_scope.

Lemma reserve_spec m b :
  ba_wf b ->
  ba_wf (ba_reserve m b) /\ ba_size (ba_reserve m b) = ba_size b /\
  m <= ba_capacity (ba_reserve m b) /\
  forall j, j <= ba_size b ->
    take j (ba_storage (ba_reserve m b)) = take j (ba_storage b).
Proof.
  unfold ba_wf, ba_reserve, ba_capacity, ba_contents. intros Hwf.
  destruct (length (ba_storage b) <? m) eqn:E; simpl.
  - apply Nat.ltb_lt in E.
    rewrite length_app, length_take, length_replicate.
    repeat split; try lia.
    intros j Hj. rewrite take_app_le by (rewrite length_take; lia).
    rewrite take_take. f_equal. lia.
  - apply Nat.ltb_ge in E. auto.
Qed.

Lemma resize_spec m b :
  ba_wf b ->
  ba_wf (ba_resize m b) /\ ba_size (ba_resize m b) = m /\
  ba_capacity b <= ba_capacity (ba_resize m b) /\
  forall j, j <= ba_size b ->
    take j (ba_storage (ba_resize m b)) = take j (ba_storage b).
Proof.
  intros Hwf. unfold ba_resize.
  destruct (m <=? ba_size b) eqn:E; simpl.
  - apply Nat.leb_le in E. unfold ba_wf, ba_capacity in *. simpl.
    repeat split; auto; lia.
  - apply Nat.leb_gt in E.
    destruct (reserve_spec m b Hwf) as (W & S & C & P).
    assert (ba_capacity b <= ba_capacity (ba_reserve m b)) as Hc.
    { unfold ba_reserve. destruct (ba_capacity b <? m) eqn:E'; [|lia].
      apply Nat.ltb_lt in E'. unfold ba_capacity in *. simpl.
      unfold ba_contents. rewrite length_app, length_take, length_replicate.
      unfold ba_wf, ba_capacity in Hwf. lia. }
    unfold ba_wf, ba_capacity, ba_contents in *. simpl.
    rewrite !length_app, length_take, length_replicate, length_drop, S.
    repeat split; try lia.
    intros j Hj. rewrite take_app_le by (rewrite length_take; lia).
    rewrite take_take, <- (P j Hj). f_equal. lia.
Qed.

Lemma shrink_to_fit_spec b :
  ba_wf b ->
  ba_wf (ba_shrink_to_fit b) /\ ba_size (ba_shrink_to_fit b) = ba_size b /\
  forall j, j <= ba_size b ->
    take j (ba_storage (ba_shrink_to_fit b)) = take j (ba_storage b).
Proof.
  unfold ba_wf, ba_shrink_to_fit, ba_capacity, ba_contents. simpl. intros Hwf.
  rewrite length_take. repeat split; try lia.
  intros j Hj. rewrite take_take. f_equal. lia.
Qed.

Lemma addNullTermination_spec b n :
  ba_wf b ->
  ba_wf (TLSSocket_addNullTermination b n) /\
  ba_size (TLSSocket_addNullTermination b n) = ba_size b /\
  forall j, j <= n ->
    take j (ba_storage (TLSSocket_addNullTermination b n)) = take j (ba_storage b).
Proof.
  unfold TLSSocket_addNullTermination, ba_poke, ba_wf, ba_capacity. intros Hwf.
  destruct (ba_size b + 1 <=? length (ba_storage b)); simpl; [|auto].
  rewrite length_insert. repeat split; auto.
  intros j Hj. apply take_insert_ge. exact Hj.
Qed.

Lemma store_spec n data b :
  ba_wf b -> n + length data <= ba_size b ->
  ba_wf (ba_store n data b) /\ ba_size (ba_store n data b) = ba_size b /\
  take (n + length data) (ba_storage (ba_store n data b))
  = take n (ba_storage b) ++ data.
Proof.
  unfold ba_wf, ba_store, ba_capacity. simpl. intros Hwf Hn.
  rewrite !length_app, length_take, length_drop.
  repeat split; try lia.
  rewrite app_assoc. apply take_app_length'.
  rewrite length_app, length_take. lia.
Qed.

(** The bytes handed to the sink when a read fails after [n] bytes. *)
Lemma failed_contents b n :
  ba_wf b -> n <= ba_size b ->
  ba_contents (TLSSocket_addNullTermination
                 (ba_resize n (ba_reserve (n + 1) b)) n)
  = take n (ba_storage b).
Proof.
  intros Hwf Hn.
  destruct (reserve_spec (n + 1) b Hwf) as (W1 & S1 & _ & P1).
  destruct (resize_spec n _ W1) as (W2 & S2 & _ & P2).
  destruct (addNullTermination_spec _ n W2) as (W3 & S3 & P3).
  unfold ba_contents. rewrite S3, S2, P3, P2, P1 by lia. reflexivity.
Qed.

(** The bytes handed to the sink when [n] bytes were read and nothing is
    pending. *)
Lemma fit_contents b n :
  ba_wf b -> n <= ba_size b ->
  ba_contents (TLSSocket_addNullTermination (socketReadyRead_fit b n) n)
  = take n (ba_storage b).
Proof.
  intros Hwf Hn.
  destruct (reserve_spec (n + 1) b Hwf) as (W1 & S1 & _ & P1).
  destruct (resize_spec n _ W1) as (W2 & S2 & _ & P2).
  assert (ba_wf (socketReadyRead_fit b n) /\
          ba_size (socketReadyRead_fit b n) = n /\
          take n (ba_storage (socketReadyRead_fit b n)) = take n (ba_storage b))
    as (W & S & P).
  { unfold socketReadyRead_fit.
    destruct (200 <? _).
    - destruct (resize_spec (n + 1) _ W2) as (W3 & S3 & _ & P3).
      destruct (shrink_to_fit_spec _ W3) as (W4 & S4 & P4).
      destruct (resize_spec n _ W4) as (W5 & S5 & _ & P5).
      repeat split; auto.
      rewrite P5, P4, P3, P2, P1 by lia. reflexivity.
    - repeat split; auto. rewrite P2, P1 by lia. reflexivity. }
  destruct (addNullTermination_spec _ n W) as (W' & S' & P').
  unfold ba_contents. rewrite S', S, P', P by lia. reflexivity.
Qed.

End buffer.

(** ** Reading (C3, C4) *)

Section reading.
Local Open Scope nat_scope.

Lemma loop_step_pending s data p rs b n w :
  0 < length data <= ba_size b - n -> 0 < p ->
  socketReadyRead_loop s (SSL_plaintext data p :: rs) b n w
  = socketReadyRead_loop s rs
      (ba_resize (n + length data + p)
         (ba_reserve (n + length data + p + 1) (ba_store n data b)))
      (n + length data) w.
Proof.
  intros Hd Hp. simpl.
  rewrite take_ge by lia.
  destruct (Z.of_nat (length data) <=? 0)%Z eqn:E; [lia|].
  destruct (0 <? p) eqn:E'; [|apply Nat.ltb_ge in E'; lia].
  rewrite Nat2Z.id. reflexivity.
Qed.

Lemma loop_step_final s data rs b n w :
  0 < length data <= ba_size b - n ->
  socketReadyRead_loop s (SSL_plaintext data 0 :: rs) b n w
  = (do sock <- getSocket s;
     when (notNull (sock_eventHandler sock))
          (emit (socketBytesReceived s
             (ba_contents
                (TLSSocket_addNullTermination
                   (socketReadyRead_fit (ba_store n data b) (n + length data))
                   (n + length data))))) ;;
     ret (Z.of_nat (length data))) w.
Proof.
  intros Hd. simpl.
  rewrite take_ge by lia.
  destruct (Z.of_nat (length data) <=? 0)%Z eqn:E; [lia|].
  rewrite Nat2Z.id. reflexivity.
Qed.

Lemma request_after_cons num data p pre :
  request_after num ((data, p) :: pre) = request_after p pre.
Proof.
  unfold request_after. simpl. destruct (map snd pre) as [|q l] eqn:E.
  - reflexivity.
  - change (last (p :: q :: l)) with (last (q :: l)).
    destruct (last (q :: l)) eqn:E'; [reflexivity|].
    apply last_None in E'. discriminate.
Qed.

(** The loop through replies that report more pending: the buffer then
    starts with what was there followed by everything received, and the
    next call asks for the number of bytes last reported pending. *)
Lemma loop_partial_reads s pre :
  forall b n,
    ba_wf b -> n <= ba_size b -> partial_reads (ba_size b - n) pre ->
    exists b',
      ba_wf b' /\ n + length (received pre) <= ba_size b' /\
      take (n + length (received pre)) (ba_storage b')
      = take n (ba_storage b) ++ received pre /\
      ba_size b' - (n + length (received pre))
      = request_after (ba_size b - n) pre /\
      forall rest w,
        socketReadyRead_loop s (replies_of pre ++ rest) b n w
        = socketReadyRead_loop s rest b' (n + length (received pre)) w.
Proof.
  induction pre as [|[data p] pre IH]; intros b n Hwf Hn Hpre.
  - exists b. unfold received, request_after. simpl.
    rewrite Nat.add_0_r, app_nil_r. auto.
  - destruct Hpre as (Hd & Hp & Hpre).
    destruct (store_spec n data b Hwf) as (W1 & S1 & P1); [lia|].
    destruct (reserve_spec (n + length data + p + 1) _ W1) as (W2 & S2 & _ & P2).
    destruct (resize_spec (n + length data + p) _ W2) as (W3 & S3 & _ & P3).
    set (b3 := ba_resize (n + length data + p)
                 (ba_reserve (n + length data + p + 1) (ba_store n data b))) in *.
    destruct (IH b3 (n + length data) W3) as (b' & W' & L' & P' & R' & E').
    { lia. }
    { replace (ba_size b3 - (n + length data)) with p by lia. exact Hpre. }
    assert (forall rest w,
              socketReadyRead_loop s (replies_of ((data, p) :: pre) ++ rest) b n w
              = socketReadyRead_loop s rest b'
                  (n + length data + length (received pre)) w) as E.
    { intros rest w. change (replies_of ((data, p) :: pre) ++ rest)
        with (SSL_plaintext data p :: (replies_of pre ++ rest)).
      rewrite loop_step_pending by lia. apply E'. }
    exists b'. unfold received in *. simpl. rewrite length_app.
    rewrite request_after_cons.
    replace (n + (length data + length (concat (map fst pre))))
      with (n + length data + length (concat (map fst pre))) by lia.
    split; [exact W'|]. split; [exact L'|]. split.
    + rewrite P', P3, P2, P1 by lia. rewrite <- app_assoc. reflexivity.
    + split.
      * rewrite R'. f_equal. lia.
      * exact E.
Qed.

Lemma ByteArray_new_wf n :
  ba_wf (ByteArray_new n) /\ ba_size (ByteArray_new n) = n.
Proof.
  unfold ba_wf, ByteArray_new, ba_capacity. simpl.
  rewrite length_replicate. auto.
Qed.

Lemma socketReadyRead_established s r replies w sock :
  sockets w !! s = Some sock ->
  sock_sslAccepted sock = true ->
  sock_tlsPeer sock = SSL_live ->
  TLSSocket_socketReadyRead s r replies w
  = socketReadyRead_loop s replies (ByteArray_new INITIAL_BUFFER_SIZE) 0 w.
Proof.
  intros Hs Ha Hl. unfold TLSSocket_socketReadyRead, with_tlsPeer, bind, getSocket.
  rewrite Hs, Ha. simpl. rewrite Hs, Hl. reflexivity.
Qed.

End reading.

Section delivery.
Local Open Scope nat_scope.

Lemma failed_delivers s w sock h b n result :
  sockets w !! s = Some sock ->
  sock_eventHandler sock = Some h ->
  0 < n ->
  socketReadyRead_failed s b n result w
  = Done result
      (logged [socketBytesReceived s
                 (ba_contents (TLSSocket_addNullTermination
                                 (ba_resize n (ba_reserve (n + 1) b)) n))] w).
Proof.
  intros Hs Hh Hn. unfold socketReadyRead_failed, bind, getSocket, when, emit, ret.
  rewrite Hs, Hh. destruct (n =? 0) eqn:E; [apply Nat.eqb_eq in E; lia|].
  reflexivity.
Qed.

Lemma final_delivers s w sock h b n data rs :
  sockets w !! s = Some sock ->
  sock_eventHandler sock = Some h ->
  0 < length data <= ba_size b - n ->
  socketReadyRead_loop s (SSL_plaintext data 0 :: rs) b n w
  = Done (Z.of_nat (length data))
      (logged [socketBytesReceived s
                 (ba_contents
                    (TLSSocket_addNullTermination
                       (socketReadyRead_fit (ba_store n data b) (n + length data))
                       (n + length data)))] w).
Proof.
  intros Hs Hh Hd. rewrite loop_step_final by exact Hd.
  unfold bind, getSocket, when, emit, ret. rewrite Hs, Hh. reflexivity.
Qed.

Lemma loop_step_failure s e rs b n w :
  socketReadyRead_loop s (SSL_failure e :: rs) b n w
  = socketReadyRead_failed s b n (- Z.of_N e)%Z w.
Proof.
  simpl. destruct (Z.leb_spec (- Z.of_N e) 0); [reflexivity|lia].
Qed.

(** Once some bytes have been read, the loop ends with exactly one
    notification, however the library answers. *)
Lemma loop_notifies_once s w sock h replies :
  sockets w !! s = Some sock ->
  sock_eventHandler sock = Some h ->
  forall b n, 0 < n ->
    exists payload result,
      socketReadyRead_loop s replies b n w
      = Done result (logged [socketBytesReceived s payload] w).
Proof.
  intros Hs Hh. induction replies as [|reply replies IH]; intros b n Hn.
  - simpl. erewrite failed_delivers by eauto. eauto.
  - simpl. destruct (SSL_read _ reply) as [result data].
    destruct (result <=? 0)%Z.
    + erewrite failed_delivers by eauto. eauto.
    + destruct (0 <? SSL_pending reply).
      * apply IH. lia.
      * unfold bind, getSocket, when, emit, ret. rewrite Hs, Hh. eauto.
Qed.

End delivery.

(** C4. On an established, open connection with an event handler, when
    the reads of one call of [socketReadyRead] have accumulated the bytes
    [received pre] (at least one) and the next [SSL_read] fails with the
    result [- e <= 0], the call logs one [socketBytesReceived] that carries
    exactly the accumulated bytes and then returns [- e]. *)
Theorem read_failure_delivers_accumulated s w sock h r pre e rest :
  sockets w !! s = Some sock ->
  sock_sslAccepted sock = true ->
  sock_tlsPeer sock = SSL_live ->
  sock_eventHandler sock = Some h ->
  pre <> [] ->
  partial_reads INITIAL_BUFFER_SIZE pre ->
  TLSSocket_socketReadyRead s r (replies_of pre ++ SSL_failure e :: rest) w
  = Done (- Z.of_N e) (logged [socketBytesReceived s (received pre)] w) /\
  - Z.of_N e <= 0 /\ received pre <> [].
Proof.
  intros Hs Ha Hl Hh Hne Hpre.
  assert (received pre <> []) as Hrec.
  { destruct pre as [|[data p] pre]; [congruence|].
    destruct Hpre as ((Hd & _) & _). unfold received. simpl.
    destruct data; simpl in *; [lia|discriminate]. }
  split; [|split; [lia|exact Hrec]].
  rewrite (socketReadyRead_established _ _ _ _ _ Hs Ha Hl).
  destruct (ByteArray_new_wf INITIAL_BUFFER_SIZE) as (W0 & S0).
  destruct (loop_partial_reads s pre (ByteArray_new INITIAL_BUFFER_SIZE) 0%nat W0)
    as (b' & W' & L' & P' & _ & E'); [lia| |].
  { rewrite S0, Nat.sub_0_r. exact Hpre. }
  rewrite E', loop_step_failure.
  assert (0 < length (received pre))%nat as Hlen.
  { destruct (received pre); [congruence|simpl; lia]. }
  erewrite failed_delivers by eauto.
  rewrite failed_contents by (auto; lia).
  rewrite P'. reflexivity.
Qed.

Lemma read_failure_delivers_accumulated_witness :
  TLSSocket_socketReadyRead 0%nat 1
    [SSL_plaintext [x61; x62] 1; SSL_failure 0] (after establish_client)
  = Done 0 (logged [socketBytesReceived 0%nat [x61; x62]] (after establish_client)).
Proof.
  refine (proj1 (read_failure_delivers_accumulated 0%nat (after establish_client)
            (mkTLSSocket true 5 SSL_live true (Some 7%nat)) 7%nat 1
            [([x61; x62], 1%nat)] 0%N [] _ _ _ _ _ _)).
  - vm_compute. reflexivity.
  - reflexivity.
  - reflexivity.
  - reflexivity.
  - discriminate.
  - simpl. unfold INITIAL_BUFFER_SIZE. lia.
Defined.

(** C3. On an established, open connection with an event handler: when
    the first [SSL_read] of a call of [socketReadyRead] obtains the [n]
    bytes [d1] and the library then reports [k] bytes pending, which the
    next read hands over as [d2] with nothing pending after them, the call
    logs exactly one [socketBytesReceived], and it carries [d1 ++ d2], that
    is [n + k] bytes.  Whatever the library answers after the first read,
    the call logs exactly one notification. *)
Theorem pending_bytes_one_notification s w sock h r d1 d2 rest :
  sockets w !! s = Some sock ->
  sock_sslAccepted sock = true ->
  sock_tlsPeer sock = SSL_live ->
  sock_eventHandler sock = Some h ->
  (0 < length d1 <= INITIAL_BUFFER_SIZE)%nat ->
  (0 < length d2)%nat ->
  (TLSSocket_socketReadyRead s r
     (SSL_plaintext d1 (length d2) :: SSL_plaintext d2 0 :: rest) w
   = Done (Z.of_nat (length d2)) (logged [socketBytesReceived s (d1 ++ d2)] w) /\
   length (d1 ++ d2) = (length d1 + length d2)%nat) /\
  (forall k replies, exists payload result,
     TLSSocket_socketReadyRead s r (SSL_plaintext d1 k :: replies) w
     = Done result (logged [socketBytesReceived s payload] w)).
Proof.
  intros Hs Ha Hl Hh Hd1 Hd2.
  destruct (ByteArray_new_wf INITIAL_BUFFER_SIZE) as (W0 & S0).
  split; [split; [|apply length_app]|].
  - rewrite (socketReadyRead_established _ _ _ _ _ Hs Ha Hl).
    destruct (loop_partial_reads s [(d1, length d2)]
                (ByteArray_new INITIAL_BUFFER_SIZE) 0%nat W0)
      as (b' & W' & L' & P' & R' & E'); [lia| |].
    { rewrite S0. simpl. unfold INITIAL_BUFFER_SIZE in *. lia. }
    assert (received [(d1, length d2)] = d1) as Hrec.
    { unfold received. simpl. apply app_nil_r. }
    rewrite Hrec in *. change (request_after _ _) with (length d2) in R'.
    change (0 + length d1)%nat with (length d1) in *.
    change (SSL_plaintext d1 (length d2) :: SSL_plaintext d2 0 :: rest)
      with (replies_of [(d1, length d2)] ++ SSL_plaintext d2 0 :: rest).
    rewrite E'.
    erewrite final_delivers by (eauto; lia).
    destruct (store_spec (length d1) d2 b' W') as (W1 & S1 & P1); [lia|].
    rewrite fit_contents by (auto; lia).
    rewrite P1, P'. reflexivity.
  - intros k replies.
    rewrite (socketReadyRead_established _ _ _ _ _ Hs Ha Hl).
    unfold INITIAL_BUFFER_SIZE in *. simpl. rewrite take_ge by lia.
    destruct (Z.of_nat (length d1) <=? 0) eqn:E; [lia|].
    destruct (0 <? k)%nat.
    + eapply loop_notifies_once; eauto. lia.
    + unfold bind, getSocket, when, emit, ret. rewrite Hs, Hh. eauto.
Qed.

(** The client sends "abc"; the first read obtains "ab" and one byte is
    reported pending. *)
Lemma pending_bytes_one_notification_witness :
  TLSSocket_socketReadyRead 0%nat 1
    [SSL_plaintext [x61; x62] 1; SSL_plaintext [x63] 0] (after establish_client)
  = Done 1 (logged [socketBytesReceived 0%nat [x61; x62; x63]]
              (after establish_client)).
Proof.
  refine (proj1 (proj1 (pending_bytes_one_notification 0%nat (after establish_client)
            (mkTLSSocket true 5 SSL_live true (Some 7%nat)) 7%nat 1
            [x61; x62] [x63] [] _ _ _ _ _ _))).
  - vm_compute. reflexivity.
  - reflexivity.
  - reflexivity.
  - reflexivity.
  - simpl. unfold INITIAL_BUFFER_SIZE. lia.
  - simpl. lia.
Defined.

(** ** Calls without handshake *)

Lemma calm_refl w : calm w w.
Proof.
  split; [|split].
  - intros s sock H. exists sock. auto.
  - intros s sock' H1 H2. congruence.
  - exists []. rewrite app_nil_r. auto.
Qed.

Lemma calm_event_mono w w' e :
  calm w w' -> calm_event w e -> calm_event w' e.
Proof.
  intros (A & _ & _). destruct e; simpl; auto.
  - intros (sock & Hs & Hh). destruct (A _ _ Hs) as (sock' & Hs' & _ & Hh' & _).
    exists sock'. split; [exact Hs'|congruence].
  - intros (sock & Hs & Hh). destruct (A _ _ Hs) as (sock' & Hs' & _ & Hh' & _).
    exists sock'. split; [exact Hs'|congruence].
Qed.

Lemma calm_trans w1 w2 w3 : calm w1 w2 -> calm w2 w3 -> calm w1 w3.
Proof.
  intros H12 H23.
  pose proof H12 as (A1 & B1 & es1 & E1 & F1).
  pose proof H23 as (A2 & B2 & es2 & E2 & F2).
  split; [|split].
  - intros s sock H. destruct (A1 _ _ H) as (k1 & H1 & P1 & Q1 & R1).
    destruct (A2 _ _ H1) as (k2 & H2 & P2 & Q2 & R2).
    exists k2. repeat split; auto; congruence.
  - intros s k3 H3 H1. destruct (sockets w2 !! s) as [k2|] eqn:H2.
    + destruct (B1 _ _ H2 H1) as (P & Q).
      destruct (A2 _ _ H2) as (k3' & H3' & P' & Q' & _).
      assert (k3' = k3) as -> by congruence. split; congruence.
    + apply (B2 _ _ H3 H2).
  - exists (es1 ++ es2). split.
    + rewrite E2, E1, app_assoc. reflexivity.
    + apply Forall_app. split; [|exact F2].
      eapply Forall_impl; [exact F1|]. intros e. apply calm_event_mono, H23.
Qed.

Lemma keeps_calm_bind {A B} (c : M A) (k : A -> M B) :
  keeps calm c -> (forall a, keeps calm (k a)) -> keeps calm (bind c k).
Proof.
  intros Hc Hk w b w' H. apply bind_Done in H as (a & w1 & H1 & H2).
  eapply calm_trans; [eapply Hc|eapply Hk]; eauto.
Qed.

Lemma keeps_calm_ret {A} (a : A) : keeps calm (ret a).
Proof. intros w b w' [= <- <-]. apply calm_refl. Qed.

Lemma keeps_calm_when b c : keeps calm c -> keeps calm (when b c).
Proof. destruct b; [auto|intros _; apply keeps_calm_ret]. Qed.

Lemma keeps_calm_forEach {A} (l : list A) body :
  (forall x, keeps calm (body x)) -> keeps calm (forEach l body).
Proof.
  intros H. induction l as [|x l IH]; simpl.
  - apply keeps_calm_ret.
  - apply keeps_calm_bind; auto.
Qed.

Ltac solve_calm_sockets :=
  let s' := fresh "s'" in let k := fresh "k" in let H := fresh "H" in
  intros s' k H;
  try match goal with
      | |- context [<[?s := _]> _ !! s'] =>
          destruct (decide (s = s')) as [<-|?]; simplify_map_eq
      end;
  eexists; (split; [reflexivity || eassumption|]); simpl;
  repeat split; intros; congruence || lia.

Ltac solve_calm_new :=
  let s' := fresh "s'" in let k := fresh "k" in
  let H := fresh "H" in let H' := fresh "H" in
  intros s' k H H';
  try match type of H with
      | context [<[?s := _]> _ !! s'] =>
          destruct (decide (s = s')) as [<-|?]; simplify_map_eq
      end;
  congruence.

Ltac solve_calm_event :=
  simpl;
  first [ exact I
        | eexists; split; [apply lookup_insert_eq || eassumption|]; simpl;
          match goal with
          | H : notNull ?h = true |- ?h <> None =>
              destruct h; [discriminate|discriminate H]
          end ].

Ltac solve_calm_log :=
  first
    [ exists []; split; [symmetry; apply app_nil_r | constructor]
    | rewrite <- ?app_assoc; eexists; split;
      [reflexivity | repeat (constructor; [solve_calm_event|]); constructor] ].

Ltac solve_calm :=
  bool_facts;
  split; [|split];
  [ simpl; solve_calm_sockets | simpl; solve_calm_new | simpl; solve_calm_log ].

Ltac calm_by_cases :=
  let H := fresh "H" in
  intros ? ? ? H; unfold_M; crunch; solve_calm.

Lemma close_calm s : keeps calm (TLSSocket_close s).
Proof. calm_by_cases. Qed.

Lemma write_calm s bytes r : keeps calm (TLSSocket_write s bytes r).
Proof. calm_by_cases. Qed.

Lemma listen_calm p r1 r2 r3 : keeps calm (TLSServer_listen p r1 r2 r3).
Proof. calm_by_cases. Qed.

Lemma shutdown_calm : keeps calm TLSServer_shutdown.
Proof. calm_by_cases. Qed.

Lemma run_enter_calm : keeps calm run_enter.
Proof. calm_by_cases. Qed.

Lemma run_select_calm r : keeps calm (run_select r).
Proof. calm_by_cases. Qed.

Lemma run_continue_calm : keeps calm run_continue.
Proof. calm_by_cases. Qed.

Lemma stopTask_socket_calm s : keeps calm (stopTask_socket s).
Proof. calm_by_cases. Qed.

Lemma socketReadyRead_failed_calm s bytes n r :
  keeps calm (socketReadyRead_failed s bytes n r).
Proof. unfold socketReadyRead_failed. calm_by_cases. Qed.

Lemma socketReadyRead_loop_calm s replies :
  forall bytes n, keeps calm (socketReadyRead_loop s replies bytes n).
Proof.
  induction replies as [|reply replies IH]; intros bytes n; simpl.
  - apply socketReadyRead_failed_calm.
  - destruct (SSL_read _ reply) as [result data].
    destruct (result <=? 0); [apply socketReadyRead_failed_calm|].
    destruct (0 <? SSL_pending reply)%nat; [apply IH|].
    calm_by_cases.
Qed.

Lemma newSocket_calm fd : keeps calm (newSocket (TLSSocket_new fd)).
Proof.
  intros w a w' H. unfold newSocket in H. injection H as <- <-.
  assert (sockets w !! fresh (dom (sockets w)) = None) as Hfresh.
  { apply not_elem_of_dom, is_fresh. }
  split; [|split]; simpl.
  - intros s k Hs. exists k. split; [|auto].
    rewrite lookup_insert_ne; [exact Hs|]. intros <-. congruence.
  - intros s k Hs Hn.
    destruct (decide (fresh (dom (sockets w)) = s)) as [<-|Hne].
    + rewrite lookup_insert_eq in Hs. injection Hs as <-. auto.
    + rewrite lookup_insert_ne in Hs by exact Hne. congruence.
  - exists []. rewrite app_nil_r. auto.
Qed.

Lemma run_accept_calm fd ok : keeps calm (run_accept fd ok).
Proof.
  unfold run_accept.
  destruct (fd <? 0); [apply keeps_calm_ret|].
  destruct (negb ok); [calm_by_cases|].
  apply keeps_calm_bind; [apply newSocket_calm|]. intros s.
  apply keeps_calm_bind; [calm_by_cases|]. intros srv.
  destruct (srv_socketMap srv !! fd).
  - apply keeps_calm_bind; [calm_by_cases|]. intros _. apply close_calm.
  - calm_by_cases.
Qed.

Lemma stopTask_calm : keeps calm TLSServer_stopTask.
Proof.
  unfold TLSServer_stopTask.
  apply keeps_calm_bind; [calm_by_cases|]. intros srv.
  apply keeps_calm_bind;
    [apply keeps_calm_forEach; intros x; apply stopTask_socket_calm|].
  intros _. calm_by_cases.
Qed.

(** ** The invariant of the connections *)

Lemma calm_no_handshake w' es s r :
  Forall (calm_event w') es -> lib_SSL_accept s r ∉ es.
Proof.
  intros H Hin. rewrite Forall_forall in H. apply (H _ Hin).
Qed.

Lemma calm_no_announcement w' es s :
  Forall (calm_event w') es -> tlsNewConnection s ∉ es.
Proof.
  intros H Hin. rewrite Forall_forall in H. apply (H _ Hin).
Qed.

Lemma handshake_first_app log es :
  handshake_first log -> (forall s, tlsNewConnection s ∉ es) ->
  handshake_first (log ++ es).
Proof.
  intros H Hes pre s post E.
  apply app_eq_app in E as [l [[E1 E2]|[E1 E2]]].
  - destruct l as [|x l]; simpl in E2.
    + exfalso. apply (Hes s). rewrite <- E2. left.
    + injection E2 as <- E2. eapply H. rewrite E1. reflexivity.
  - exfalso. apply (Hes s). rewrite E2.
    apply elem_of_app. right. left.
Qed.

Lemma calm_invariant x w w' :
  calm w w' -> connection_invariant_but x w -> connection_invariant_but x w'.
Proof.
  intros (A & B & es & E & F) (I1 & I2 & I3 & I4).
  assert (pending_unhandled w') as I1'.
  { intros s k' Hs Ha. destruct (sockets w !! s) as [k|] eqn:Hw.
    - destruct (A _ _ Hw) as (k'' & Hs' & Pa & Ph & _).
      assert (k'' = k') as -> by congruence.
      rewrite Ph. eapply I1; eauto; congruence.
    - apply (B _ _ Hs Hw). }
  split; [exact I1'|]. split; [|split].
  - intros s e Hin Hab. rewrite E in Hin. apply elem_of_app in Hin as [Hin|Hin].
    + destruct (I2 _ _ Hin Hab) as (k & Hs & Ha).
      destruct (A _ _ Hs) as (k' & Hs' & Pa & _).
      exists k'. split; [exact Hs'|congruence].
    + rewrite Forall_forall in F. specialize (F _ Hin).
      destruct Hab as [->|[[bytes ->]| ->]]; simpl in F; [contradiction| |];
        destruct F as (k' & Hs' & Hh); exists k'; (split; [exact Hs'|]);
        destruct (sock_sslAccepted k') eqn:Ha; auto;
        exfalso; apply Hh; eapply I1'; eauto.
  - intros s Hin. rewrite E in Hin. apply elem_of_app in Hin as [Hin|Hin].
    + destruct (I3 _ Hin) as (k & Hs & Ha & Hd).
      destruct (A _ _ Hs) as (k' & Hs' & Pa & _ & Pd).
      exists k'. repeat split; auto. congruence.
    + exfalso. eapply calm_no_handshake; eauto.
  - rewrite E. apply handshake_first_app; [exact I4|].
    intros s. eapply calm_no_announcement; eauto.
Qed.

Lemma invariant_after_close s w :
  connection_invariant_but (Some s) w -> closed s w -> connection_invariant w.
Proof.
  intros (I1 & I2 & I3 & I4) (k & Hs & Hd).
  split; [exact I1|]. split; [exact I2|]. split; [|exact I4].
  intros s' Hin. destruct (I3 _ Hin) as (k' & Hs' & Ha & Hd').
  exists k'. repeat split; auto. intros _.
  destruct (decide (s = s')) as [<-|Hne]; [congruence|].
  apply Hd'. congruence.
Qed.

(** ** The handshake step *)

Lemma handshake_first_announce log s r :
  handshake_first log -> r <> 0 ->
  handshake_first (log ++ [lib_SSL_accept s r; tlsNewConnection s]).
Proof.
  intros H Hr pre s' post E.
  apply app_eq_app in E as [l [[E1 E2]|[E1 E2]]].
  - destruct l as [|x l]; simpl in E2; [discriminate|].
    injection E2 as <- E2. eapply H. rewrite E1. reflexivity.
  - destruct l as [|x [|y l]]; simpl in E2.
    + discriminate.
    + simplify_eq. exists log, r. auto.
    + injection E2 as _ _ E2. destruct l; discriminate.
Qed.

Lemma acceptSSL_outcome s r w z w1 sock :
  sockets w !! s = Some sock ->
  srv_socketMap (server w) !! sock_socketDescriptor sock = Some s ->
  TLSSocket_acceptSSL s r w = Done z w1 ->
  (r = 0 /\ z = -2 /\
   w1 = mkWorld (server w) (<[s := set_eventHandler None sock]> (sockets w))
          (task w) (events w ++ [lib_SSL_accept s 0])) \/
  (r <> 0 /\ z = 1 /\
   exists ann, (ann = [] \/ ann = [tlsNewConnection s]) /\
     w1 = mkWorld (server w) (<[s := set_sslAccepted true sock]> (sockets w))
            (task w) (events w ++ lib_SSL_accept s r :: ann)).
Proof.
  intros Hs Hm H. unfold_M. crunch.
  all: match goal with
       | H : (_ =? 0) = true |- _ => apply Z.eqb_eq in H; subst; left; auto
       | H : (_ =? 0) = false |- _ =>
           apply Z.eqb_neq in H; right;
           (split; [exact H|]); (split; [reflexivity|])
       end.
  all: try (exists []; split; [auto|reflexivity]).
  all: exists [tlsNewConnection s]; split; [auto|];
       rewrite <- app_assoc; reflexivity.
Qed.

Lemma not_established s w sock :
  sockets w !! s = Some sock -> sock_sslAccepted sock = false ->
  ~ established s w.
Proof. intros Hs Ha (k & Hk & Hk'). congruence. Qed.

Lemma invariant_handshake_ok s r w sock srv t ann :
  connection_invariant w ->
  sockets w !! s = Some sock ->
  sock_sslAccepted sock = false ->
  sock_socketDescriptor sock <> -1 ->
  r <> 0 ->
  ann = [] \/ ann = [tlsNewConnection s] ->
  connection_invariant
    (mkWorld srv (<[s := set_sslAccepted true sock]> (sockets w)) t
       (events w ++ lib_SSL_accept s r :: ann)).
Proof.
  intros (I1 & I2 & I3 & I4) Hs Ha Hd Hr Hann.
  pose proof (not_established _ _ _ Hs Ha) as Hne.
  split; [|split; [|split]]; simpl.
  - intros s' k Hk Hk'. simpl in Hk.
    destruct (decide (s = s')) as [<-|Hn].
    + rewrite lookup_insert_eq in Hk. injection Hk as <-. discriminate.
    + rewrite lookup_insert_ne in Hk by exact Hn. eapply I1; eauto.
  - intros s' e Hin Hab. simpl in Hin. unfold established. simpl.
    apply elem_of_app in Hin as [Hin|Hin].
    + pose proof (I2 _ _ Hin Hab) as He.
      destruct (decide (s = s')) as [<-|Hn]; [contradiction|].
      rewrite lookup_insert_ne by exact Hn. exact He.
    + apply elem_of_cons in Hin as [->|Hin].
      { destruct Hab as [?|[[? ?]|?]]; discriminate. }
      destruct Hann as [->| ->]; [inversion Hin|].
      apply list_elem_of_singleton in Hin as ->.
      destruct Hab as [[= <-]|[[? ?]|?]]; [|discriminate..].
      rewrite lookup_insert_eq. eexists. split; reflexivity.
  - intros s' Hin. simpl in Hin. simpl.
    assert (lib_SSL_accept s' 0 ∈ events w) as Hin'.
    { apply elem_of_app in Hin as [Hin|Hin]; [exact Hin|].
      apply elem_of_cons in Hin as [[= <- <-]|Hin]; [congruence|].
      destruct Hann as [->| ->]; [inversion Hin|].
      apply list_elem_of_singleton in Hin. discriminate. }
    destruct (I3 _ Hin') as (k & Hk & Hka & Hkd).
    destruct (decide (s = s')) as [<-|Hn].
    + exfalso. apply Hd. rewrite Hs in Hk. injection Hk as <-.
      apply Hkd. discriminate.
    + exists k. rewrite lookup_insert_ne by exact Hn. auto.
  - destruct Hann as [->| ->].
    + apply handshake_first_app; [exact I4|].
      intros s' Hin. apply list_elem_of_singleton in Hin. discriminate.
    + apply handshake_first_announce; assumption.
Qed.

Lemma invariant_handshake_failed s w sock srv t :
  connection_invariant w ->
  sockets w !! s = Some sock ->
  sock_sslAccepted sock = false ->
  connection_invariant_but (Some s)
    (mkWorld srv (<[s := set_eventHandler None sock]> (sockets w)) t
       (events w ++ [lib_SSL_accept s 0])).
Proof.
  intros (I1 & I2 & I3 & I4) Hs Ha.
  pose proof (not_established _ _ _ Hs Ha) as Hne.
  split; [|split; [|split]]; simpl.
  - intros s' k Hk Hk'. simpl in Hk.
    destruct (decide (s = s')) as [<-|Hn].
    + rewrite lookup_insert_eq in Hk. injection Hk as <-. reflexivity.
    + rewrite lookup_insert_ne in Hk by exact Hn. eapply I1; eauto.
  - intros s' e Hin Hab. simpl in Hin. unfold established. simpl.
    apply elem_of_app in Hin as [Hin|Hin].
    + pose proof (I2 _ _ Hin Hab) as He.
      destruct (decide (s = s')) as [<-|Hn]; [contradiction|].
      rewrite lookup_insert_ne by exact Hn. exact He.
    + apply list_elem_of_singleton in Hin as ->.
      destruct Hab as [?|[[? ?]|?]]; discriminate.
  - intros s' Hin. simpl in Hin. simpl.
    destruct (decide (s = s')) as [<-|Hn].
    + rewrite lookup_insert_eq. eexists. split; [reflexivity|].
      split; [exact Ha|]. intros Hx. congruence.
    + rewrite lookup_insert_ne by exact Hn.
      apply elem_of_app in Hin as [Hin|Hin].
      * destruct (I3 _ Hin) as (k & Hk & Hka & Hkd).
        exists k. repeat split; auto.
      * apply list_elem_of_singleton in Hin. congruence.
  - apply handshake_first_app; [exact I4|].
    intros s' Hin. apply list_elem_of_singleton in Hin. discriminate.
Qed.

Lemma open_descriptor_spec d w s sock :
  open_descriptor d w = true ->
  srv_socketMap (server w) !! d = Some s ->
  sockets w !! s = Some sock ->
  0 <= d /\ sock_socketDescriptor sock = d.
Proof.
  unfold open_descriptor. intros H Hm Hs. rewrite Hm, Hs in H.
  apply andb_prop in H as [H1 H2]. split; lia.
Qed.

Lemma socketReadyRead_established_calm s r replies w z w' sock :
  sockets w !! s = Some sock ->
  sock_sslAccepted sock = true ->
  TLSSocket_socketReadyRead s r replies w = Done z w' ->
  calm w w'.
Proof.
  intros Hs Ha H. unfold TLSSocket_socketReadyRead, bind, getSocket in H.
  rewrite Hs, Ha in H. simpl in H.
  assert (keeps calm
    (with_tlsPeer s (socketReadyRead_loop s replies
                       (ByteArray_new INITIAL_BUFFER_SIZE) 0))) as K.
  { unfold with_tlsPeer. apply keeps_calm_bind; [calm_by_cases|]. intros k.
    destruct (sock_tlsPeer k); [apply socketReadyRead_loop_calm|].
    intros ? ? ? ?. discriminate. }
  eapply K, H.
Qed.

(** What one dispatch does: it reads on an established socket (and perhaps
    closes it), or it performs the handshake of the socket registered for
    the descriptor, which it closes when the handshake fails. *)
Lemma run_dispatch_cases d r replies w w' :
  open_descriptor d w = true ->
  run_dispatch d r replies w = Done tt w' ->
  calm w w' \/
  exists s sock,
    sockets w !! s = Some sock /\ sock_sslAccepted sock = false /\
    sock_socketDescriptor sock <> -1 /\
    ((r <> 0 /\ exists ann, (ann = [] \/ ann = [tlsNewConnection s]) /\
        w' = mkWorld (server w) (<[s := set_sslAccepted true sock]> (sockets w))
               (task w) (events w ++ lib_SSL_accept s r :: ann)) \/
     (r = 0 /\
      TLSSocket_close s
        (mkWorld (server w) (<[s := set_eventHandler None sock]> (sockets w))
           (task w) (events w ++ [lib_SSL_accept s 0])) = Done tt w')).
Proof.
  intros Hopen H. unfold run_dispatch in H.
  apply bind_Done in H as (srv & w0 & H0 & H).
  injection H0 as <- <-.
  destruct (negb _); [injection H as <-; left; apply calm_refl|].
  destruct (srv_socketMap (server w) !! d) as [s|] eqn:Hm; [|discriminate].
  apply bind_Done in H as (z & w1 & H1 & H2).
  destruct (sockets w !! s) as [sock|] eqn:Hs.
  2:{ unfold TLSSocket_socketReadyRead, bind, getSocket in H1.
      rewrite Hs in H1. discriminate. }
  destruct (open_descriptor_spec _ _ _ _ Hopen Hm Hs) as (Hd0 & Hd).
  destruct (sock_sslAccepted sock) eqn:Ha.
  - left.
    pose proof (socketReadyRead_established_calm _ _ _ _ _ _ _ Hs Ha H1) as C1.
    assert (calm w1 w') as C2.
    { revert H2. apply (keeps_calm_when (z <=? 0) _ (close_calm s)). }
    eapply calm_trans; eauto.
  - right. exists s, sock. split; [exact Hs|]. split; [exact Ha|].
    split; [lia|].
    unfold TLSSocket_socketReadyRead, bind, getSocket in H1.
    rewrite Hs, Ha in H1. simpl in H1.
    apply acceptSSL_outcome with (sock := sock) in H1; [|exact Hs|congruence].
    destruct H1 as [(-> & -> & ->)|(Hr & -> & ann & Hann & ->)].
    + right. split; [reflexivity|exact H2].
    + left. split; [exact Hr|]. simpl in H2. injection H2 as <-. eauto.
Qed.

Lemma run_dispatch_invariant d r replies w w' :
  open_descriptor d w = true ->
  run_dispatch d r replies w = Done tt w' ->
  connection_invariant w -> connection_invariant w'.
Proof.
  intros Hopen H Inv.
  destruct (run_dispatch_cases _ _ _ _ _ Hopen H)
    as [C|(s & sock & Hs & Ha & Hd & [(Hr & ann & Hann & ->)|(-> & Hc)])].
  - apply (calm_invariant None w w' C Inv).
  - apply invariant_handshake_ok; auto.
  - apply invariant_after_close with (s := s).
    + eapply calm_invariant; [eapply close_calm, Hc|].
      apply invariant_handshake_failed; assumption.
    + eapply close_closes, Hc.
Qed.

Lemma setEventHandler_invariant s h w w' :
  announced s w = true ->
  TLSSocket_setEventHandler s h w = Done tt w' ->
  connection_invariant w -> connection_invariant w'.
Proof.
  intros Hann H (I1 & I2 & I3 & I4).
  unfold announced in Hann. apply bool_decide_eq_true in Hann.
  destruct (I2 s _ Hann) as (sock & Hs & Ha); [left; reflexivity|].
  unfold_M. rewrite Hs in H. injection H as <-.
  split; [|split; [|split]]; simpl; [| | |exact I4].
  - intros s' k Hk Hk'. simpl in Hk.
    destruct (decide (s = s')) as [<-|Hn].
    + rewrite lookup_insert_eq in Hk. injection Hk as <-. simpl in Hk'. congruence.
    + rewrite lookup_insert_ne in Hk by exact Hn. eapply I1; eauto.
  - intros s' e Hin Hab. simpl in Hin. unfold established. simpl.
    destruct (I2 _ _ Hin Hab) as (k & Hk & Hka).
    destruct (decide (s = s')) as [<-|Hn].
    + rewrite lookup_insert_eq. eexists. split; [reflexivity|]. simpl. exact Ha.
    + rewrite lookup_insert_ne by exact Hn. eauto.
  - intros s' Hin. simpl in Hin. simpl.
    destruct (I3 _ Hin) as (k & Hk & Hka & Hkd).
    destruct (decide (s = s')) as [<-|Hn].
    + rewrite lookup_insert_eq. eexists. split; [reflexivity|]. simpl.
      rewrite Hs in Hk. injection Hk as <-. auto.
    + rewrite lookup_insert_ne by exact Hn. eauto.
Qed.

Lemma initial_invariant h g : connection_invariant (initial h g).
Proof.
  split; [|split; [|split]]; simpl.
  - intros s sock Hs. simpl in Hs. rewrite lookup_empty in Hs. discriminate.
  - intros s e Hin. inversion Hin.
  - intros s Hin. inversion Hin.
  - intros pre s post E. destruct pre; discriminate.
Qed.

Lemma step_invariant a w w' :
  step a w = Some w' -> connection_invariant w -> connection_invariant w'.
Proof.
  unfold step. destruct (enabled a w) eqn:En; [|discriminate].
  destruct (perform a w) as [[] w1|] eqn:E; [|discriminate].
  intros [= <-]. destruct a; simpl in E, En.
  - apply calm_invariant. revert E.
    apply (keeps_calm_bind _ _ (listen_calm _ _ _ _)). intros ?. apply keeps_calm_ret.
  - apply calm_invariant. eapply shutdown_calm, E.
  - apply calm_invariant. eapply close_calm, E.
  - apply calm_invariant. revert E.
    apply (keeps_calm_bind _ _ (write_calm _ _ _)). intros ?. apply keeps_calm_ret.
  - eapply setEventHandler_invariant; eauto.
  - apply calm_invariant. eapply run_enter_calm, E.
  - apply calm_invariant. eapply run_select_calm, E.
  - apply calm_invariant. eapply run_accept_calm, E.
  - apply andb_prop in En as [_ En]. eapply run_dispatch_invariant; eauto.
  - apply calm_invariant. eapply run_continue_calm, E.
  - apply calm_invariant. eapply stopTask_calm, E.
Qed.

Lemma reachable_invariant w : reachable w -> connection_invariant w.
Proof.
  induction 1 as [h g|w a w' _ IH Hs].
  - apply initial_invariant.
  - eapply step_invariant; eauto.
Qed.

(** ** The log of one step *)


Lemma step_calm_or_dispatch a w w' :
  step a w = Some w' ->
  calm w w' \/ events w' = events w \/
  exists d r replies,
    a = loop_dispatch d r replies /\ open_descriptor d w = true /\
    run_dispatch d r replies w = Done tt w'.
Proof.
  unfold step. destruct (enabled a w) eqn:En; [|discriminate].
  destruct (perform a w) as [[] w1|] eqn:E; [|discriminate].
  intros [= <-]. destruct a; simpl in E, En.
  - left. revert E.
    apply (keeps_calm_bind _ _ (listen_calm _ _ _ _)). intros ?. apply keeps_calm_ret.
  - left. eapply shutdown_calm, E.
  - left. eapply close_calm, E.
  - left. revert E.
    apply (keeps_calm_bind _ _ (write_calm _ _ _)). intros ?. apply keeps_calm_ret.
  - right. left. unfold_M. crunch. reflexivity.
  - left. eapply run_enter_calm, E.
  - left. eapply run_select_calm, E.
  - left. eapply run_accept_calm, E.
  - right. right. apply andb_prop in En as [_ En]. eauto 10.
  - left. eapply run_continue_calm, E.
  - left. eapply stopTask_calm, E.
Qed.



(** ** Deferred handshake (C1) *)



(** ** Failed handshakes (C9) *)

Lemma close_unhandled_log s w w' sock :
  sockets w !! s = Some sock -> sock_eventHandler sock = None ->
  TLSSocket_close s w = Done tt w' ->
  exists es, events w' = events w ++ es /\
    forall s' e, e ∈ es -> ~ about s' e.
Proof.
  intros Hs Hh H. destruct sock as [o fd p acc h]. simpl in Hh. subst h.
  unfold_M. rewrite Hs in H. simpl in H.
  destruct (fd =? -1) eqn:Hd; simpl in H.
  - rewrite Hs in H. simpl in H. injection H as <-.
    exists []. rewrite app_nil_r. split; [reflexivity|]. intros ? ? Hin. inversion Hin.
  - crunch.
    all: rewrite <- ?app_assoc; eexists; (split; [reflexivity|]);
         intros s' e Hin Hab; simpl in Hin;
         repeat (apply elem_of_cons in Hin as [->|Hin];
                 [destruct Hab as [?|[[? ?]|?]]; discriminate|]);
         inversion Hin.
Qed.

(** C9. In every execution, every notification in the log is about a
    socket that is established.  And when [acceptSSL] signals a failed
    handshake (a result that is not positive), the socket's event handler
    has been reset by then, the call has logged the handshake and nothing
    else, and the close that follows logs no notification for any
    socket. *)
Theorem failed_handshake_is_silent w :
  reachable w ->
  (forall s e, e ∈ events w -> about s e -> established s w) /\
  (forall s r z w1,
     TLSSocket_acceptSSL s r w = Done z w1 -> z <= 0 ->
     (exists sock1, sockets w1 !! s = Some sock1 /\
                    sock_eventHandler sock1 = None) /\
     events w1 = events w ++ [lib_SSL_accept s r] /\
     (forall w2, TLSSocket_close s w1 = Done tt w2 ->
        exists es, events w2 = events w1 ++ es /\
                   forall s' e, e ∈ es -> ~ about s' e)).
Proof.
  intros Hr. destruct (reachable_invariant _ Hr) as (I1 & I2 & I3 & I4).
  split; [exact I2|].
  intros s r z w1 H Hz.
  assert (exists sock,
            sockets w !! s = Some sock /\
            w1 = mkWorld (server w) (<[s := set_eventHandler None sock]> (sockets w))
                   (task w) (events w ++ [lib_SSL_accept s r])) as (sock & Hs & ->).
  { unfold_M. crunch; try lia; eauto. }
  split; [|split].
  - simpl. rewrite lookup_insert_eq. eauto.
  - reflexivity.
  - intros w2 Hc.
    apply (close_unhandled_log s _ w2 (set_eventHandler None sock));
      [simpl; apply lookup_insert_eq|reflexivity|exact Hc].
Qed.

Lemma failed_handshake_is_silent_witness :
  exists w1,
    TLSSocket_acceptSSL 0%nat 0 (after connect_client) = Done (-2) w1 /\
    (exists sock1, sockets w1 !! 0%nat = Some sock1 /\
                   sock_eventHandler sock1 = None) /\
    events w1 = events (after connect_client) ++ [lib_SSL_accept 0%nat 0].
Proof.
  assert (reachable (after connect_client)) as Hr.
  { apply (steps_reachable connect_client fresh_server).
    - apply reachable_initial.
    - vm_compute. reflexivity. }
  destruct (TLSSocket_acceptSSL 0%nat 0 (after connect_client)) as [z w1|f] eqn:E;
    [|vm_compute in E; discriminate E].
  assert (z = -2) as ->.
  { vm_compute in E. injection E as <- _. reflexivity. }
  exists w1. split; [reflexivity|].
  destruct (proj2 (failed_handshake_is_silent _ Hr) 0%nat 0 (-2) w1 E) as (H1 & H2 & _).
  - lia.
  - auto.
Defined.

(** ** Writing after close (C2) *)

(** A close that closes releases the session, and [write] then hands the
    released session to [SSL_write]. *)
Lemma write_after_close s w sock w1 bytes r :
  sockets w !! s = Some sock ->
  sock_socketDescriptor sock <> -1 ->
  TLSSocket_close s w = Done tt w1 ->
  closed s w1 /\ TLSSocket_write s bytes r w1 = Crash UseAfterFree.
Proof.
  intros Hs Hd H. split; [eapply close_closes, H|].
  apply Z.eqb_neq in Hd.
  unfold_M. rewrite Hs in H. simpl in H. rewrite Hd in H.
  crunch; reflexivity.
Qed.

(** C2 does not hold of the code.  After the application has closed the
    socket of an established connection (descriptor -1), [write] does not
    return a result: it makes no test of the descriptor and calls
    [SSL_write] with the session that [close] has released with
    [SSL_free]. *)
Theorem write_after_close_uses_freed_session :
  steps close_client fresh_server = Some (after close_client) /\
  closed 0%nat (after close_client) /\
  forall bytes r,
    TLSSocket_write 0%nat bytes r (after close_client) = Crash UseAfterFree.
Proof.
  split; [vm_compute; reflexivity|].
  split.
  - eexists. split; vm_compute; reflexivity.
  - intros bytes r. vm_compute. reflexivity.
Qed.

(** ** The interest set and the map (C5) *)

(** C5 does not hold of the code.  When a socket is closed after
    [shutdown] was called, [removeSocket] leaves its entry to [stopTask];
    [stopTask] then clears the bit of the socket's current descriptor,
    which is -1, and empties the map: descriptor 5 stays in the interest
    set without an entry in the map. *)
Theorem drain_leaves_closed_descriptor :
  steps shutdown_close_drain fresh_server = Some (after shutdown_close_drain) /\
  task (after shutdown_close_drain) = TaskStopped /\
  srv_socketMap (server (after shutdown_close_drain)) !! 5 = None /\
  5 ∈ srv_activeDescriptors (server (after shutdown_close_drain)) /\
  5 <> srv_serverSocket (server (after shutdown_close_drain)) /\
  ~ registry_consistent (after shutdown_close_drain).
Proof.
  assert (5 ∈ srv_activeDescriptors (server (after shutdown_close_drain))) as Hin.
  { apply (bool_decide_unpack
             (5 ∈ srv_activeDescriptors (server (after shutdown_close_drain)))).
    vm_compute. exact I. }
  split; [vm_compute; reflexivity|].
  split; [vm_compute; reflexivity|].
  split; [vm_compute; reflexivity|].
  split; [exact Hin|].
  split; [vm_compute; discriminate|].
  intros H. destruct (H 5) as [H1 _]; [vm_compute; discriminate|].
  destruct (H1 Hin) as [x Hx]. vm_compute in Hx. discriminate.
Qed.

Lemma deregisters_refl w : deregisters w w.
Proof.
  repeat split; auto. exists (fun _ => True). intros d. tauto.
Qed.

Lemma deregisters_trans w1 w2 w3 :
  deregisters w1 w2 -> deregisters w2 w3 -> deregisters w1 w3.
Proof.
  intros (T1 & S1 & F1 & k1 & K1) (T2 & S2 & F2 & k2 & K2).
  split; [congruence|]. split; [congruence|]. split; [congruence|].
  exists (fun d => k1 d /\ k2 d). intros d.
  destruct (K1 d) as [A1 B1]. destruct (K2 d) as [A2 B2].
  rewrite A2, A1, B2, B1. tauto.
Qed.

Lemma deregisters_invariant w w' :
  deregisters w w' -> registry_invariant w -> registry_invariant w'.
Proof.
  intros (T & S & F & keep & K) (I1 & I2 & I3).
  split; [|split].
  - rewrite T, F. exact I1.
  - rewrite T. intros Ht. specialize (I2 Ht).
    apply map_eq. intros d. rewrite lookup_empty.
    destruct (srv_socketMap (server w') !! d) eqn:E; [|reflexivity].
    exfalso. destruct (K d) as [_ B].
    destruct (proj1 B (mk_is_Some _ _ E)) as [[x Hx] _].
    rewrite I2, lookup_empty in Hx. discriminate.
  - rewrite T. intros Ht d Hd. rewrite S in Hd.
    destruct (K d) as [A B]. rewrite A, B, (I3 Ht d Hd). tauto.
Qed.

Lemma keeps_dereg_bind {A B} (c : M A) (k : A -> M B) :
  keeps deregisters c -> (forall a, keeps deregisters (k a)) ->
  keeps deregisters (bind c k).
Proof.
  intros Hc Hk w b w' H. apply bind_Done in H as (a & w1 & H1 & H2).
  eapply deregisters_trans; [eapply Hc|eapply Hk]; eauto.
Qed.

Lemma keeps_dereg_ret {A} (a : A) : keeps deregisters (ret a).
Proof. intros w b w' [= <- <-]. apply deregisters_refl. Qed.

Lemma keeps_dereg_when b c : keeps deregisters c -> keeps deregisters (when b c).
Proof. destruct b; [auto|intros _; apply keeps_dereg_ret]. Qed.

Ltac solve_dereg :=
  split; [reflexivity|]; split; [reflexivity|]; split; [reflexivity|]; simpl;
  first
    [ exists (fun _ => True); intros ?; tauto
    | match goal with
      | |- context [delete ?d0 _] =>
          exists (fun d => d <> d0); intros d; split;
          [ rewrite elem_of_difference, elem_of_singleton; reflexivity
          | destruct (decide (d0 = d)) as [<-|?];
            [ rewrite lookup_delete_eq; split;
              [intros [? ?]; discriminate | intros [_ ?]; congruence]
            | rewrite lookup_delete_ne by assumption; split;
              [intros; split; [assumption|congruence] | intros [? _]; assumption] ] ]
      end ].

Ltac dereg_by_cases :=
  let H := fresh "H" in
  intros ? ? ? H; unfold_M; crunch; solve_dereg.

Lemma close_dereg s : keeps deregisters (TLSSocket_close s).
Proof. dereg_by_cases. Qed.

Lemma acceptSSL_dereg s r : keeps deregisters (TLSSocket_acceptSSL s r).
Proof. dereg_by_cases. Qed.

Lemma write_dereg s bytes r : keeps deregisters (TLSSocket_write s bytes r).
Proof. dereg_by_cases. Qed.

Lemma setEventHandler_dereg s h : keeps deregisters (TLSSocket_setEventHandler s h).
Proof. dereg_by_cases. Qed.

Lemma shutdown_dereg : keeps deregisters TLSServer_shutdown.
Proof. dereg_by_cases. Qed.

Lemma socketReadyRead_failed_dereg s bytes n r :
  keeps deregisters (socketReadyRead_failed s bytes n r).
Proof. unfold socketReadyRead_failed. dereg_by_cases. Qed.

Lemma socketReadyRead_loop_dereg s replies :
  forall bytes n, keeps deregisters (socketReadyRead_loop s replies bytes n).
Proof.
  induction replies as [|reply replies IH]; intros bytes n; simpl.
  - apply socketReadyRead_failed_dereg.
  - destruct (SSL_read _ reply) as [result data].
    destruct (result <=? 0); [apply socketReadyRead_failed_dereg|].
    destruct (0 <? SSL_pending reply)%nat; [apply IH|].
    dereg_by_cases.
Qed.

Lemma socketReadyRead_dereg s r replies :
  keeps deregisters (TLSSocket_socketReadyRead s r replies).
Proof.
  unfold TLSSocket_socketReadyRead.
  apply keeps_dereg_bind; [dereg_by_cases|]. intros sock.
  destruct (negb (sock_sslAccepted sock)); [apply acceptSSL_dereg|].
  unfold with_tlsPeer. apply keeps_dereg_bind; [dereg_by_cases|]. intros sock'.
  destruct (sock_tlsPeer sock'); [apply socketReadyRead_loop_dereg|].
  intros w a w' H. discriminate.
Qed.

Lemma run_dispatch_dereg d r replies : keeps deregisters (run_dispatch d r replies).
Proof.
  unfold run_dispatch.
  apply keeps_dereg_bind; [dereg_by_cases|]. intros srv.
  destruct (negb _); [apply keeps_dereg_ret|].
  destruct (srv_socketMap srv !! d) as [s|]; [|intros w a w' H; discriminate].
  apply keeps_dereg_bind; [apply socketReadyRead_dereg|]. intros result.
  apply keeps_dereg_when, close_dereg.
Qed.

Lemma initial_registry h g : registry_invariant (initial h g).
Proof.
  split; [|split]; simpl; auto.
  intros [H|H]; discriminate.
Qed.

Lemma listen_registry p r1 r2 r3 w b w' :
  TLSServer_listen p r1 r2 r3 w = Done b w' ->
  registry_invariant w -> registry_invariant w'.
Proof.
  intros H (I1 & I2 & I3). unfold_M.
  destruct (srv_serverIsShutdown (server w)) eqn:F; simpl in H.
  2:{ injection H as <- <-. split; [|split]; auto. congruence. }
  specialize (I1 eq_refl).
  assert (srv_socketMap (server w) = ∅) as Hm by auto.
  crunch; (split; [|split]); simpl; auto; try congruence;
    intros [?|?]; congruence.
Qed.

Lemma run_enter_registry w w' :
  task w = TaskStarted ->
  run_enter w = Done tt w' ->
  registry_invariant w -> registry_invariant w'.
Proof.
  intros Ht H (I1 & I2 & I3).
  assert (srv_socketMap (server w) = ∅) as Hm by auto.
  assert (srv_serverIsShutdown (server w) = false) as F.
  { destruct (srv_serverIsShutdown (server w)); [|reflexivity].
    rewrite I1 in Ht by reflexivity. discriminate. }
  unfold_M. injection H as <-.
  split; [|split]; simpl.
  - congruence.
  - destruct (srv_serverIsRunning (server w)); intros [?|?]; discriminate.
  - intros _ d Hd. simpl in Hd. simpl. rewrite Hm, lookup_empty.
    rewrite elem_of_union, elem_of_singleton. split.
    + intros [?|Hin]; [congruence|]. inversion Hin.
    + intros [? ?]. discriminate.
Qed.

Lemma run_select_registry r w w' :
  task w = TaskLooping ->
  run_select r w = Done tt w' ->
  registry_invariant w -> registry_invariant w'.
Proof.
  intros Ht H (I1 & I2 & I3).
  assert (registry_consistent w) as Hc by auto.
  assert (srv_serverIsShutdown (server w) = false) as F.
  { destruct (srv_serverIsShutdown (server w)); [|reflexivity].
    rewrite I1 in Ht by reflexivity. discriminate. }
  unfold_M. crunch; (split; [|split]); simpl; auto; try congruence;
    intros [?|?]; congruence.
Qed.

Lemma run_continue_registry w w' :
  task w = TaskLooping ->
  run_continue w = Done tt w' ->
  registry_invariant w -> registry_invariant w'.
Proof.
  intros Ht H (I1 & I2 & I3).
  assert (registry_consistent w) as Hc by auto.
  assert (srv_serverIsShutdown (server w) = false) as F.
  { destruct (srv_serverIsShutdown (server w)); [|reflexivity].
    rewrite I1 in Ht by reflexivity. discriminate. }
  unfold_M. crunch; (split; [|split]); simpl; auto; try congruence;
    intros [?|?]; congruence.
Qed.

(** Registration: the descriptor enters the map and the interest set
    together. *)
Lemma register_consistent fd s w :
  registry_consistent w ->
  registry_consistent
    (mkWorld
       (set_activeDescriptors ({[fd]} ∪ srv_activeDescriptors (server w))
          (set_socketMap (<[fd := s]> (srv_socketMap (server w))) (server w)))
       (sockets w) (task w) (events w)).
Proof.
  intros Hc d Hd. simpl in *. specialize (Hc d Hd).
  rewrite elem_of_union, elem_of_singleton.
  destruct (decide (fd = d)) as [<-|Hn].
  - rewrite lookup_insert_eq. split; eauto.
  - rewrite lookup_insert_ne by exact Hn. rewrite <- Hc. split.
    + intros [?|?]; [congruence|assumption].
    + auto.
Qed.

Lemma run_accept_registry fd ok w w' :
  task w = TaskLooping ->
  run_accept fd ok w = Done tt w' ->
  registry_invariant w -> registry_invariant w'.
Proof.
  intros Ht H Inv. unfold run_accept in H.
  destruct (fd <? 0); [injection H as <-; exact Inv|].
  destruct (negb ok).
  { assert (keeps deregisters (emit (sys_close fd))) as K by dereg_by_cases.
    apply (deregisters_invariant _ _ (K _ _ _ H) Inv). }
  apply bind_Done in H as (s & w1 & H1 & H).
  unfold newSocket in H1. injection H1 as <- <-.
  apply bind_Done in H as (srv & w2 & H2 & H). injection H2 as <- <-.
  simpl in H. destruct Inv as (I1 & I2 & I3).
  assert (registry_consistent w) as Hc by auto.
  assert (srv_serverIsShutdown (server w) = false) as F.
  { destruct (srv_serverIsShutdown (server w)); [|reflexivity].
    rewrite I1 in Ht by reflexivity. discriminate. }
  destruct (srv_socketMap (server w) !! fd) as [old|] eqn:Hm.
  - apply bind_Done in H as ([] & w3 & H3 & H).
    apply close_dereg in H. apply (deregisters_invariant _ _ H).
    unfold_M. injection H3 as <-.
    split; [|split]; simpl; [congruence|intros [?|?]; congruence|].
    intros _ d Hd. simpl in *. specialize (Hc d Hd).
    rewrite elem_of_union, elem_of_singleton, <- Hc.
    split; [|auto]. intros [->|?]; [|assumption].
    apply Hc. eauto.
  - unfold_M. injection H as <-.
    split; [|split]; simpl; [congruence|intros [?|?]; congruence|].
    intros _. apply (register_consistent fd _ _ Hc).
Qed.

Lemma stopTask_registry w w' :
  task w = TaskReturned ->
  TLSServer_stopTask w = Done tt w' ->
  registry_invariant w -> registry_invariant w'.
Proof.
  intros Ht H (I1 & _ & _).
  assert (srv_serverIsShutdown (server w) = false) as F.
  { destruct (srv_serverIsShutdown (server w)); [|reflexivity].
    rewrite I1 in Ht by reflexivity. discriminate. }
  destruct (stopTask_evolves _ _ _ H) as (F' & _). specialize (F' F).
  assert (task w' = TaskStopped) as Ht'.
  { unfold TLSServer_stopTask in H.
    apply bind_Done in H as (srv & w1 & _ & H).
    apply bind_Done in H as ([] & w2 & _ & H).
    apply bind_Done in H as ([] & w3 & _ & H).
    unfold setTask in H. injection H as <-. reflexivity. }
  split; [|split]; rewrite ?Ht'; try (intros [?|?]; discriminate).
  congruence.
Qed.

Lemma step_registry a w w' :
  step a w = Some w' -> registry_invariant w -> registry_invariant w'.
Proof.
  unfold step. destruct (enabled a w) eqn:En; [|discriminate].
  destruct (perform a w) as [[] w1|] eqn:E; [|discriminate].
  intros [= <-]. destruct a; simpl in E, En.
  - apply bind_Done in E as (b & w2 & E & E'). injection E' as <-.
    eapply listen_registry, E.
  - apply deregisters_invariant. eapply shutdown_dereg, E.
  - apply deregisters_invariant. eapply close_dereg, E.
  - apply bind_Done in E as (b & w2 & E & E'). injection E' as <-.
    apply deregisters_invariant. eapply write_dereg, E.
  - apply deregisters_invariant. eapply setEventHandler_dereg, E.
  - apply bool_decide_eq_true in En. eapply run_enter_registry; eauto.
  - apply bool_decide_eq_true in En. eapply run_select_registry; eauto.
  - apply andb_prop in En as [En _]. apply bool_decide_eq_true in En.
    eapply run_accept_registry; eauto.
  - apply deregisters_invariant. eapply run_dispatch_dereg, E.
  - apply bool_decide_eq_true in En. eapply run_continue_registry; eauto.
  - apply bool_decide_eq_true in En. eapply stopTask_registry; eauto.
Qed.

(** X1. From the set-up of the loop until [stopTask], at every point
    between two calls, a descriptor other than the listening one is in the
    interest set exactly when the map has an entry for it. *)
Lemma reachable_registry_consistent w :
  reachable w ->
  task w = TaskLooping \/ task w = TaskReturned ->
  registry_consistent w.
Proof.
  intros Hr. assert (registry_invariant w) as (_ & _ & I3).
  { induction Hr as [h g|w a w' _ IH Hs].
    - apply initial_registry.
    - eapply step_registry; eauto. }
  exact I3.
Qed.

(** * Further properties of the engine *)

(** ** The registry while the loop runs *)

Lemma reachable_registry_consistent_witness :
  registry_consistent (after establish_client).
Proof.
  apply reachable_registry_consistent.
  - apply (steps_reachable establish_client fresh_server).
    + apply reachable_initial.
    + vm_compute. reflexivity.
  - left. vm_compute. reflexivity.
Defined.

(** ** Final states of a connection *)

(** X2. No call undoes a close or a handshake: a socket that is closed
    stays closed and a socket that is established stays established over
    every sequence of calls and loop steps. *)
Theorem closed_and_established_are_final l w w' s :
  steps l w = Some w' ->
  (closed s w -> closed s w') /\ (established s w -> established s w').
Proof.
  intros H. destruct (steps_evolves _ _ _ H) as (_ & _ & _ & K & _).
  split; intros (sock & Hs & Hp); destruct (K _ _ Hs) as (sock' & Hs' & Hd & Ha);
    exists sock'; auto.
Qed.

Lemma closed_and_established_are_final_witness :
  closed 0%nat (after shutdown_close_drain) /\
  established 0%nat (after shutdown_close_drain).
Proof.
  destruct (closed_and_established_are_final
              [loop_select (-1); loop_stopTask]
              (after (establish_client ++ [call_shutdown; call_close 0%nat]))
              (after shutdown_close_drain) 0%nat) as (H1 & H2).
  - vm_compute. reflexivity.
  - split.
    + apply H1. eexists. split; vm_compute; reflexivity.
    + apply H2. eexists. split; vm_compute; reflexivity.
Defined.

(** ** Shutdown twice *)

(** X3. On a server that [listen] has started, after one [shutdown] every
    later [shutdown], whatever happened in between, changes nothing: the
    listening descriptor is not closed a second time. *)
Theorem shutdown_once w w1 l w2 :
  srv_serverIsShutdown (server w) = false ->
  TLSServer_shutdown w = Done tt w1 ->
  steps l w1 = Some w2 ->
  TLSServer_shutdown w2 = Done tt w2.
Proof.
  intros F H1 H2.
  pose proof (shutdown_stops _ _ F H1) as St.
  destruct (steps_evolves _ _ _ H2) as (_ & _ & K & _).
  destruct (K St) as (_ & R).
  unfold_M. rewrite R. reflexivity.
Qed.

Lemma shutdown_once_witness :
  TLSServer_shutdown (after (connect_client ++ [call_shutdown; loop_select 0]))
  = Done tt (after (connect_client ++ [call_shutdown; loop_select 0])).
Proof.
  apply (shutdown_once (after connect_client)
           (after (connect_client ++ [call_shutdown])) [loop_select 0]).
  - vm_compute. reflexivity.
  - vm_compute. reflexivity.
  - vm_compute. reflexivity.
Defined.

(** ** A socket without owner *)



(** ** The drain *)

Lemma stopTask_socket_released s w w' :
  stopTask_socket s w = Done tt w' -> released_closed s w'.
Proof.
  intros H. unfold released_closed. unfold_M. crunch;
    (eexists; split; [reflexivity || eassumption|]; simpl; split;
     try reflexivity; try lia).
Qed.

Lemma stopTask_socket_keeps_released x w w' :
  stopTask_socket x w = Done tt w' -> keeps_released w w'.
Proof.
  intros H. unfold keeps_released. unfold_M. crunch; solve_sockets.
Qed.

Lemma forEach_drains l :
  forall w w',
    forEach l (fun x : Z * sockid => stopTask_socket x.2) w = Done tt w' ->
    keeps_released w w' /\ forall x, x ∈ l -> released_closed x.2 w'.
Proof.
  induction l as [|y l IH]; intros w w' H; simpl in H.
  - injection H as <-. split.
    + intros s k Hk. exists k. auto.
    + intros x Hx. inversion Hx.
  - apply bind_Done in H as ([] & w1 & H1 & H2).
    pose proof (stopTask_socket_keeps_released _ _ _ H1) as K1.
    destruct (IH _ _ H2) as (K2 & D2).
    split.
    + intros s k Hk. destruct (K1 _ _ Hk) as (k1 & Hk1 & A1 & B1).
      destruct (K2 _ _ Hk1) as (k2 & Hk2 & A2 & B2). exists k2. auto.
    + intros x Hx. apply elem_of_cons in Hx as [->|Hx]; [|auto].
      destruct (stopTask_socket_released _ _ _ H1) as (k1 & Hk1 & A1 & B1).
      destruct (K2 _ _ Hk1) as (k2 & Hk2 & A2 & B2). exists k2. auto.
Qed.

Lemma map_entries_spec (m : gmap Z sockid) d s :
  (d, s) ∈ map_entries m <-> m !! d = Some s.
Proof.
  unfold map_entries. rewrite merge_sort_Permutation.
  apply elem_of_map_to_list.
Qed.

(** X5. When [stopTask] has returned, the map is empty, the loop thread
    has ended, and every socket that had an entry in the map is closed and
    has no owner. *)
Theorem stopTask_drains w w' :
  TLSServer_stopTask w = Done tt w' ->
  srv_socketMap (server w') = ∅ /\ task w' = TaskStopped /\
  forall d s, srv_socketMap (server w) !! d = Some s -> released_closed s w'.
Proof.
  intros H. unfold TLSServer_stopTask in H.
  apply bind_Done in H as (srv & w0 & H0 & H). injection H0 as <- <-.
  apply bind_Done in H as ([] & w1 & H1 & H).
  destruct (forEach_drains _ _ _ H1) as (_ & D).
  unfold_M. injection H as <-. simpl.
  split; [reflexivity|]. split; [reflexivity|].
  intros d s Hm. apply (D (d, s)). apply map_entries_spec, Hm.
Qed.

Lemma stopTask_drains_witness :
  srv_socketMap (server (after (establish_client ++ [call_shutdown; loop_continue;
                                                      loop_stopTask]))) = ∅ /\
  released_closed 0%nat (after (establish_client ++ [call_shutdown; loop_continue;
                                                      loop_stopTask])).
Proof.
  destruct (stopTask_drains
              (after (establish_client ++ [call_shutdown; loop_continue]))
              (after (establish_client ++ [call_shutdown; loop_continue;
                                           loop_stopTask]))) as (H1 & _ & H2).
  - vm_compute. reflexivity.
  - split; [exact H1|]. apply (H2 5). vm_compute. reflexivity.
Defined.

Ltac split_log :=
  first
    [ exists []; split; [symmetry; apply app_nil_r|]
    | rewrite <- ?app_assoc; eexists; split; [reflexivity|] ].

Lemma stopTask_socket_self s w w' :
  stopTask_socket s w = Done tt w' ->
  exists es, events w' = events w ++ es /\
    disconnects s es = (if will_notify s w then 1 else 0)%nat /\
    will_notify s w' = false.
Proof.
  intros H. unfold will_notify. unfold_M. crunch; split_log;
    unfold disconnects; simpl; rewrite ?Nat.eqb_refl; simpl;
    repeat match goal with
           | H : (_ =? _) = _ |- _ => rewrite H
           | H : notNull _ = _ |- _ => rewrite H
           | H : _ && _ = _ |- _ => rewrite H
           end; simpl; bool_facts; auto; try congruence.
  all: match goal with
       | a : TLSSocket |- _ =>
           destruct (sock_socketDescriptor a =? -1);
           destruct (notNull (sock_eventHandler a)); simpl in *; congruence
       end.
Qed.

Lemma stopTask_socket_other x s w w' :
  x <> s ->
  stopTask_socket x w = Done tt w' ->
  exists es, events w' = events w ++ es /\
    disconnects s es = 0%nat /\ sockets w' !! s = sockets w !! s.
Proof.
  intros Hn H. assert (Nat.eqb s x = false) as Hx by (apply Nat.eqb_neq; auto).
  unfold_M. crunch; split_log; unfold disconnects; simpl; rewrite ?Hx; auto.
Qed.

Lemma disconnects_app s l1 l2 :
  disconnects s (l1 ++ l2) = (disconnects s l1 + disconnects s l2)%nat.
Proof. unfold disconnects. rewrite List.filter_app, length_app. reflexivity. Qed.

Lemma will_notify_ext s w w' :
  sockets w' !! s = sockets w !! s -> will_notify s w' = will_notify s w.
Proof. unfold will_notify. intros ->. reflexivity. Qed.

Lemma forEach_disconnects s l :
  forall w w',
    forEach l (fun x : Z * sockid => stopTask_socket x.2) w = Done tt w' ->
    exists es, events w' = events w ++ es /\
      (s ∈ l.*2 -> disconnects s es = (if will_notify s w then 1 else 0)%nat) /\
      (s ∈ l.*2 -> will_notify s w' = false) /\
      (s ∉ l.*2 -> disconnects s es = 0%nat /\ sockets w' !! s = sockets w !! s).
Proof.
  induction l as [|y l IH]; intros w w' H; simpl in H.
  - injection H as <-. exists []. rewrite app_nil_r. split; [reflexivity|].
    split; [intros Hin; inversion Hin|]. split; [intros Hin; inversion Hin|]. auto.
  - apply bind_Done in H as ([] & w1 & H1 & H2).
    destruct (IH _ _ H2) as (es2 & E2 & A2 & B2 & C2).
    destruct (decide (y.2 = s)) as [Hy|Hy].
    + destruct (stopTask_socket_self _ _ _ H1) as (es1 & E1 & A1 & B1).
      rewrite Hy in *.
      exists (es1 ++ es2). split; [rewrite E2, E1, app_assoc; reflexivity|].
      assert (disconnects s es2 = 0%nat /\ will_notify s w' = false) as (Z2 & N2).
      { destruct (decide (s ∈ l.*2)) as [Hin|Hin].
        - rewrite (A2 Hin), B1. auto.
        - destruct (C2 Hin) as (Z2 & S2). split; [exact Z2|].
          rewrite (will_notify_ext _ _ _ S2). exact B1. }
      split; [intros _; rewrite disconnects_app, A1, Z2; lia|].
      split; [intros _; exact N2|].
      intros Hnot. exfalso. apply Hnot. simpl. rewrite Hy. left.
    + destruct (stopTask_socket_other _ s _ _ Hy H1) as (es1 & E1 & Z1 & S1).
      exists (es1 ++ es2). split; [rewrite E2, E1, app_assoc; reflexivity|].
      simpl. rewrite elem_of_cons.
      split; [|split].
      * intros [Hs|Hin]; [congruence|].
        rewrite disconnects_app, Z1, (A2 Hin), (will_notify_ext _ _ _ S1). reflexivity.
      * intros [Hs|Hin]; [congruence|]. auto.
      * intros Hnot. destruct C2 as (Z2 & S2); [tauto|].
        rewrite disconnects_app, Z1, Z2, S2, S1. auto.
Qed.

(** X6. [stopTask] notifies the handler of every connection that is still
    open exactly once: for a socket with an entry in the map that is open
    and has a handler, what [stopTask] logs contains one
    [socketDisconnected]; for a socket that is already closed, that has no
    handler or that has no entry in the map, it contains none. *)
Theorem stopTask_disconnects_once w w' :
  TLSServer_stopTask w = Done tt w' ->
  exists es, events w' = events w ++ es /\
    forall s,
      ((exists d, srv_socketMap (server w) !! d = Some s) ->
       will_notify s w = true -> disconnects s es = 1%nat) /\
      ((forall d, srv_socketMap (server w) !! d <> Some s) \/
       will_notify s w = false -> disconnects s es = 0%nat).
Proof.
  intros H. unfold TLSServer_stopTask in H.
  apply bind_Done in H as (srv & w0 & H0 & H). injection H0 as <- <-.
  apply bind_Done in H as ([] & w1 & H1 & H).
  assert (events w' = events w1) as Ew.
  { unfold_M. injection H as <-. reflexivity. }
  assert (forall s, s ∈ (map_entries (srv_socketMap (server w))).*2 <->
                    exists d, srv_socketMap (server w) !! d = Some s) as Hmem.
  { intros s. rewrite list_elem_of_fmap. split.
    - intros ([d s'] & -> & Hin). exists d. apply map_entries_spec, Hin.
    - intros (d & Hd). exists (d, s). split; [reflexivity|].
      apply map_entries_spec, Hd. }
  destruct (forEach_disconnects 0%nat _ _ _ H1) as (es & E & _).
  exists es. split; [congruence|].
  intros s. destruct (forEach_disconnects s _ _ _ H1) as (es' & E' & A & _ & C).
  rewrite E in E'. apply app_inv_head in E'. subst es'.
  split.
  - intros Hd Hn. rewrite A by (apply Hmem, Hd). rewrite Hn. reflexivity.
  - intros [Hno|Hn].
    + apply C. rewrite Hmem. intros (d & Hd). apply (Hno d Hd).
    + destruct (decide (s ∈ (map_entries (srv_socketMap (server w))).*2)) as [Hin|Hin].
      * rewrite (A Hin), Hn. reflexivity.
      * apply C, Hin.
Qed.

Lemma stopTask_disconnects_once_witness :
  exists es,
    events (after (establish_client ++ [call_shutdown; loop_continue; loop_stopTask]))
    = events (after (establish_client ++ [call_shutdown; loop_continue])) ++ es /\
    disconnects 0%nat es = 1%nat.
Proof.
  destruct (stopTask_disconnects_once
              (after (establish_client ++ [call_shutdown; loop_continue]))
              (after (establish_client ++ [call_shutdown; loop_continue;
                                           loop_stopTask]))) as (es & E & Hes).
  - vm_compute. reflexivity.
  - exists es. split; [exact E|]. apply (proj1 (Hes 0%nat)).
    + exists 5. vm_compute. reflexivity.
    + vm_compute. reflexivity.
Defined.


(** ** Failure of select *)

Lemma reachable_started w :
  reachable w -> task w <> TaskIdle -> srv_serverIsShutdown (server w) = false.
Proof.
  intros Hr Ht. assert (registry_invariant w) as (I1 & _).
  { clear Ht. induction Hr as [h g|w a w' _ IH Hs].
    - apply initial_registry.
    - eapply step_registry; eauto. }
  destruct (srv_serverIsShutdown (server w)); [|reflexivity].
  exfalso. apply Ht, I1. reflexivity.
Qed.

(** X8. A failure of [select] ends the server for good: the loop leaves
    [run] with the server not running (closing the listening descriptor if
    no shutdown was requested), and from then on every [listen] returns
    false and no connection is announced. *)
Theorem select_failure_is_final w r :
  reachable w -> task w = TaskLooping -> r < 0 ->
  exists w1,
    run_select r w = Done tt w1 /\ task w1 = TaskReturned /\ stopping w1 /\
    (srv_serverIsRunning (server w) = true ->
     events w1 = events w ++ [sys_close (srv_serverSocket (server w))]) /\
    forall l w2, steps l w1 = Some w2 ->
      (forall port r1 r2 r3, TLSServer_listen port r1 r2 r3 w2 = Done false w2) /\
      exists es, events w2 = events w1 ++ es /\ forall s, tlsNewConnection s ∉ es.
Proof.
  intros Hr Ht Hneg.
  assert (srv_serverIsShutdown (server w) = false) as F.
  { apply reachable_started; [exact Hr|]. rewrite Ht. discriminate. }
  assert (exists w1, run_select r w = Done tt w1 /\ task w1 = TaskReturned /\
                     stopping w1 /\
                     (srv_serverIsRunning (server w) = true ->
                      events w1 = events w ++ [sys_close (srv_serverSocket (server w))]))
    as (w1 & H1 & T1 & S1 & E1).
  { unfold_M. destruct (Z.ltb_spec r 0) as [_|?]; [|lia].
    unfold stopping.
    destruct (srv_serverIsRunning (server w)) eqn:R; simpl;
      (eexists; split; [reflexivity|]); simpl; repeat split; auto;
      try discriminate. }
  exists w1. split; [exact H1|]. split; [exact T1|]. split; [exact S1|].
  split; [exact E1|].
  intros l w2 H2.
  destruct (steps_evolves _ _ _ H2) as (F2 & _ & _ & _ & es & E & Q).
  split.
  - intros port r1 r2 r3. unfold_M. rewrite (F2 (proj1 S1)). reflexivity.
  - exists es. split; [exact E|]. intros s Hin. specialize (Q S1).
    rewrite forallb_forall in Q. apply list_elem_of_In in Hin.
    specialize (Q _ Hin). discriminate.
Qed.

Lemma select_failure_is_final_witness :
  exists w1,
    run_select (-1) (after establish_client) = Done tt w1 /\
    task w1 = TaskReturned /\ stopping w1.
Proof.
  destruct (select_failure_is_final (after establish_client) (-1))
    as (w1 & H1 & H2 & H3 & _).
  - apply (steps_reachable establish_client fresh_server).
    + apply reachable_initial.
    + vm_compute. reflexivity.
  - vm_compute. reflexivity.
  - lia.
  - exists w1. auto.
Defined.

(** ** The peer closes the connection *)

Lemma read_failure_outcome s w sock h r pre e rest :
  sockets w !! s = Some sock ->
  sock_sslAccepted sock = true ->
  sock_tlsPeer sock = SSL_live ->
  sock_eventHandler sock = Some h ->
  partial_reads INITIAL_BUFFER_SIZE pre ->
  TLSSocket_socketReadyRead s r (replies_of pre ++ SSL_failure e :: rest) w
  = Done (- Z.of_N e)
      (logged (match pre with
               | [] => []
               | _ => [socketBytesReceived s (received pre)]
               end) w).
Proof.
  intros Hs Ha Hl Hh Hpre.
  rewrite (socketReadyRead_established _ _ _ _ _ Hs Ha Hl).
  destruct (ByteArray_new_wf INITIAL_BUFFER_SIZE) as (W0 & S0).
  destruct (loop_partial_reads s pre (ByteArray_new INITIAL_BUFFER_SIZE) 0%nat W0)
    as (b' & W' & L' & P' & _ & E'); [lia| |].
  { rewrite S0, Nat.sub_0_r. exact Hpre. }
  rewrite E', loop_step_failure.
  destruct pre as [|[data p] pre].
  - unfold received. simpl. unfold socketReadyRead_failed, bind, getSocket, when, ret.
    rewrite Hs. simpl. unfold logged. rewrite app_nil_r. destruct w; reflexivity.
  - assert (0 < length (received ((data, p) :: pre)))%nat as Hlen.
    { destruct Hpre as ((Hd & _) & _). unfold received. simpl.
      rewrite length_app. lia. }
    erewrite failed_delivers by eauto.
    rewrite failed_contents by (auto; lia).
    rewrite P'. reflexivity.
Qed.

(** X9. The peer closes an established connection that has a handler and
    is owned by a running server: the dispatch in which [SSL_read] fails
    first hands the bytes read so far (if any) to the handler, then shuts
    the session down, closes the descriptor and notifies the disconnect,
    in this order; afterwards the descriptor is neither in the map nor in
    the interest set and the socket is closed without owner. *)
Theorem peer_close_dispatch d s w sock h r pre e rest :
  d ∈ srv_activeDescriptors (server w) ->
  srv_socketMap (server w) !! d = Some s ->
  srv_serverIsRunning (server w) = true ->
  sockets w !! s = Some sock ->
  sock_socketDescriptor sock = d -> d <> -1 ->
  sock_owner sock = true ->
  sock_sslAccepted sock = true ->
  sock_tlsPeer sock = SSL_live ->
  sock_eventHandler sock = Some h ->
  partial_reads INITIAL_BUFFER_SIZE pre ->
  exists w',
    run_dispatch d r (replies_of pre ++ SSL_failure e :: rest) w = Done tt w' /\
    events w' = events w
                ++ (match pre with
                    | [] => []
                    | _ => [socketBytesReceived s (received pre)]
                    end)
                ++ [lib_SSL_shutdown s; sys_close d; socketDisconnected s] /\
    srv_socketMap (server w') !! d = None /\
    (d ∉ srv_activeDescriptors (server w')) /\
    released_closed s w'.
Proof.
  intros Hin Hm Hrun Hs Hd Hd1 Ho Ha Hl Hh Hpre.
  unfold run_dispatch. unfold bind at 1. unfold getServer.
  rewrite (bool_decide_eq_true_2 _ Hin). simpl. rewrite Hm.
  unfold bind at 1.
  rewrite (read_failure_outcome _ _ _ _ _ _ _ _ Hs Ha Hl Hh Hpre).
  destruct (Z.leb_spec (- Z.of_N e) 0) as [_|?]; [|lia]. simpl.
  destruct sock as [o fd p acc hd]. simpl in *. subst.
  apply Z.eqb_neq in Hd1.
  unfold logged. unfold_M. crunch.
  all: try (rewrite Hrun in *; discriminate).
  all: eexists; (split; [reflexivity|]); simpl.
  all: split; [rewrite <- ?app_assoc; reflexivity|].
  all: split; [apply lookup_delete_eq|].
  all: split; [rewrite elem_of_difference, elem_of_singleton; tauto|].
  all: eexists; (split; [apply lookup_insert_eq|]); simpl; auto.
Qed.

Lemma peer_close_dispatch_witness :
  exists w',
    run_dispatch 5 1 [SSL_plaintext [x61; x62] 1; SSL_failure 0] (after establish_client)
    = Done tt w' /\
    events w' = events (after establish_client)
                ++ [socketBytesReceived 0%nat [x61; x62]]
                ++ [lib_SSL_shutdown 0%nat; sys_close 5; socketDisconnected 0%nat].
Proof.
  destruct (peer_close_dispatch 5 0%nat (after establish_client)
              (mkTLSSocket true 5 SSL_live true (Some 7%nat)) 7%nat 1
              [([x61; x62], 1%nat)] 0%N []) as (w' & H1 & H2 & _).
  - apply (bool_decide_unpack
             (5 ∈ srv_activeDescriptors (server (after establish_client)))).
    vm_compute. exact I.
  - vm_compute. reflexivity.
  - vm_compute. reflexivity.
  - vm_compute. reflexivity.
  - reflexivity.
  - discriminate.
  - reflexivity.
  - reflexivity.
  - reflexivity.
  - reflexivity.
  - simpl. unfold INITIAL_BUFFER_SIZE. lia.
  - exists w'. split; [exact H1|exact H2].
Defined.

(** ** The terminating zero *)

Section termination.
Local Open Scope nat_scope.

Lemma addNullTermination_terminates b n :
  ba_size b = n -> n + 1 <= ba_capacity b ->
  ba_storage (TLSSocket_addNullTermination b n) !! n = Some x00.
Proof.
  intros Hs Hc. unfold TLSSocket_addNullTermination.
  destruct (Nat.leb_spec (ba_size b + 1) (ba_capacity b)) as [_|?]; [|lia].
  simpl. apply list_lookup_insert_eq. unfold ba_capacity in Hc. lia.
Qed.

Lemma fit_capacity b n :
  ba_wf b -> n <= ba_size b ->
  ba_size (socketReadyRead_fit b n) = n /\
  n + 1 <= ba_capacity (socketReadyRead_fit b n).
Proof.
  intros Hwf Hn.
  destruct (reserve_spec (n + 1) b Hwf) as (W1 & S1 & C1 & _).
  destruct (resize_spec n _ W1) as (W2 & S2 & C2 & _).
  unfold socketReadyRead_fit. destruct (200 <? _).
  - destruct (resize_spec (n + 1) _ W2) as (W3 & S3 & _ & _).
    destruct (shrink_to_fit_spec _ W3) as (W4 & S4 & _).
    destruct (resize_spec n _ W4) as (W5 & S5 & C5 & _).
    split; [exact S5|].
    assert (ba_capacity (ba_shrink_to_fit
              (ba_resize (n + 1) (ba_resize n (ba_reserve (n + 1) b)))) = n + 1).
    { unfold ba_capacity, ba_shrink_to_fit, ba_contents. simpl.
      rewrite length_take. unfold ba_wf, ba_capacity in W3. lia. }
    lia.
  - split; [exact S2|]. lia.
Qed.

(** X10. The buffer that [socketReadyRead] hands to the handler, after a
    successful read as well as after a failed one, has exactly the [n]
    bytes read as its elements and a zero byte right behind them inside
    its allocation: the branch of [addNullTermination] that reports a
    missing terminator is never taken there. *)
Theorem delivered_buffer_is_terminated b n :
  ba_wf b -> n <= ba_size b ->
  let delivered := TLSSocket_addNullTermination (socketReadyRead_fit b n) n in
  let salvaged :=
    TLSSocket_addNullTermination (ba_resize n (ba_reserve (n + 1) b)) n in
  (ba_size delivered = n /\ ba_storage delivered !! n = Some x00 /\
   ba_contents delivered = take n (ba_storage b)) /\
  (ba_size salvaged = n /\ ba_storage salvaged !! n = Some x00 /\
   ba_contents salvaged = take n (ba_storage b)).
Proof.
  intros Hwf Hn. simpl. split.
  - destruct (fit_capacity b n Hwf Hn) as (S & C).
    assert (ba_wf (socketReadyRead_fit b n)) as W.
    { unfold ba_wf. lia. }
    destruct (addNullTermination_spec _ n W) as (_ & S' & _).
    split; [congruence|]. split.
    + apply addNullTermination_terminates; assumption.
    + apply fit_contents; assumption.
  - destruct (reserve_spec (n + 1) b Hwf) as (W1 & S1 & C1 & _).
    destruct (resize_spec n _ W1) as (W2 & S2 & C2 & _).
    destruct (addNullTermination_spec _ n W2) as (_ & S' & _).
    split; [congruence|]. split.
    + apply addNullTermination_terminates; [exact S2|lia].
    + apply failed_contents; assumption.
Qed.

Lemma delivered_buffer_is_terminated_witness :
  ba_storage (TLSSocket_addNullTermination
                (socketReadyRead_fit
                   (ba_store 0 [x61; x62; x63] (ByteArray_new INITIAL_BUFFER_SIZE)) 3) 3)
  !! 3 = Some x00.
Proof.
  refine (proj1 (proj2 (proj1 (delivered_buffer_is_terminated
            (ba_store 0 [x61; x62; x63] (ByteArray_new INITIAL_BUFFER_SIZE)) 3 _ _)))).
  - unfold ba_wf, ba_capacity. vm_compute. lia.
  - vm_compute. lia.
Defined.

End termination.

(** ** One handshake per connection *)

Lemma handshakes_app s l1 l2 :
  handshakes s (l1 ++ l2) = (handshakes s l1 + handshakes s l2)%nat.
Proof. unfold handshakes. rewrite List.filter_app, length_app. reflexivity. Qed.

Lemma handshakes_calm s w' es :
  Forall (calm_event w') es -> handshakes s es = 0%nat.
Proof.
  induction 1 as [|e es He _ IH]; [reflexivity|].
  unfold handshakes in *. simpl. destruct e; simpl in *; try exact IH; contradiction.
Qed.

(** What one step adds to the handshakes of [s]: nothing, or one handshake
    of a socket that was open and pending and is established or closed
    afterwards. *)
Lemma step_handshakes a w w' s :
  step a w = Some w' ->
  exists es, events w' = events w ++ es /\
    (handshakes s es = 0%nat \/
     (handshakes s es = 1%nat /\
      (exists sock, sockets w !! s = Some sock /\
         sock_sslAccepted sock = false /\ sock_socketDescriptor sock <> -1) /\
      (established s w' \/ closed s w'))).
Proof.
  intros Hstep.
  destruct (step_calm_or_dispatch _ _ _ Hstep)
    as [C|[E0|(d & r & replies & -> & Hopen & H)]].
  - destruct C as (_ & _ & es & E & F). exists es. split; [exact E|].
    left. eapply handshakes_calm, F.
  - exists []. rewrite app_nil_r. auto.
  - destruct (run_dispatch_cases _ _ _ _ _ Hopen H)
      as [C|(s0 & sock & Hs & Ha & Hd & [(Hr & ann & Hann & ->)|(-> & Hc)])].
    + destruct C as (_ & _ & es & E & F). exists es. split; [exact E|].
      left. eapply handshakes_calm, F.
    + simpl. eexists. split; [reflexivity|].
      assert (handshakes s ann = 0%nat) as Hz.
      { destruct Hann as [->| ->]; reflexivity. }
      change (lib_SSL_accept s0 r :: ann) with ([lib_SSL_accept s0 r] ++ ann).
      rewrite handshakes_app, Hz. unfold handshakes. simpl.
      destruct (Nat.eqb_spec s s0) as [->|Hn]; simpl; [|auto].
      right. split; [reflexivity|]. split; [eauto|].
      left. eexists. split; [simpl; apply lookup_insert_eq|]. reflexivity.
    + pose proof (close_calm _ _ _ _ Hc) as (_ & _ & es & E & F).
      simpl in E. exists ([lib_SSL_accept s0 0] ++ es).
      split; [rewrite E, <- app_assoc; reflexivity|].
      rewrite handshakes_app, (handshakes_calm s _ _ F). unfold handshakes. simpl.
      destruct (Nat.eqb_spec s s0) as [->|Hn]; simpl; [|auto].
      right. split; [reflexivity|]. split; [eauto|].
      right. eapply close_closes, Hc.
Qed.

Lemma closed_stable_step a w w' s :
  step a w = Some w' ->
  (closed s w -> closed s w') /\ (established s w -> established s w').
Proof.
  intros H. destruct (step_evolves _ _ _ H) as (_ & _ & _ & K & _).
  split; intros (sock & Hs & Hp); destruct (K _ _ Hs) as (sock' & Hs' & Hd & Ha);
    exists sock'; auto.
Qed.

(** X11. In every execution the handshake of a connection is attempted at
    most once: the log holds at most one [SSL_accept] for each socket. *)
Theorem handshake_at_most_once w s :
  reachable w -> (handshakes s (events w) <= 1)%nat.
Proof.
  intros Hr.
  assert (handshakes s (events w) = 0%nat \/
          (handshakes s (events w) = 1%nat /\ (established s w \/ closed s w)))
    as [->|[-> _]]; [|lia..].
  induction Hr as [h g|w a w' _ IH Hs]; [left; reflexivity|].
  destruct (step_handshakes _ _ _ s Hs) as (es & E & Hes).
  destruct (closed_stable_step a w w' s Hs) as (Kc & Ke).
  rewrite E, handshakes_app.
  destruct Hes as [->|(-> & (sock & Hk & Ha & Hd) & Hfin)].
  - rewrite Nat.add_0_r. destruct IH as [IH|(IH & [He|Hc])]; auto.
  - destruct IH as [->|(_ & [(k & Hk' & Ha')|(k & Hk' & Hd')])].
    + right. auto.
    + congruence.
    + congruence.
Qed.

Lemma handshake_at_most_once_witness :
  (handshakes 0%nat (events (after shutdown_close_drain)) <= 1)%nat.
Proof.
  apply handshake_at_most_once.
  apply (steps_reachable shutdown_close_drain fresh_server).
  - apply reachable_initial.
  - vm_compute. reflexivity.
Defined.

(** * The DNS responder *)

Import DNS.

(** ** Arithmetic of the header bytes *)

Lemma get_QR_query (b2 : Z) :
  0 <= b2 < 256 -> (get_QR b2 =? DNS_QUERY) = true <-> b2 < 128.
Proof.
  intros Hb. unfold get_QR, DNS_QUERY. rewrite Z.eqb_eq.
  split; intros H; Z.div_mod_to_equations; lia.
Qed.

Lemma set_QR_response (b2 : Z) :
  0 <= b2 < 128 -> set_QR DNS_RESPONSE b2 mod 256 = b2 + 128.
Proof.
  intros Hb. unfold set_QR, DNS_RESPONSE.
  change (1 mod 2) with 1.
  rewrite (Z.mod_small b2 128) by lia. rewrite Z.mod_small; lia.
Qed.

Lemma ntohs_zero (b0 b1 : Z) :
  0 <= b0 < 256 -> 0 <= b1 < 256 ->
  (ntohs (b0 + 256 * b1) =? 0) = true <-> b0 = 0 /\ b1 = 0.
Proof.
  intros H0 H1. unfold ntohs, htons. rewrite Z.eqb_eq.
  split; [intros H | intros [-> ->]; reflexivity].
  Z.div_mod_to_equations. lia.
Qed.

Lemma ntohs_be16 (b0 b1 : Z) :
  0 <= b0 < 256 -> 0 <= b1 < 256 -> ntohs (b0 + 256 * b1) = b0 * 256 + b1.
Proof.
  intros H0 H1. unfold ntohs, htons. Z.div_mod_to_equations. lia.
Qed.

(** ** Memory accesses *)

Lemma bytes_lookup (buffer : list Z) (i : nat) (v : Z) :
  bytes buffer -> buffer !! i = Some v -> 0 <= v < 256.
Proof.
  intros Hb Hl. unfold bytes in Hb. rewrite Forall_lookup in Hb. eauto.
Qed.

Lemma bytes_insert (buffer : list Z) (i : nat) (v : Z) :
  bytes buffer -> bytes (<[i := v mod 256]> buffer).
Proof.
  intros Hb. apply Forall_insert; [exact Hb|].
  apply Z.mod_pos_bound. lia.
Qed.

Lemma load8_in (buffer : list Z) (off : Z) :
  0 <= off < Z.of_nat (length buffer) ->
  exists v, buffer !! Z.to_nat off = Some v /\ load8 buffer off = Some v.
Proof.
  intros Hoff. unfold load8.
  destruct (Z.leb_spec 0 off) as [_|]; [|lia].
  destruct (lookup_lt_is_Some_2 buffer (Z.to_nat off)) as [v Hv]; [lia|].
  exists v. split; [exact Hv | exact Hv].
Qed.

Lemma load8_lookup (buffer : list Z) (off v : Z) :
  0 <= off -> buffer !! Z.to_nat off = Some v -> load8 buffer off = Some v.
Proof.
  intros Hoff Hv. unfold load8.
  destruct (Z.leb_spec 0 off) as [_|]; [exact Hv | lia].
Qed.

Lemma load16_lookup (buffer : list Z) (off v0 v1 : Z) :
  0 <= off ->
  buffer !! Z.to_nat off = Some v0 ->
  buffer !! S (Z.to_nat off) = Some v1 ->
  load16 buffer off = Some (v0 + 256 * v1).
Proof.
  intros Hoff H0 H1. unfold load16.
  rewrite (load8_lookup buffer off v0) by assumption. simpl.
  rewrite (load8_lookup buffer (off + 1) v1); [reflexivity | lia |].
  replace (Z.to_nat (off + 1)) with (S (Z.to_nat off)) by lia. exact H1.
Qed.

Lemma load16_in (buffer : list Z) (off : Z) :
  0 <= off -> off + 2 <= Z.of_nat (length buffer) ->
  exists v0 v1,
    buffer !! Z.to_nat off = Some v0 /\ buffer !! S (Z.to_nat off) = Some v1 /\
    load16 buffer off = Some (v0 + 256 * v1).
Proof.
  intros Hoff Hlen.
  destruct (lookup_lt_is_Some_2 buffer (Z.to_nat off)) as [v0 H0]; [lia|].
  destruct (lookup_lt_is_Some_2 buffer (S (Z.to_nat off))) as [v1 H1]; [lia|].
  exists v0, v1. split; [exact H0|]. split; [exact H1|].
  apply load16_lookup; assumption.
Qed.

Lemma store8_in (buffer : list Z) (off v : Z) :
  0 <= off < Z.of_nat (length buffer) ->
  store8 buffer off v = Some (<[Z.to_nat off := v mod 256]> buffer).
Proof.
  intros Hoff. unfold store8.
  destruct (Z.leb_spec 0 off); [|lia].
  destruct (Z.ltb_spec off (Z.of_nat (length buffer))); [reflexivity | lia].
Qed.

Lemma store16_in (buffer : list Z) (off v : Z) :
  0 <= off -> off + 2 <= Z.of_nat (length buffer) ->
  store16 buffer off v =
  Some (<[S (Z.to_nat off) := (v / 256) mod 256]>
          (<[Z.to_nat off := v mod 256]> buffer)).
Proof.
  intros Hoff Hlen. unfold store16.
  rewrite store8_in by lia. simpl.
  rewrite store8_in by (rewrite length_insert; lia).
  replace (Z.to_nat (off + 1)) with (S (Z.to_nat off)) by lia. reflexivity.
Qed.

Lemma store32_in (buffer : list Z) (off v : Z) :
  0 <= off -> off + 4 <= Z.of_nat (length buffer) ->
  store32 buffer off v =
  Some (<[S (S (S (Z.to_nat off))) := (v / 65536 / 256) mod 256]>
       (<[S (S (Z.to_nat off)) := (v / 65536) mod 256]>
       (<[S (Z.to_nat off) := (v / 256) mod 256]>
       (<[Z.to_nat off := v mod 256]> buffer)))).
Proof.
  intros Hoff Hlen. unfold store32.
  rewrite store16_in by lia. simpl.
  rewrite store16_in by (rewrite ?length_insert; lia).
  replace (Z.to_nat (off + 2)) with (S (S (Z.to_nat off))) by lia. reflexivity.
Qed.

(** ** Buffers that differ in few places *)

Lemma differs_refl (P : Z -> Prop) (b : list Z) : differs_only_in P b b.
Proof. split; [reflexivity | intros; reflexivity]. Qed.

Lemma differs_trans (P : Z -> Prop) (b1 b2 b3 : list Z) :
  differs_only_in P b1 b2 -> differs_only_in P b2 b3 -> differs_only_in P b1 b3.
Proof.
  intros [L1 H1] [L2 H2]. split; [congruence|].
  intros i Hi. rewrite H2, H1 by assumption. reflexivity.
Qed.

Lemma differs_insert (P : Z -> Prop) (b : list Z) (i : nat) (v : Z) :
  P (Z.of_nat i) -> differs_only_in P b (<[i := v]> b).
Proof.
  intros Hi. split; [apply length_insert|].
  intros j Hj. apply list_lookup_insert_ne. intros ->. contradiction.
Qed.

Lemma differs_insert_after (P : Z -> Prop) (b b' : list Z) (i : nat) (v : Z) :
  P (Z.of_nat i) -> differs_only_in P b b' -> differs_only_in P b (<[i := v]> b').
Proof.
  intros Hi H. eapply differs_trans; [exact H | apply differs_insert, Hi].
Qed.

Lemma differs_weaken (P Q : Z -> Prop) (b b' : list Z) :
  (forall i, P i -> Q i) -> differs_only_in P b b' -> differs_only_in Q b b'.
Proof.
  intros HPQ [L H]. split; [exact L|]. intros i Hi. apply H. auto.
Qed.

(** ** [processError] *)

Ltac dns_step :=
  first [ erewrite load8_lookup by (first [lia | reflexivity])
        | rewrite store8_in by (rewrite ?length_insert; cbn [length]; lia) ];
  cbn [mbind option_bind option_ret].

Lemma processError_header (h0 h1 b2 b3 q0 q1 a0 a1 n0 n1 r0 r1 : Z)
    (tail : list Z) (responseCode messageSize : Z) :
  processError (h0 :: h1 :: b2 :: b3 :: q0 :: q1 :: a0 :: a1 :: n0 :: n1
                :: r0 :: r1 :: tail) responseCode messageSize =
  Some (messageSize,
        h0 :: h1 :: set_QR DNS_RESPONSE b2 mod 256
        :: set_RA 1 (set_RCode responseCode b3 mod 256) mod 256
        :: 0
        :: (if sizeof_DNSMessageHeader <? messageSize then 1 else 0)
        :: 0 :: 0 :: 0 :: 0 :: 0 :: 0 :: tail).
Proof.
  unfold processError, store16, off_flags2, off_flags3, off_QDCount,
    off_ANCount, off_NSCount, off_ARCount.
  repeat dns_step.
  destruct (sizeof_DNSMessageHeader <? messageSize); reflexivity.
Qed.

Ltac explode_header b H :=
  do 12 (destruct b as [|? b]; [cbn [length] in H; lia|]).

Lemma processError_spec (b : list Z) (responseCode messageSize : Z) :
  bytes b -> 12 <= Z.of_nat (length b) ->
  exists b2 b',
    b !! 2%nat = Some b2 /\
    processError b responseCode messageSize = Some (messageSize, b') /\
    bytes b' /\
    differs_only_in (fun i => 2 <= i < 12) b b' /\
    b' !! 2%nat = Some (set_QR DNS_RESPONSE b2 mod 256) /\
    b' !! 6%nat = Some 0 /\ b' !! 7%nat = Some 0 /\
    b' !! 8%nat = Some 0 /\ b' !! 9%nat = Some 0 /\
    b' !! 10%nat = Some 0 /\ b' !! 11%nat = Some 0.
Proof.
  intros Hb Hlen. explode_header b Hlen.
  rewrite processError_header. eexists _, _.
  split; [reflexivity|]. split; [reflexivity|].
  split.
  { unfold bytes in *. repeat rewrite Forall_cons in Hb.
    repeat rewrite Forall_cons.
    destruct (sizeof_DNSMessageHeader <? messageSize);
      repeat split; try tauto; try lia; apply Z.mod_pos_bound; lia. }
  split.
  { split; [reflexivity|]. intros i Hi.
    do 12 (destruct i as [|i]; [first [reflexivity | exfalso; apply Hi; lia]|]).
    reflexivity. }
  repeat split; reflexivity.
Qed.

(** ** The name of the question *)

Lemma skipName_ok (fuel : nat) (b : list Z) (cur e : Z) :
  bytes b -> 0 <= cur -> e <= Z.of_nat (length b) ->
  Z.max 0 (e - cur) < Z.of_nat fuel ->
  match skipName fuel b cur e with
  | NameEnd c => cur < c <= e
  | NameFormatError => True
  | NameFault | NameFuel => False
  end.
Proof.
  revert cur. induction fuel as [|fuel IH]; intros cur Hb Hcur He Hfuel.
  { lia. }
  cbn [skipName].
  destruct (Z.leb_spec e cur) as [|Hlt]; [exact I|].
  destruct (load8_in b cur) as (len & Hl & ->); [lia|].
  pose proof (bytes_lookup _ _ _ Hb Hl) as Hrange.
  destruct (Z.ltb_spec 63 len); [exact I|].
  destruct (Z.eqb_spec len 0) as [->|Hne]; [lia|].
  specialize (IH (cur + len + 1) Hb).
  destruct (skipName fuel b (cur + len + 1) e) as [c| | |];
    try (apply IH; lia).
  assert (cur + len + 1 < c <= e) by (apply IH; lia). lia.
Qed.

Lemma encode_name_cons (l : list Z) (labels : list (list Z)) :
  encode_name (l :: labels) = (Z.of_nat (length l) :: l) ++ encode_name labels.
Proof. unfold encode_name. cbn [map concat]. rewrite <- !app_assoc. reflexivity. Qed.

Lemma load8_app (pre l : list Z) (off k v : Z) :
  off = Z.of_nat (length pre) + k -> 0 <= k ->
  l !! Z.to_nat k = Some v ->
  load8 (pre ++ l) off = Some v.
Proof.
  intros -> Hk Hl. apply load8_lookup; [lia|].
  replace (Z.to_nat (Z.of_nat (length pre) + k))
    with (length pre + Z.to_nat k)%nat by lia.
  rewrite lookup_app_r by lia.
  replace (length pre + Z.to_nat k - length pre)%nat with (Z.to_nat k) by lia.
  exact Hl.
Qed.

Lemma store8_app (pre l : list Z) (off k v : Z) :
  off = Z.of_nat (length pre) + k -> 0 <= k < Z.of_nat (length l) ->
  store8 (pre ++ l) off v = Some (pre ++ <[Z.to_nat k := v mod 256]> l).
Proof.
  intros -> Hk. rewrite store8_in by (rewrite length_app; lia).
  replace (Z.to_nat (Z.of_nat (length pre) + k))
    with (length pre + Z.to_nat k)%nat by lia.
  rewrite insert_app_r. reflexivity.
Qed.

Lemma skipName_encoded (labels : list (list Z)) :
  forall (pre post : list Z) (fuel : nat) (e : Z),
    Forall label_ok labels ->
    (length labels < fuel)%nat ->
    Z.of_nat (length pre + length (encode_name labels)) <= e ->
    skipName fuel (pre ++ encode_name labels ++ post)
      (Z.of_nat (length pre)) e =
    NameEnd (Z.of_nat (length pre + length (encode_name labels))).
Proof.
  induction labels as [|l labels IH]; intros pre post fuel e Hok Hfuel He.
  - destruct fuel as [|fuel]; [cbn [length] in Hfuel; lia|].
    cbn [skipName]. cbn [encode_name map concat app length] in *.
    destruct (Z.leb_spec e (Z.of_nat (length pre))); [lia|].
    rewrite (load8_app pre (0 :: post) _ 0 0) by (first [lia | reflexivity]).
    cbn. f_equal. lia.
  - destruct fuel as [|fuel]; [cbn [length] in Hfuel; lia|].
    inversion Hok as [|? ? Hl Hok']; subst.
    rewrite encode_name_cons in *. cbn [skipName].
    rewrite length_app in He. cbn [length] in He.
    destruct (Z.leb_spec e (Z.of_nat (length pre))); [lia|].
    rewrite (load8_app pre _ _ 0 (Z.of_nat (length l)))
      by (first [lia | reflexivity]).
    unfold label_ok in Hl.
    destruct (Z.ltb_spec 63 (Z.of_nat (length l))); [lia|].
    destruct (Z.eqb_spec (Z.of_nat (length l)) 0); [lia|].
    replace (Z.of_nat (length pre) + Z.of_nat (length l) + 1)
      with (Z.of_nat (length (pre ++ Z.of_nat (length l) :: l)))
      by (rewrite length_app; cbn [length]; lia).
    replace (pre ++ ((Z.of_nat (length l) :: l) ++ encode_name labels) ++ post)
      with ((pre ++ Z.of_nat (length l) :: l) ++ encode_name labels ++ post)
      by (rewrite <- !app_assoc; reflexivity).
    rewrite IH.
    + f_equal. rewrite !length_app. cbn [length]. lia.
    + exact Hok'.
    + cbn [length] in Hfuel. lia.
    + rewrite !length_app. cbn [length]. lia.
Qed.
(** ** The answer record *)

Lemma writeAnswer_spec (addr : Z) (b : list Z) (cur : Z) :
  bytes b -> 12 <= cur -> cur + 16 <= Z.of_nat (length b) ->
  exists b2 b',
    b !! 2%nat = Some b2 /\
    writeAnswer addr b cur = Some b' /\
    bytes b' /\
    differs_only_in
      (fun i => i = 2 \/ i = 3 \/ i = 6 \/ i = 7 \/ cur <= i < cur + 16) b b' /\
    b' !! 2%nat = Some (set_QR DNS_RESPONSE b2 mod 256) /\
    b' !! 6%nat = Some 0 /\ b' !! 7%nat = Some 1.
Proof.
  intros Hb Hcur Hlen.
  destruct (lookup_lt_is_Some_2 b 2%nat) as [b2 H2]; [lia|].
  destruct (lookup_lt_is_Some_2 b 3%nat) as [b3 H3]; [lia|].
  exists b2.
  unfold writeAnswer, off_ANCount, off_flags2, off_flags3.
  repeat (first
    [ rewrite store16_in by (rewrite ?length_insert; lia)
    | rewrite store32_in by (rewrite ?length_insert; lia)
    | rewrite store8_in by (rewrite ?length_insert; lia)
    | erewrite load8_lookup
        by (first [lia | rewrite !list_lookup_insert_ne by lia; eassumption
                  | rewrite list_lookup_insert_eq by (rewrite ?length_insert; lia); reflexivity ]) ];
    cbn [mbind option_bind option_ret]).
  eexists. split; [exact H2|]. split; [reflexivity|].
  split; [repeat apply bytes_insert; exact Hb|].
  split.
  { repeat (apply differs_insert_after; [cbv beta; lia|]). apply differs_refl. }
  split; [apply list_lookup_insert_eq; rewrite ?length_insert; lia|].
  split.
  - do 3 (rewrite list_lookup_insert_ne by lia).
    rewrite list_lookup_insert_eq by (rewrite ?length_insert; lia). reflexivity.
  - do 2 (rewrite list_lookup_insert_ne by lia).
    rewrite list_lookup_insert_eq by (rewrite ?length_insert; lia). reflexivity.
Qed.
(** ** The paths through [processMessage] *)

Lemma processMessage_cases (addr : Z) (b : list Z) (ms : Z) :
  bytes b -> 512 <= Z.of_nat (length b) -> 0 <= ms <= Z.of_nat (length b) ->
  exists b2, b !! 2%nat = Some b2 /\ 0 <= b2 < 256 /\
    (((ms < 12 \/ 128 <= b2) /\ processMessage addr b ms = Some (0, b))
     \/ (12 <= ms /\ b2 < 128 /\
         exists b0 c n, 12 <= n <= ms /\
           bytes b0 /\ differs_only_in (fun i => 10 <= i < 12) b b0 /\
           processMessage addr b ms = processError b0 c n)
     \/ (12 <= ms /\ b2 < 128 /\
         b !! 8%nat = Some 0 /\ b !! 9%nat = Some 0 /\
         exists cur b1,
           12 < cur /\ cur + 4 <= ms /\ cur + 20 <= 512 /\
           bytes b1 /\ differs_only_in (fun i => 10 <= i < 12) b b1 /\
           b1 !! 10%nat = Some 0 /\ b1 !! 11%nat = Some 0 /\
           processMessage addr b ms =
           (writeAnswer addr b1 (cur + 4) ≫= fun b' => Some (cur + 20, b')))).
Proof.
  intros Hb Hlen Hms.
  destruct (lookup_lt_is_Some_2 b 2%nat) as [b2 H2]; [lia|].
  pose proof (bytes_lookup _ _ _ Hb H2) as Hb2.
  exists b2. split; [exact H2|]. split; [exact Hb2|].
  unfold processMessage, sizeof_DNSMessageHeader, sizeof_DNSResourceRecordTypeA,
    DNS_MAX_MESSAGE_SIZE, off_flags2, off_ANCount, off_NSCount, off_QDCount,
    off_ARCount.
  destruct (Z.ltb_spec ms 12) as [Hshort|Hlong]; [left; split; [lia | reflexivity]|].
  rewrite (load8_lookup b 2 b2) by (first [lia | exact H2]).
  cbn [mbind option_bind option_ret].
  destruct (get_QR b2 =? DNS_QUERY) eqn:HQR; cbn [negb].
  2: { left. split; [|reflexivity]. right.
       destruct (Z.lt_ge_cases b2 128) as [Hlt|]; [|assumption].
       apply get_QR_query in Hlt; [congruence | exact Hb2]. }
  apply get_QR_query in HQR; [|exact Hb2].
  assert (Herr : forall b0 c n, 12 <= n <= ms ->
            bytes b0 -> differs_only_in (fun i => 10 <= i < 12) b b0 ->
            12 <= ms /\ b2 < 128 /\
            exists b0' c' n', 12 <= n' <= ms /\
              bytes b0' /\ differs_only_in (fun i => 10 <= i < 12) b b0' /\
              processError b0 c n = processError b0' c' n').
  { intros b0 c n Hn Hb0 Hd0. split; [lia|]. split; [lia|].
    exists b0, c, n. repeat (split; [first [lia | assumption]|]). reflexivity. }
  destruct (negb (get_OPCode b2 =? DNS_OPCODE_QUERY));
    [right; left; apply Herr; [lia | assumption | first [assumption | apply differs_refl]]|].
  destruct (load16_in b 6) as (a0 & a1 & Ha0 & Ha1 & ->); [lia | lia |].
  cbn [mbind option_bind option_ret].
  destruct (ntohs (a0 + 256 * a1) =? 0) eqn:HAN; cbn [negb];
    [|right; left; apply Herr; [lia | assumption | first [assumption | apply differs_refl]]].
  destruct (load16_in b 8) as (n0 & n1 & Hn0 & Hn1 & ->); [lia | lia |].
  cbn [mbind option_bind option_ret].
  destruct (ntohs (n0 + 256 * n1) =? 0) eqn:HNS; cbn [negb];
    [|right; left; apply Herr; [lia | assumption | first [assumption | apply differs_refl]]].
  apply ntohs_zero in HNS; try (eapply bytes_lookup; eassumption).
  destruct HNS as [-> ->].
  destruct (load16_in b 4) as (q0 & q1 & Hq0 & Hq1 & ->); [lia | lia |].
  cbn [mbind option_bind option_ret].
  destruct (negb (ntohs (q0 + 256 * q1) =? 1));
    [right; left; apply Herr; [lia | assumption | first [assumption | apply differs_refl]]|].
  pose proof (skipName_ok (Z.to_nat ms) b 12 ms Hb) as Hskip.
  destruct (skipName (Z.to_nat ms) b 12 ms) as [cur| | |];
    try (exfalso; apply Hskip; lia);
    [|right; left; apply Herr; [lia | assumption | first [assumption | apply differs_refl]]].
  assert (12 < cur <= ms) as Hcurr by (apply Hskip; lia). clear Hskip.
  destruct (Z.ltb_spec ms (cur + 4)); [right; left; apply Herr; [lia | assumption | first [assumption | apply differs_refl]]|].
  destruct (load16_in b cur) as (t0 & t1 & Ht0 & Ht1 & ->); [lia | lia |].
  cbn [mbind option_bind option_ret].
  destruct (load16_in b (cur + 2)) as (c0 & c1 & Hc0 & Hc1 & ->); [lia | lia |].
  cbn [mbind option_bind option_ret].
  destruct (negb (ntohs (t0 + 256 * t1) =? DNS_TYPE_A)
            && negb (ntohs (t0 + 256 * t1) =? DNS_TYPE_ALL));
    [right; left; apply Herr; [lia | assumption | first [assumption | apply differs_refl]]|].
  destruct (negb (ntohs (c0 + 256 * c1) =? DNS_CLASS_IN)
            && negb (ntohs (c0 + 256 * c1) =? DNS_CLASS_ANY));
    [right; left; apply Herr; [lia | assumption | first [assumption | apply differs_refl]]|].
  destruct (load16_in b 10) as (r0 & r1 & Hr0 & Hr1 & ->); [lia | lia |].
  cbn [mbind option_bind option_ret].
  assert (Hstore :
    exists b1, (if negb (r0 + 256 * r1 =? 0) then store16 b 10 0 else Some b)
               = Some b1 /\
      bytes b1 /\ differs_only_in (fun i => 10 <= i < 12) b b1 /\
      b1 !! 10%nat = Some 0 /\ b1 !! 11%nat = Some 0).
  { destruct (Z.eqb_spec (r0 + 256 * r1) 0) as [Hz|Hnz]; cbn [negb].
    - exists b. split; [reflexivity|]. split; [exact Hb|].
      split; [apply differs_refl|].
      pose proof (bytes_lookup _ _ _ Hb Hr0). pose proof (bytes_lookup _ _ _ Hb Hr1).
      assert (r0 = 0 /\ r1 = 0) as [-> ->] by lia.
      split; assumption.
    - rewrite store16_in by lia. eexists. split; [reflexivity|].
      split; [repeat apply bytes_insert; exact Hb|].
      split; [repeat (apply differs_insert_after; [cbv beta; lia|]); apply differs_refl|].
      split.
      + rewrite list_lookup_insert_ne by lia.
        rewrite list_lookup_insert_eq by lia. reflexivity.
      + apply list_lookup_insert_eq. rewrite length_insert. lia. }
  destruct Hstore as (b1 & -> & Hb1 & Hd1 & H10 & H11).
  cbn [mbind option_bind option_ret].
  destruct (Z.ltb_spec 512 (12 + (cur - 12 + 4) + 16));
    [right; left; apply Herr; [lia | assumption | first [assumption | apply differs_refl]]|].
  right; right. split; [lia|]. split; [lia|].
  split; [exact Hn0|]. split; [exact Hn1|].
  exists cur, b1. repeat (split; [first [lia | assumption]|]).
  replace (12 + (cur - 12 + 4) + 16) with (cur + 20) by lia.
  reflexivity.
Qed.
Lemma processMessage_spec (addr : Z) (b : list Z) (ms : Z) :
  bytes b -> 512 <= Z.of_nat (length b) -> 0 <= ms <= Z.of_nat (length b) ->
  exists b2 n b',
    b !! 2%nat = Some b2 /\ 0 <= b2 < 256 /\
    processMessage addr b ms = Some (n, b') /\ bytes b' /\
    ((n = 0 /\ b' = b /\ (ms < 12 \/ 128 <= b2))
     \/ (12 <= ms /\ b2 < 128 /\ 12 <= n <= ms /\
         differs_only_in (fun i => 2 <= i < 12) b b' /\
         b' !! 2%nat = Some (b2 + 128) /\
         b' !! 6%nat = Some 0 /\ b' !! 7%nat = Some 0 /\
         b' !! 8%nat = Some 0 /\ b' !! 9%nat = Some 0 /\
         b' !! 10%nat = Some 0 /\ b' !! 11%nat = Some 0)
     \/ (12 <= ms /\ b2 < 128 /\ 32 < n <= 512 /\ n - 16 <= ms /\
         differs_only_in
           (fun i => i = 2 \/ i = 3 \/ i = 6 \/ i = 7 \/ 10 <= i < 12
                     \/ n - 16 <= i < n) b b' /\
         b' !! 2%nat = Some (b2 + 128) /\
         b' !! 6%nat = Some 0 /\ b' !! 7%nat = Some 1 /\
         b' !! 8%nat = Some 0 /\ b' !! 9%nat = Some 0 /\
         b' !! 10%nat = Some 0 /\ b' !! 11%nat = Some 0)).
Proof.
  intros Hb Hlen Hms.
  destruct (processMessage_cases addr b ms Hb Hlen Hms)
    as (b2 & H2 & Hb2 & [(Hdrop & ->) | [(Hms' & HQR & HB) | (Hms' & HQR & HC)]]).
  - exists b2, 0, b. repeat (split; [assumption || reflexivity|]).
    left. repeat split; assumption.
  - destruct HB as (b0 & c & n & Hn & Hb0 & Hd0 & ->).
    destruct (processError_spec b0 c n Hb0) as (b2' & b' & H2' & -> & Hb' & Hd & Hq & Hrest).
    { destruct Hd0 as [-> _]. lia. }
    assert (b2' = b2) as ->.
    { destruct Hd0 as [_ Hd0]. rewrite Hd0 in H2' by (cbv beta; lia). congruence. }
    exists b2, n, b'. repeat (split; [assumption || reflexivity|]).
    right; left. split; [lia|]. split; [lia|]. split; [lia|].
    split.
    { eapply differs_trans; [|exact Hd].
      eapply differs_weaken; [|exact Hd0]. cbv beta. intros; lia. }
    rewrite set_QR_response in Hq by lia. split; [exact Hq|]. exact Hrest.
  - destruct HC as (H8 & H9 & cur & b1 & Hcur & Hcur4 & Hcur20 & Hb1 & Hd1 & H10 & H11 & ->).
    destruct (writeAnswer_spec addr b1 (cur + 4) Hb1)
      as (b2' & b' & H2' & -> & Hb' & Hd & Hq & H6 & H7); [lia | |].
    { destruct Hd1 as [-> _]. lia. }
    assert (b2' = b2) as ->.
    { destruct Hd1 as [_ Hd1]. rewrite Hd1 in H2' by (cbv beta; lia). congruence. }
    cbn [mbind option_bind option_ret].
    exists b2, (cur + 20), b'. repeat (split; [assumption || reflexivity|]).
    right; right. split; [lia|]. split; [lia|]. split; [lia|]. split; [lia|].
    split.
    { eapply differs_trans.
      - eapply differs_weaken; [|exact Hd1]. cbv beta. intros; lia.
      - eapply differs_weaken; [|exact Hd]. cbv beta. intros; lia. }
    rewrite set_QR_response in Hq by lia.
    destruct Hd as [_ Hd]. destruct Hd1 as [_ Hd1].
    repeat split; try assumption.
    + rewrite Hd, Hd1 by (cbv beta; lia). exact H8.
    + rewrite Hd, Hd1 by (cbv beta; lia). exact H9.
    + rewrite Hd by (cbv beta; lia). exact H10.
    + rewrite Hd by (cbv beta; lia). exact H11.
Qed.

(** X12. [processMessage] stays inside the buffer that [run] gives it: on
    a buffer of at least 512 bytes and a message of at most 512 bytes it
    makes no access outside the buffer and returns; the buffer keeps its
    size, and the size it returns for the response is 0 or lies between
    the 12 bytes of a header and the 512 bytes of the buffer. *)
Theorem processMessage_in_bounds (addr : Z) (buffer : list Z) (messageSize : Z) :
  bytes buffer ->
  DNS_MAX_MESSAGE_SIZE <= Z.of_nat (length buffer) ->
  0 <= messageSize <= DNS_MAX_MESSAGE_SIZE ->
  exists responseMessageSize buffer',
    processMessage addr buffer messageSize = Some (responseMessageSize, buffer') /\
    bytes buffer' /\ length buffer' = length buffer /\
    (responseMessageSize = 0 \/
     sizeof_DNSMessageHeader <= responseMessageSize <= DNS_MAX_MESSAGE_SIZE).
Proof.
  unfold DNS_MAX_MESSAGE_SIZE, sizeof_DNSMessageHeader. intros Hb Hlen Hms.
  destruct (processMessage_spec addr buffer messageSize Hb Hlen)
    as (b2 & n & b' & _ & _ & Heq & Hb' & Hcases); [lia|].
  exists n, b'. split; [exact Heq|]. split; [exact Hb'|].
  destruct Hcases as [(-> & -> & _) | [H | H]].
  - split; [reflexivity | left; reflexivity].
  - destruct H as (_ & _ & Hn & [Hl _] & _). split; [exact Hl | right; lia].
  - destruct H as (_ & _ & Hn & _ & [Hl _] & _). split; [exact Hl | right; lia].
Qed.

(** X13. [processMessage] returns 0, for "send nothing", exactly when the
    message is shorter than a header or has the QR bit set, and then it
    has not changed the buffer; every other message gets a response. *)
Theorem dropped_exactly_when_short_or_response
    (addr : Z) (buffer : list Z) (messageSize : Z)
    (responseMessageSize : Z) (buffer' : list Z) :
  bytes buffer ->
  DNS_MAX_MESSAGE_SIZE <= Z.of_nat (length buffer) ->
  0 <= messageSize <= Z.of_nat (length buffer) ->
  processMessage addr buffer messageSize = Some (responseMessageSize, buffer') ->
  (responseMessageSize = 0 <->
   messageSize < sizeof_DNSMessageHeader \/
   exists b2, buffer !! 2%nat = Some b2 /\ get_QR b2 = DNS_RESPONSE) /\
  (responseMessageSize = 0 -> buffer' = buffer).
Proof.
  unfold DNS_MAX_MESSAGE_SIZE, sizeof_DNSMessageHeader, DNS_RESPONSE, get_QR.
  intros Hb Hlen Hms Hrun.
  destruct (processMessage_spec addr buffer messageSize Hb Hlen Hms)
    as (b2 & n & b' & H2 & Hb2 & Heq & Hb' & Hcases).
  rewrite Hrun in Heq. injection Heq as -> ->.
  assert (Hbit : (b2 / 128) mod 2 = 1 <-> 128 <= b2)
    by (split; intros; Z.div_mod_to_equations; lia).
  destruct Hcases as [(-> & -> & Hwhy) | [H | H]].
  - split; [|reflexivity]. split; [|reflexivity]. intros _.
    destruct Hwhy as [|Hq]; [left; assumption|].
    right. exists b2. split; [exact H2 | apply Hbit, Hq].
  - destruct H as (Hlong & HQR & Hn & _).
    split; [|lia]. split; [lia|].
    intros [|(b2' & H2' & Hq)]; [lia|].
    rewrite H2 in H2'. injection H2' as <-. apply Hbit in Hq. lia.
  - destruct H as (Hlong & HQR & Hn & _).
    split; [|lia]. split; [lia|].
    intros [|(b2' & H2' & Hq)]; [lia|].
    rewrite H2 in H2'. injection H2' as <-. apply Hbit in Hq. lia.
Qed.

(** X14. Every response of [processMessage] is addressed to its query: the
    two bytes of the ID are those of the query, the third byte of the
    header is that of the query with the QR bit added (opcode, AA, TC and
    RD are kept), and the authority and additional counts are 0. *)
Theorem response_header (addr : Z) (buffer : list Z) (messageSize : Z)
    (responseMessageSize : Z) (buffer' : list Z) :
  bytes buffer ->
  DNS_MAX_MESSAGE_SIZE <= Z.of_nat (length buffer) ->
  0 <= messageSize <= Z.of_nat (length buffer) ->
  processMessage addr buffer messageSize = Some (responseMessageSize, buffer') ->
  responseMessageSize <> 0 ->
  buffer' !! 0%nat = buffer !! 0%nat /\
  buffer' !! 1%nat = buffer !! 1%nat /\
  (exists b2, buffer !! 2%nat = Some b2 /\ get_QR b2 = DNS_QUERY /\
              buffer' !! 2%nat = Some (b2 + 128)) /\
  buffer' !! 8%nat = Some 0 /\ buffer' !! 9%nat = Some 0 /\
  buffer' !! 10%nat = Some 0 /\ buffer' !! 11%nat = Some 0.
Proof.
  unfold DNS_MAX_MESSAGE_SIZE. intros Hb Hlen Hms Hrun Hn0.
  destruct (processMessage_spec addr buffer messageSize Hb Hlen Hms)
    as (b2 & n & b' & H2 & Hb2 & Heq & Hb' & Hcases).
  rewrite Hrun in Heq. injection Heq as -> ->.
  assert (Hq : b2 < 128 -> get_QR b2 = DNS_QUERY).
  { intros Hlt. apply Z.eqb_eq. apply get_QR_query; assumption. }
  destruct Hcases as [(-> & _) | [H | H]]; [contradiction | |].
  - destruct H as (_ & HQR & _ & [_ Hd] & Hb2' & _ & _ & H8 & H9 & H10 & H11).
    split; [apply Hd; cbv beta; lia|]. split; [apply Hd; cbv beta; lia|].
    split; [exists b2; auto|]. auto.
  - destruct H as (_ & HQR & Hn & _ & [_ Hd] & Hb2' & _ & _ & H8 & H9 & H10 & H11).
    split; [apply Hd; cbv beta; lia|]. split; [apply Hd; cbv beta; lia|].
    split; [exists b2; auto|]. auto.
Qed.

(** X15. [processMessage] builds the response in place without touching
    the question: behind the ID, the only bytes of the buffer that can
    differ afterwards are bytes 2 to 11 of the header and, behind the
    header, the last 16 bytes of the response (the answer record). *)
Theorem response_in_place (addr : Z) (buffer : list Z) (messageSize : Z)
    (responseMessageSize : Z) (buffer' : list Z) :
  bytes buffer ->
  DNS_MAX_MESSAGE_SIZE <= Z.of_nat (length buffer) ->
  0 <= messageSize <= Z.of_nat (length buffer) ->
  processMessage addr buffer messageSize = Some (responseMessageSize, buffer') ->
  differs_only_in
    (fun i => 2 <= i < sizeof_DNSMessageHeader \/
              (sizeof_DNSMessageHeader <= i /\
               responseMessageSize - sizeof_DNSResourceRecordTypeA <= i
               < responseMessageSize))
    buffer buffer'.
Proof.
  unfold DNS_MAX_MESSAGE_SIZE, sizeof_DNSMessageHeader,
    sizeof_DNSResourceRecordTypeA.
  intros Hb Hlen Hms Hrun.
  destruct (processMessage_spec addr buffer messageSize Hb Hlen Hms)
    as (b2 & n & b' & H2 & Hb2 & Heq & Hb' & Hcases).
  rewrite Hrun in Heq. injection Heq as -> ->.
  destruct Hcases as [(-> & -> & _) | [H | H]].
  - apply differs_refl.
  - destruct H as (_ & _ & _ & Hd & _).
    eapply differs_weaken; [|exact Hd]. cbv beta. intros; lia.
  - destruct H as (_ & _ & Hn & _ & Hd & _).
    eapply differs_weaken; [|exact Hd]. cbv beta. intros; lia.
Qed.
(** ** Messages given by their parts *)

Lemma load8_app_l (hdr tail : list Z) (off : Z) (k : nat) (v : Z) :
  off = Z.of_nat k -> hdr !! k = Some v -> load8 (hdr ++ tail) off = Some v.
Proof.
  intros -> Hk. apply load8_lookup; [lia|]. rewrite Nat2Z.id.
  apply lookup_app_l_Some, Hk.
Qed.

Lemma store8_app_l (hdr tail : list Z) (off : Z) (k : nat) (v : Z) :
  off = Z.of_nat k -> (k < length hdr)%nat ->
  store8 (hdr ++ tail) off v = Some (<[k := v mod 256]> hdr ++ tail).
Proof.
  intros -> Hk. rewrite store8_in by (rewrite length_app; lia).
  rewrite Nat2Z.id, insert_app_l by exact Hk. reflexivity.
Qed.

Lemma load8_app_r (hdr q l : list Z) (off : Z) (k : nat) (v : Z) :
  off = Z.of_nat (length hdr + length q + k) -> l !! k = Some v ->
  load8 (hdr ++ q ++ l) off = Some v.
Proof.
  intros -> Hk. rewrite app_assoc.
  apply (load8_app _ _ _ (Z.of_nat k)); [rewrite length_app; lia | lia |].
  rewrite Nat2Z.id. exact Hk.
Qed.

Lemma store8_app_r (hdr q l : list Z) (off : Z) (k : nat) (v : Z) :
  off = Z.of_nat (length hdr + length q + k) -> (k < length l)%nat ->
  store8 (hdr ++ q ++ l) off v = Some (hdr ++ q ++ <[k := v mod 256]> l).
Proof.
  intros -> Hk. rewrite !app_assoc.
  rewrite (store8_app _ _ _ (Z.of_nat k)); [|rewrite length_app; lia | lia].
  rewrite Nat2Z.id. reflexivity.
Qed.

Ltac load_hdr k :=
  erewrite (load8_app_l _ _ (Z.of_nat k) k) by (first [lia | reflexivity]);
  cbn [mbind option_bind option_ret].

Ltac store_hdr k :=
  rewrite (store8_app_l _ _ _ k) by (first [lia | cbn [length]; lia]);
  cbn [mbind option_bind option_ret insert list_insert].

Ltac load_rec k :=
  erewrite (load8_app_r _ _ _ _ k) by (first [cbn [length]; lia | reflexivity]);
  cbn [mbind option_bind option_ret].

Ltac store_rec k :=
  rewrite (store8_app_r _ _ _ _ k) by (cbn [length]; lia);
  cbn [mbind option_bind option_ret insert list_insert].

Lemma writeAnswer_explicit (addr : Z)
    (h0 h1 b2 b3 q0 q1 a0 a1 n0 n1 r0 r1 : Z) (q : list Z)
    (x0 x1 x2 x3 x4 x5 x6 x7 x8 x9 x10 x11 x12 x13 x14 x15 : Z)
    (rest : list Z) (cur : Z) :
  cur = 12 + Z.of_nat (length q) ->
  writeAnswer addr
    ([h0; h1; b2; b3; q0; q1; a0; a1; n0; n1; r0; r1] ++ q ++
     x0 :: x1 :: x2 :: x3 :: x4 :: x5 :: x6 :: x7 :: x8 :: x9 :: x10 :: x11
     :: x12 :: x13 :: x14 :: x15 :: rest) cur =
  Some ([h0; h1; set_QR DNS_RESPONSE b2 mod 256; b3 mod 128; q0; q1; 0; 1;
         n0; n1; r0; r1] ++ q ++ answer_A addr ++ rest).
Proof.
  intros ->. unfold writeAnswer, store32, store16, off_ANCount, off_flags2,
    off_flags3.
  store_rec 0%nat. store_rec 1%nat. store_rec 2%nat. store_rec 3%nat.
  store_rec 4%nat. store_rec 5%nat. store_rec 6%nat. store_rec 7%nat.
  store_rec 8%nat. store_rec 9%nat. store_rec 10%nat. store_rec 11%nat.
  store_rec 12%nat. store_rec 13%nat. store_rec 14%nat. store_rec 15%nat.
  store_hdr 6%nat. store_hdr 7%nat.
  load_hdr 3%nat. store_hdr 3%nat.
  load_hdr 2%nat. store_hdr 2%nat.
  replace (set_RA (htons 1) b3 mod 256) with (b3 mod 128).
  2: { unfold set_RA. change (htons 1 mod 2) with 0.
       rewrite Z.mul_0_r, Z.add_0_r.
       pose proof (Z.mod_pos_bound b3 128).
       rewrite (Z.mod_small (b3 mod 128) 256) by lia. reflexivity. }
  replace ((addr / 65536 / 256) mod 256) with ((addr / 16777216) mod 256)
    by (rewrite Z.div_div by lia; reflexivity).
  reflexivity.
Qed.
Lemma ntohs_of_be16 (x : Z) :
  0 <= x < 65536 -> ntohs ((x / 256) mod 256 + 256 * (x mod 256)) = x.
Proof.
  intros Hx. rewrite ntohs_be16 by (apply Z.mod_pos_bound; lia).
  Z.div_mod_to_equations. lia.
Qed.

Lemma load16_app_l (hdr tail : list Z) (off : Z) (k : nat) (v0 v1 : Z) :
  off = Z.of_nat k -> hdr !! k = Some v0 -> hdr !! S k = Some v1 ->
  load16 (hdr ++ tail) off = Some (v0 + 256 * v1).
Proof.
  intros -> H0 H1. unfold load16.
  rewrite (load8_app_l hdr tail (Z.of_nat k) k v0) by (first [reflexivity | assumption]).
  cbn [mbind option_bind option_ret].
  rewrite (load8_app_l hdr tail (Z.of_nat k + 1) (S k) v1) by (first [lia | assumption]).
  reflexivity.
Qed.

Lemma load16_app_r (hdr q l : list Z) (off : Z) (k : nat) (v0 v1 : Z) :
  off = Z.of_nat (length hdr + length q + k) ->
  l !! k = Some v0 -> l !! S k = Some v1 ->
  load16 (hdr ++ q ++ l) off = Some (v0 + 256 * v1).
Proof.
  intros -> H0 H1. unfold load16.
  rewrite (load8_app_r hdr q l (Z.of_nat (length hdr + length q + k)) k v0)
    by (first [reflexivity | assumption]).
  cbn [mbind option_bind option_ret].
  rewrite (load8_app_r hdr q l (Z.of_nat (length hdr + length q + k) + 1) (S k) v1)
    by (first [lia | assumption]).
  reflexivity.
Qed.

Lemma length_question (labels : list (list Z)) (qtype qclass : Z) :
  length (question labels qtype qclass) = (length (encode_name labels) + 4)%nat.
Proof. unfold question, be16. rewrite !length_app. reflexivity. Qed.

Lemma length_encode_name (labels : list (list Z)) :
  (length labels < length (encode_name labels))%nat.
Proof.
  induction labels as [|l labels IH]; [cbn; lia|].
  rewrite encode_name_cons, length_app. cbn [length]. lia.
Qed.

(** A message with one question, up to the checks of its type and class. *)
Lemma processMessage_question (addr : Z) (id0 id1 b2 b3 ar0 ar1 : Z)
    (labels : list (list Z)) (qtype qclass : Z) (rest : list Z)
    (messageSize : Z) (buffer : list Z) :
  buffer = [id0; id1; b2; b3; 0; 1; 0; 0; 0; 0; ar0; ar1]
           ++ question labels qtype qclass ++ rest ->
  get_QR b2 = DNS_QUERY -> get_OPCode b2 = DNS_OPCODE_QUERY ->
  Forall label_ok labels ->
  0 <= qtype < 65536 -> 0 <= qclass < 65536 ->
  12 + Z.of_nat (length (question labels qtype qclass)) <= messageSize ->
  processMessage addr buffer messageSize =
  let size := 12 + Z.of_nat (length (question labels qtype qclass)) in
  if negb (qtype =? DNS_TYPE_A) && negb (qtype =? DNS_TYPE_ALL) then
    processError buffer DNS_RESPONSE_NAME_ERROR size
  else if negb (qclass =? DNS_CLASS_IN) && negb (qclass =? DNS_CLASS_ANY) then
    processError buffer DNS_RESPONSE_NAME_ERROR size
  else
    (if negb (ar0 + 256 * ar1 =? 0) then store16 buffer 10 0 else Some buffer)
    ≫= fun buffer =>
    if DNS_MAX_MESSAGE_SIZE <? size + 16 then
      processError buffer DNS_RESPONSE_FORMAT_ERROR size
    else
      writeAnswer addr buffer size ≫= fun buffer => Some (size + 16, buffer).
Proof.
  intros Hbuf HQR HOP Hlabels Htype Hclass Hsize.
  pose proof (length_question labels qtype qclass) as Hlq.
  pose proof (length_encode_name labels) as Hln.
  set (hdr := [id0; id1; b2; b3; 0; 1; 0; 0; 0; 0; ar0; ar1]) in *.
  assert (Hbuf' : buffer = hdr ++ encode_name labels
                           ++ (qtype / 256) mod 256 :: qtype mod 256
                           :: (qclass / 256) mod 256 :: qclass mod 256 :: rest).
  { rewrite Hbuf. unfold question, be16. rewrite <- !app_assoc. reflexivity. }
  assert (L2 : load8 buffer 2 = Some b2)
    by (rewrite Hbuf; apply (load8_app_l _ _ _ 2%nat); reflexivity).
  assert (L6 : load16 buffer 6 = Some (0 + 256 * 0))
    by (rewrite Hbuf; apply (load16_app_l _ _ _ 6%nat); reflexivity).
  assert (L8 : load16 buffer 8 = Some (0 + 256 * 0))
    by (rewrite Hbuf; apply (load16_app_l _ _ _ 8%nat); reflexivity).
  assert (L4 : load16 buffer 4 = Some (0 + 256 * 1))
    by (rewrite Hbuf; apply (load16_app_l _ _ _ 4%nat); reflexivity).
  assert (L10 : load16 buffer 10 = Some (ar0 + 256 * ar1))
    by (rewrite Hbuf; apply (load16_app_l _ _ _ 10%nat); reflexivity).
  set (cur := 12 + Z.of_nat (length (encode_name labels))).
  assert (Lt : load16 buffer cur =
               Some ((qtype / 256) mod 256 + 256 * (qtype mod 256))).
  { rewrite Hbuf'. apply (load16_app_r _ _ _ _ 0%nat); [|reflexivity..].
    unfold cur, hdr. cbn [length]. lia. }
  assert (Lc : load16 buffer (cur + 2) =
               Some ((qclass / 256) mod 256 + 256 * (qclass mod 256))).
  { rewrite Hbuf'. apply (load16_app_r _ _ _ _ 2%nat); [|reflexivity..].
    unfold cur, hdr. cbn [length]. lia. }
  assert (Hskip : skipName (Z.to_nat messageSize) buffer 12 messageSize =
                  NameEnd cur).
  { rewrite Hbuf'.
    rewrite (skipName_encoded labels hdr _ (Z.to_nat messageSize) messageSize
               Hlabels).
    - unfold cur, hdr. f_equal. cbn [length]. lia.
    - lia.
    - unfold hdr. cbn [length]. lia. }
  unfold processMessage, sizeof_DNSMessageHeader, sizeof_DNSResourceRecordTypeA,
    off_flags2, off_ANCount, off_NSCount, off_QDCount, off_ARCount.
  destruct (Z.ltb_spec messageSize 12); [lia|].
  rewrite L2. cbn [mbind option_bind option_ret].
  rewrite HQR, HOP, !Z.eqb_refl. cbn [negb].
  rewrite L6. cbn [mbind option_bind option_ret].
  change (ntohs (0 + 256 * 0) =? 0) with true. cbn [negb].
  rewrite L8. cbn [mbind option_bind option_ret].
  change (ntohs (0 + 256 * 0) =? 0) with true. cbn [negb].
  rewrite L4. cbn [mbind option_bind option_ret].
  change (ntohs (0 + 256 * 1) =? 1) with true. cbn [negb].
  rewrite Hskip.
  destruct (Z.ltb_spec messageSize (cur + 4)); [unfold cur in *; lia|].
  rewrite Lt. cbn [mbind option_bind option_ret].
  rewrite Lc. cbn [mbind option_bind option_ret].
  rewrite !ntohs_of_be16 by assumption.
  rewrite L10. cbn [mbind option_bind option_ret].
  cbv zeta.
  replace (12 + (cur - 12 + 4)) with
    (12 + Z.of_nat (length (question labels qtype qclass)))
    by (unfold cur; lia).
  replace (cur + 4) with
    (12 + Z.of_nat (length (question labels qtype qclass)))
    by (unfold cur; lia).
  reflexivity.
Qed.
(** X16. A query for the address of any name is answered with the
    configured address: for a standard query with one question of type A
    or ALL and class IN or ANY, [processMessage] returns the size of
    header, question and one resource record, and leaves in the buffer the
    header with the ID of the query, QR set, RA clear and the counts 1, 1,
    0, 0, the question as it was, and behind it the record: a pointer to
    the name of the question, type A, class IN, time to live 0 and the four
    octets of the address.  Additional records behind the question (as
    with EDNS) are ignored and overwritten. *)
Theorem address_query_answered (addr : Z) (id0 id1 b2 b3 ar0 ar1 : Z)
    (labels : list (list Z)) (qtype qclass : Z) (rest : list Z)
    (messageSize : Z) :
  0 <= b2 < 256 -> get_QR b2 = DNS_QUERY -> get_OPCode b2 = DNS_OPCODE_QUERY ->
  0 <= ar0 < 256 -> 0 <= ar1 < 256 ->
  Forall label_ok labels ->
  qtype = DNS_TYPE_A \/ qtype = DNS_TYPE_ALL ->
  qclass = DNS_CLASS_IN \/ qclass = DNS_CLASS_ANY ->
  12 + Z.of_nat (length (question labels qtype qclass)) <= messageSize ->
  12 + Z.of_nat (length (question labels qtype qclass)) + 16
    <= DNS_MAX_MESSAGE_SIZE ->
  (16 <= length rest)%nat ->
  processMessage addr
    ([id0; id1; b2; b3; 0; 1; 0; 0; 0; 0; ar0; ar1]
     ++ question labels qtype qclass ++ rest) messageSize =
  Some (12 + Z.of_nat (length (question labels qtype qclass)) + 16,
        [id0; id1; b2 + 128; b3 mod 128; 0; 1; 0; 1; 0; 0; 0; 0]
        ++ question labels qtype qclass ++ answer_A addr ++ drop 16 rest).
Proof.
  intros Hb2 HQR HOP Har0 Har1 Hlabels Htype Hclass Hsize Hmax Hrest.
  rewrite (processMessage_question addr id0 id1 b2 b3 ar0 ar1 labels qtype
             qclass rest messageSize _ eq_refl HQR HOP Hlabels);
    [| destruct Htype as [-> | ->]; cbv; split; congruence
     | destruct Hclass as [-> | ->]; cbv; split; congruence
     | exact Hsize].
  cbv zeta.
  replace (negb (qtype =? DNS_TYPE_A) && negb (qtype =? DNS_TYPE_ALL))
    with false by (destruct Htype as [-> | ->]; reflexivity).
  replace (negb (qclass =? DNS_CLASS_IN) && negb (qclass =? DNS_CLASS_ANY))
    with false by (destruct Hclass as [-> | ->]; reflexivity).
  set (q := question labels qtype qclass) in *.
  assert (Hstore :
    (if negb (ar0 + 256 * ar1 =? 0)
     then store16 ([id0; id1; b2; b3; 0; 1; 0; 0; 0; 0; ar0; ar1] ++ q ++ rest)
            10 0
     else Some ([id0; id1; b2; b3; 0; 1; 0; 0; 0; 0; ar0; ar1] ++ q ++ rest))
    = Some ([id0; id1; b2; b3; 0; 1; 0; 0; 0; 0; 0; 0] ++ q ++ rest)).
  { destruct (Z.eqb_spec (ar0 + 256 * ar1) 0) as [Hz|Hnz]; cbn [negb].
    - assert (ar0 = 0 /\ ar1 = 0) as [-> ->] by lia. reflexivity.
    - unfold store16. store_hdr 10%nat. store_hdr 11%nat. reflexivity. }
  rewrite Hstore. cbn [mbind option_bind option_ret].
  unfold DNS_MAX_MESSAGE_SIZE in *.
  destruct (Z.ltb_spec 512 (12 + Z.of_nat (length q) + 16)); [lia|].
  do 16 (destruct rest as [|? rest]; [cbn [length] in Hrest; lia|]).
  rewrite writeAnswer_explicit by reflexivity.
  cbn [mbind option_bind option_ret drop].
  rewrite set_QR_response; [reflexivity|].
  split; [lia|].
  destruct (Z.lt_ge_cases b2 128) as [|Hge]; [assumption|].
  exfalso. unfold get_QR, DNS_QUERY in HQR. Z.div_mod_to_equations. lia.
Qed.

(** X17. A question of any other type or class is refused with the
    response code NAME_ERROR (3): [processMessage] returns the size of
    header and question, and the buffer holds the header with the ID of
    the query, QR and RA set, RCODE 3 and the counts 1, 0, 0, 0, followed
    by the question and the rest of the buffer as they were. *)
Theorem unsupported_question_refused (addr : Z) (id0 id1 b2 b3 ar0 ar1 : Z)
    (labels : list (list Z)) (qtype qclass : Z) (rest : list Z)
    (messageSize : Z) :
  0 <= b2 < 256 -> get_QR b2 = DNS_QUERY -> get_OPCode b2 = DNS_OPCODE_QUERY ->
  0 <= b3 < 256 ->
  Forall label_ok labels ->
  0 <= qtype < 65536 -> 0 <= qclass < 65536 ->
  (qtype <> DNS_TYPE_A /\ qtype <> DNS_TYPE_ALL) \/
  (qclass <> DNS_CLASS_IN /\ qclass <> DNS_CLASS_ANY) ->
  12 + Z.of_nat (length (question labels qtype qclass)) <= messageSize ->
  processMessage addr
    ([id0; id1; b2; b3; 0; 1; 0; 0; 0; 0; ar0; ar1]
     ++ question labels qtype qclass ++ rest) messageSize =
  Some (12 + Z.of_nat (length (question labels qtype qclass)),
        [id0; id1; b2 + 128;
         (b3 / 16) mod 8 * 16 + DNS_RESPONSE_NAME_ERROR + 128;
         0; 1; 0; 0; 0; 0; 0; 0]
        ++ question labels qtype qclass ++ rest).
Proof.
  intros Hb2 HQR HOP Hb3 Hlabels Htype Hclass Hwhy Hsize.
  rewrite (processMessage_question addr id0 id1 b2 b3 ar0 ar1 labels qtype
             qclass rest messageSize _ eq_refl HQR HOP Hlabels Htype Hclass
             Hsize).
  cbv zeta.
  pose proof (length_question labels qtype qclass) as Hlq.
  set (q := question labels qtype qclass) in *.
  assert (Herr :
    processError ([id0; id1; b2; b3; 0; 1; 0; 0; 0; 0; ar0; ar1] ++ q ++ rest)
      DNS_RESPONSE_NAME_ERROR (12 + Z.of_nat (length q)) =
    Some (12 + Z.of_nat (length q),
          [id0; id1; b2 + 128;
           (b3 / 16) mod 8 * 16 + DNS_RESPONSE_NAME_ERROR + 128;
           0; 1; 0; 0; 0; 0; 0; 0] ++ q ++ rest)).
  { cbn [app]. rewrite processError_header.
    unfold sizeof_DNSMessageHeader.
    destruct (Z.ltb_spec 12 (12 + Z.of_nat (length q))); [|lia].
    rewrite set_QR_response.
    2: { split; [lia|]. destruct (Z.lt_ge_cases b2 128) as [|Hge]; [assumption|].
         exfalso. unfold get_QR, DNS_QUERY in HQR. Z.div_mod_to_equations. lia. }
    replace (set_RA 1 (set_RCode DNS_RESPONSE_NAME_ERROR b3 mod 256) mod 256)
      with ((b3 / 16) mod 8 * 16 + DNS_RESPONSE_NAME_ERROR + 128);
      [reflexivity|].
    unfold set_RA, set_RCode, DNS_RESPONSE_NAME_ERROR.
    Z.div_mod_to_equations. lia. }
  destruct (negb (qtype =? DNS_TYPE_A) && negb (qtype =? DNS_TYPE_ALL)) eqn:Ht;
    [exact Herr|].
  destruct (negb (qclass =? DNS_CLASS_IN) && negb (qclass =? DNS_CLASS_ANY)) eqn:Hc;
    [exact Herr|].
  exfalso.
  apply andb_false_iff in Ht, Hc.
  rewrite !negb_false_iff, !Z.eqb_eq in Ht, Hc.
  destruct Hwhy as [[? ?] | [? ?]]; [destruct Ht | destruct Hc]; contradiction.
Qed.
Lemma bytes_sample_query : bytes sample_query.
Proof.
  unfold bytes, sample_query. apply Forall_app. split.
  - repeat constructor; lia.
  - apply Forall_app. split.
    + vm_compute. repeat constructor; discriminate.
    + apply Forall_replicate. lia.
Defined.

Lemma sample_query_answered :
  processMessage sample_address sample_query 24 = Some (40, sample_response).
Proof. vm_compute. reflexivity. Defined.

Lemma processMessage_in_bounds_witness :
  exists responseMessageSize buffer',
    processMessage sample_address sample_query 24
    = Some (responseMessageSize, buffer') /\
    bytes buffer' /\ length buffer' = length sample_query /\
    (responseMessageSize = 0 \/
     sizeof_DNSMessageHeader <= responseMessageSize <= DNS_MAX_MESSAGE_SIZE).
Proof.
  apply processMessage_in_bounds.
  - exact bytes_sample_query.
  - vm_compute. discriminate.
  - vm_compute. split; discriminate.
Defined.

Lemma dropped_exactly_when_short_or_response_witness :
  (40 = 0 <->
   24 < sizeof_DNSMessageHeader \/
   exists b2, sample_query !! 2%nat = Some b2 /\ get_QR b2 = DNS_RESPONSE) /\
  (40 = 0 -> sample_response = sample_query).
Proof.
  apply (dropped_exactly_when_short_or_response sample_address sample_query 24).
  - exact bytes_sample_query.
  - vm_compute. discriminate.
  - vm_compute. split; discriminate.
  - exact sample_query_answered.
Defined.

Lemma response_header_witness :
  sample_response !! 0%nat = sample_query !! 0%nat /\
  sample_response !! 1%nat = sample_query !! 1%nat /\
  (exists b2, sample_query !! 2%nat = Some b2 /\ get_QR b2 = DNS_QUERY /\
              sample_response !! 2%nat = Some (b2 + 128)) /\
  sample_response !! 8%nat = Some 0 /\ sample_response !! 9%nat = Some 0 /\
  sample_response !! 10%nat = Some 0 /\ sample_response !! 11%nat = Some 0.
Proof.
  apply (response_header sample_address sample_query 24 40).
  - exact bytes_sample_query.
  - vm_compute. discriminate.
  - vm_compute. split; discriminate.
  - exact sample_query_answered.
  - discriminate.
Defined.

Lemma response_in_place_witness :
  differs_only_in
    (fun i => 2 <= i < sizeof_DNSMessageHeader \/
              (sizeof_DNSMessageHeader <= i /\
               40 - sizeof_DNSResourceRecordTypeA <= i < 40))
    sample_query sample_response.
Proof.
  apply (response_in_place sample_address sample_query 24).
  - exact bytes_sample_query.
  - vm_compute. discriminate.
  - vm_compute. split; discriminate.
  - exact sample_query_answered.
Defined.

Lemma address_query_answered_witness :
  processMessage sample_address
    ([0xAB; 0xCD; 1; 0; 0; 1; 0; 0; 0; 0; 0; 41]
     ++ question sample_labels DNS_TYPE_A DNS_CLASS_IN ++ replicate 488 0) 35 =
  Some (12 + Z.of_nat (length (question sample_labels DNS_TYPE_A DNS_CLASS_IN))
        + 16,
        [0xAB; 0xCD; 1 + 128; 0 mod 128; 0; 1; 0; 1; 0; 0; 0; 0]
        ++ question sample_labels DNS_TYPE_A DNS_CLASS_IN
        ++ answer_A sample_address ++ drop 16 (replicate 488 0)).
Proof.
  apply address_query_answered.
  - lia.
  - reflexivity.
  - reflexivity.
  - lia.
  - lia.
  - repeat constructor; cbn; lia.
  - left; reflexivity.
  - left; reflexivity.
  - vm_compute. discriminate.
  - vm_compute. discriminate.
  - vm_compute. lia.
Defined.

Lemma unsupported_question_refused_witness :
  processMessage sample_address
    ([0xAB; 0xCD; 1; 0; 0; 1; 0; 0; 0; 0; 0; 0]
     ++ question sample_labels 28 DNS_CLASS_IN ++ replicate 488 0) 24 =
  Some (12 + Z.of_nat (length (question sample_labels 28 DNS_CLASS_IN)),
        [0xAB; 0xCD; 1 + 128;
         (0 / 16) mod 8 * 16 + DNS_RESPONSE_NAME_ERROR + 128;
         0; 1; 0; 0; 0; 0; 0; 0]
        ++ question sample_labels 28 DNS_CLASS_IN ++ replicate 488 0).
Proof.
  apply unsupported_question_refused.
  - lia.
  - reflexivity.
  - reflexivity.
  - lia.
  - repeat constructor; cbn; lia.
  - lia.
  - unfold DNS_CLASS_IN. lia.
  - left. unfold DNS_TYPE_A, DNS_TYPE_ALL. lia.
  - vm_compute. discriminate.
Defined.

(** ** The socket of the responder *)

Lemma open_descriptors_app (l1 l2 : list SysCall) :
  open_descriptors (l1 ++ l2) =
  fold_left (fun acc c =>
               match c with
               | os_socket result =>
                   if result <? 0 then acc else result :: acc
               | os_close fd => remove_one fd acc
               | _ => acc
               end) l2 (open_descriptors l1).
Proof. unfold open_descriptors. apply fold_left_app. Qed.

Lemma task_running_app (l1 l2 : list SysCall) :
  task_running (l1 ++ l2) =
  fold_left (fun acc c =>
               match c with
               | Task_startTask => true
               | Task_stopTask => false
               | _ => acc
               end) l2 (task_running l1).
Proof. unfold task_running. apply fold_left_app. Qed.

(** X18. The responder does not leak descriptors: after any sequence
    of [start] and [stop], with any results of
    [socket] and [bind], the descriptors created and not closed are the
    one in [_serverSocket] while the responder is running and none while
    it is not, and the task runs exactly while the responder is running. *)
Theorem responder_owns_its_socket (l : list Call) :
  open_descriptors (dns_calls (run_calls l)) =
    (if dns_serverIsRunning (run_calls l)
     then [dns_serverSocket (run_calls l)] else []) /\
  task_running (dns_calls (run_calls l)) = dns_serverIsRunning (run_calls l).
Proof.
  induction l as [|c l IH] using rev_ind; [split; reflexivity|].
  unfold run_calls in *. rewrite fold_left_app. cbn [fold_left].
  set (r := fold_left (fun r c => call c r) l new_Responder) in *.
  destruct IH as [IHd IHt].
  destruct c as [ip port s b|]; cbn [call].
  - unfold start. destruct (dns_serverIsRunning r) eqn:Hrun; cbn [snd].
    + rewrite Hrun. split; assumption.
    + destruct (Z.ltb_spec s 0) as [Hneg|Hpos]; cbn [snd].
      * cbn [dns_calls dns_serverIsRunning].
        rewrite open_descriptors_app, task_running_app, IHd, IHt.
        cbn [fold_left]. destruct (Z.ltb_spec s 0); [split; reflexivity | lia].
      * destruct (negb (b =? 0)); cbn [snd dns_calls dns_serverIsRunning
                                          dns_serverSocket];
          rewrite <- app_assoc, open_descriptors_app, task_running_app, IHd, IHt;
          cbn [fold_left app];
          destruct (Z.ltb_spec s 0); try lia;
          cbn [remove_one]; rewrite ?Z.eqb_refl; split; reflexivity.
  - unfold stop. destruct (dns_serverIsRunning r) eqn:Hrun.
    + cbn [dns_calls dns_serverIsRunning].
      rewrite open_descriptors_app, task_running_app, IHd.
      cbn [fold_left remove_one]. rewrite Z.eqb_refl. split; reflexivity.
    + rewrite Hrun. split; assumption.
Qed.

(** X19. Unlike the TLS server, the responder can be started again: after
    [stop], in whatever state the responder was, a [start] whose [socket]
    and [bind] succeed returns 0 and leaves the responder running on the
    new descriptor with the new address and port. *)
Theorem responder_restarts (r : Responder) (ipAddress port fd : Z) :
  0 <= fd ->
  let result := start ipAddress port fd 0 (stop r) in
  fst result = 0 /\
  dns_serverIsRunning (snd result) = true /\
  dns_serverSocket (snd result) = fd /\
  dns_ipAddress (snd result) = ipAddress /\
  dns_serverPort (snd result) = port.
Proof.
  intros Hfd. cbv zeta.
  assert (Hstopped : dns_serverIsRunning (stop r) = false).
  { unfold stop. destruct (dns_serverIsRunning r) eqn:Hrun; [reflexivity | exact Hrun]. }
  unfold start. rewrite Hstopped.
  destruct (Z.ltb_spec fd 0); [lia|].
  repeat split; reflexivity.
Qed.

Lemma responder_restarts_witness :
  fst (start sample_address 53 4 0
         (stop (run_calls [call_start sample_address 53 3 0]))) = 0 /\
  dns_serverIsRunning
    (snd (start sample_address 53 4 0
            (stop (run_calls [call_start sample_address 53 3 0])))) = true /\
  dns_serverSocket
    (snd (start sample_address 53 4 0
            (stop (run_calls [call_start sample_address 53 3 0])))) = 4 /\
  dns_ipAddress
    (snd (start sample_address 53 4 0
            (stop (run_calls [call_start sample_address 53 3 0]))))
  = sample_address /\
  dns_serverPort
    (snd (start sample_address 53 4 0
            (stop (run_calls [call_start sample_address 53 3 0])))) = 53.
Proof.
  apply (responder_restarts (run_calls [call_start sample_address 53 3 0])
           sample_address 53 4).
  lia.
Defined.
